(** * Preset index of iD (modules/presets/index.js)

    A shallow embedding of [presetIndex]: the tag index and the matcher
    ([matchTags]), the vertex query ([allowsVertex]), the area table
    ([areaKeys]), the catalog life cycle ([build], [init], [reset],
    [fromExternal]) and the favorites / recents lists.

    Conventions of the embedding.
    - A JS object used as a dictionary whose enumeration order is observed
      (the tags of an entity or of a preset, the [presets] table of a raw
      catalog) is an association list in enumeration order.  A dictionary
      that is only looked up ([_index[g]], the result of [areaKeys]) is a
      [gmap] over its own properties; for the objects of [_index], what a
      plain object inherits from [Object.prototype] is looked up as well
      ([objectPrototype]).
    - [undefined] / [null] results are [None]; a [TypeError] is [Thrown]
      in the matcher, the [false] flag of the indexing loops, and the
      failure [None] of the state-and-error monad [M].
    - Code of the repository that index.js calls but that lives in other
      files (preset.js, collection.js, the resolver) enters as section
      variables, or is modelled from the specification where marked. *)

From stdpp Require Import base numbers option list strings gmap sets.

Open Scope Z_scope.
Open Scope string_scope.
Open Scope list_scope.

(** ** Data model *)

Inductive Geometry := point | vertex | line | area | relation.

#[global] Instance Geometry_eq_dec : EqDecision Geometry.
Proof. solve_decision. Defined.

(** The property names of [_index], which are also the geometry strings. *)
Definition geometry_name (g : Geometry) : string :=
  match g with
  | point => "point"
  | vertex => "vertex"
  | line => "line"
  | area => "area"
  | relation => "relation"
  end.

(** Tags in [for (k in tags)] order. *)
Definition Tags := list (string * string).

Record Preset := mkPreset {
  preset_id : string;
  tags : Tags;
  geometry : list Geometry;
  searchable : bool;
  suggestion : bool;
  replacement : bool;
  visible : bool
}.

#[global] Instance Preset_eq_dec : EqDecision Preset.
Proof. solve_decision. Defined.

(** [_index]: for each geometry, tag key -> presets in insertion order. *)
Definition Index := Geometry -> gmap string (list Preset).

Definition emptyIndex : Index := fun _ => ∅.

(** [_index[g][k]], read as the empty list while the bucket does not exist. *)
Definition bucket (idx : Index) (g : Geometry) (k : string) : list Preset :=
  default [] (idx g !! k).

(** ** Plain objects as dictionaries *)

(** The result of code that may throw. *)
Inductive Outcome (A : Type) := Returned (a : A) | Thrown.
Arguments Returned {A} a.
Arguments Thrown {A}.

(** What a plain object inherits: a method, with the number of its
    declared parameters (its [length]), or under [__proto__] the prototype
    object itself. *)
Inductive Inherited := Method (arity : nat) | Prototype.

(** The properties of [Object.prototype], which every object of [_index]
    has besides its own buckets. *)
Definition objectPrototypeMembers : list (string * Inherited) :=
  [("constructor", Method 1);
   ("__defineGetter__", Method 2);
   ("__defineSetter__", Method 2);
   ("hasOwnProperty", Method 1);
   ("__lookupGetter__", Method 1);
   ("__lookupSetter__", Method 1);
   ("isPrototypeOf", Method 1);
   ("propertyIsEnumerable", Method 1);
   ("toString", Method 0);
   ("valueOf", Method 0);
   ("__proto__", Prototype);
   ("toLocaleString", Method 0)].

Definition objectPrototype (k : string) : option Inherited :=
  match list_find (fun member : string * Inherited => fst member = k)
                  objectPrototypeMembers with
  | Some (_, (_, m)) => Some m
  | None => None
  end.

(** [o[k]] for an object [o] of [_index]: its own bucket, else the
    inherited member, else [undefined]. *)
Inductive Member := Own (keyMatches : list Preset) | Inherit (m : Inherited).

Definition getMember (o : gmap string (list Preset)) (k : string) : option Member :=
  match o !! k with
  | Some keyMatches => Some (Own keyMatches)
  | None => Inherit <$> objectPrototype k
  end.

(** ** The matcher *)

Section Matcher.
(** [preset.matchScore(tags)] and [preset.isFallback()] are methods set up
    in preset.js; [all.fallback(geometry)] comes from collection.js.  The
    loop only compares scores, which are taken in [Z]. *)
Variable matchScore : Preset -> Tags -> Z.
Variable isFallback : Preset -> bool.
Variable fallback : string -> option Preset.

(** The three variables the loop of [matchTags] updates. *)
Record scan := mkScan {
  address : option Preset;
  best : Z;
  match_ : option Preset
}.

(** Body of the inner loop: [if (score > best) { best = score; match = p }]. *)
Definition scoreStep (entityTags : Tags) (bm : Z * option Preset) (p : Preset)
  : Z * option Preset :=
  let score := matchScore p entityTags in
  if bool_decide (score > bm.1) then (score, Some p) else bm.

(** Body of the outer loop for one key [k] of the tags.  [addr:*] is no
    property of [Object.prototype], so that [geometryMatches['addr:*']] is
    an own bucket or [undefined].  An inherited member is truthy and passes
    [if (!keyMatches) continue;]: a method with parameters has a positive
    [length] and no element 0, and [keyMatches[0].matchScore] throws; for a
    method without parameters [length] is 0, for the prototype object it is
    [undefined], and the inner loop does not run. *)
Definition keyStep (geometryMatches : gmap string (list Preset))
    (entityTags : Tags) (s : scan) (k : string) : Outcome scan :=
  let address' :=
    if String.prefix "addr:" k && bool_decide (is_Some (geometryMatches !! "addr:*"))
    then geometryMatches !! "addr:*" ≫= head
    else address s in
  match getMember geometryMatches k with
  | None => Returned (mkScan address' (best s) (match_ s))
  | Some (Own keyMatches) =>
      let bm := foldl (scoreStep entityTags) (best s, match_ s) keyMatches in
      Returned (mkScan address' bm.1 bm.2)
  | Some (Inherit (Method (S _))) => Thrown
  | Some (Inherit (Method O)) => Returned (mkScan address' (best s) (match_ s))
  | Some (Inherit Prototype) => Returned (mkScan address' (best s) (match_ s))
  end.

(** The outer loop, which ends at the first key that throws. *)
Definition scanTags (idx : Index) (entityTags : Tags) (g : Geometry)
  : Outcome scan :=
  foldl (fun acc k =>
           match acc with
           | Returned s => keyStep (idx g) entityTags s k
           | Thrown => Thrown
           end)
        (Returned (mkScan None (-1) None)) entityTags.*1.

(** [if (address && (!match || match.isFallback())) match = address;] *)
Definition resolve (s : scan) : option Preset :=
  match address s with
  | Some a =>
      match match_ s with
      | None => Some a
      | Some m => if isFallback m then Some a else Some m
      end
  | None => match_ s
  end.

Definition matchTags (idx : Index) (entityTags : Tags) (g : Geometry)
  : Outcome (option Preset) :=
  match scanTags idx entityTags g with
  | Returned s =>
      Returned (match resolve s with
                | Some m => Some m
                | None => fallback (geometry_name g)
                end)
  | Thrown => Thrown
  end.

(** Derived views of the loop, used to state its properties. *)

(** The presets scored by the loop, in the order it scores them. *)
Definition candidates (idx : Index) (entityTags : Tags) (g : Geometry)
  : list Preset :=
  concat (bucket idx g <$> entityTags.*1).

(** The winner of the scoring loop, before address and generic fallback. *)
Definition bestMatch (idx : Index) (entityTags : Tags) (g : Geometry)
  : Outcome (option Preset) :=
  match scanTags idx entityTags g with
  | Returned s => Returned (match_ s)
  | Thrown => Thrown
  end.

(** The address candidate the loop ends with. *)
Definition addressCandidate (idx : Index) (entityTags : Tags) (g : Geometry)
  : Outcome (option Preset) :=
  match scanTags idx entityTags g with
  | Returned s => Returned (address s)
  | Thrown => Thrown
  end.

(** Whether the loop throws at the key [k]. *)
Definition throwsAt (geometryMatches : gmap string (list Preset)) (k : string)
  : bool :=
  match getMember geometryMatches k with
  | Some (Inherit (Method (S _))) => true
  | _ => false
  end.

End Matcher.

(** ** Classification table: [areaKeys] *)

Definition ignore : list string :=
  ["barrier"; "highway"; "footway"; "railway"; "type"].

(** [all.collection.filter(p => !p.suggestion && !p.replacement)] *)
Definition classified (p : Preset) : bool :=
  negb (suggestion p) && negb (replacement p).

(** [for (var key in d.tags) break;] leaves in [key] the first enumerated
    key, and [d.tags[key]] is then the value enumerated with it. *)
Definition firstTag (d : Preset) : option (string * string) := head (tags d).

(** First pass.  [!key] holds for a preset without tags and for the empty
    key. *)
Definition whitelistStep (areaKeys : gmap string (gset string)) (d : Preset)
  : gmap string (gset string) :=
  match firstTag d with
  | None => areaKeys
  | Some (key, _) =>
      if bool_decide (key = EmptyString) then areaKeys
      else if bool_decide (key ∈ ignore) then areaKeys
      else if bool_decide (area ∈ geometry d)
      then <[key := default ∅ (areaKeys !! key)]> areaKeys
      else areaKeys
  end.

(** Second pass. *)
Definition blacklistStep (areaKeys : gmap string (gset string)) (d : Preset)
  : gmap string (gset string) :=
  match firstTag d with
  | None => areaKeys
  | Some (key, value) =>
      if bool_decide (key = EmptyString) then areaKeys
      else if bool_decide (key ∈ ignore) then areaKeys
      else
        match areaKeys !! key with
        | Some values =>
            if bool_decide (line ∈ geometry d) && bool_decide (value ≠ "*")
            then <[key := {[value]} ∪ values]> areaKeys
            else areaKeys
        | None => areaKeys
        end
  end.

Definition areaKeys (collection : list Preset) : gmap string (gset string) :=
  let presets := filter (fun p => classified p = true) collection in
  foldl blacklistStep (foldl whitelistStep ∅ presets) presets.

(** What one preset adds in each pass, as the passes are described: its
    first tag key is whitelisted when the preset supports areas, and its
    first tag value is blacklisted under that key when the preset supports
    lines and the value is a literal. *)
Definition whitelists (d : Preset) (k : string) : Prop :=
  exists v, firstTag d = Some (k, v) /\ (k ≠ EmptyString) /\ (k ∉ ignore)
            /\ (area ∈ geometry d).

Definition blacklists (d : Preset) (k v : string) : Prop :=
  firstTag d = Some (k, v) /\ (k ≠ EmptyString) /\ (k ∉ ignore)
  /\ (line ∈ geometry d) /\ (v ≠ "*").

(** ** State of the closure, and the monad of its operations *)

Inductive Source := Favorite | Recent.

#[global] Instance Source_eq_dec : EqDecision Source.
Proof. solve_decision. Defined.

(** [RibbonItem(preset, geometry, source)].  [geometry] holds the id of a
    fallback preset, hence a string. *)
Record RibbonItem := mkRibbonItem {
  item_preset : Preset;
  item_geometry : string;
  item_source : Source
}.

#[global] Instance RibbonItem_eq_dec : EqDecision RibbonItem.
Proof. solve_decision. Defined.

(** The persisted form [{ pID, geom }]. *)
Record Minified := mkMinified { pID : string; geom : string }.

#[global] Instance Minified_eq_dec : EqDecision Minified.
Proof. solve_decision. Defined.

(** The variables of [presetIndex] that the modelled operations use, with
    the part of [context] they read: the key-value storage (the JSON text
    of a list is kept as the list) and the guided-tour flag. *)
Record State := mkState {
  collection : list Preset;
  _index : Index;
  _favorites : option (list RibbonItem);
  _recents : option (list RibbonItem);
  storage : gmap string (list Minified);
  inIntro : bool
}.

Definition set_favorites (v : option (list RibbonItem)) (st : State) : State :=
  mkState (collection st) (_index st) v (_recents st) (storage st) (inIntro st).

Definition set_recents (v : option (list RibbonItem)) (st : State) : State :=
  mkState (collection st) (_index st) (_favorites st) v (storage st) (inIntro st).

Definition set_storage (k : string) (v : list Minified) (st : State) : State :=
  mkState (collection st) (_index st) (_favorites st) (_recents st)
          (<[k := v]> (storage st)) (inIntro st).

(** State passing with failure: [None] is an uncaught exception. *)
Definition M (A : Type) : Type := State -> option (A * State).

Definition ret {A} (a : A) : M A := fun st => Some (a, st).

Definition bind {A B} (m : M A) (f : A -> M B) : M B :=
  fun st => match m st with
            | Some (a, st') => f a st'
            | None => None
            end.

Definition throw {A} : M A := fun _ => None.
Definition get : M State := fun st => Some (st, st).
Definition modify (f : State -> State) : M unit := fun st => Some (tt, f st).

Notation "'let*' x ':=' m 'in' k" := (bind m (fun x => k))
  (at level 10, x name, m at level 100, k at level 200).
Notation "m ';;' k" := (bind m (fun _ => k))
  (at level 100, k at level 200, right associativity).

(** The favorites an operation leaves behind, for statements about runs. *)
Definition favoritesAfter (m : M unit) (st : State) : option (list RibbonItem) :=
  match m st with
  | Some (_, st') => _favorites st'
  | None => None
  end.

(** The recents an operation leaves behind. *)
Definition recentsAfter (m : M unit) (st : State) : option (list RibbonItem) :=
  match m st with
  | Some (_, st') => _recents st'
  | None => None
  end.

(** ** Catalog life cycle *)

(** Modelled from the spec: [all.index(id)] of collection.js, the
    "index-by-id lookup" of the preset collection: the position of the entry
    with that id, [None] for the source's [-1]. *)
Definition index (collection : list Preset) (id : string) : option nat :=
  fst <$> list_find (fun p => preset_id p = id) collection.

(** Modelled from the spec: [all.item(id)] of collection.js, the
    "id-lookup" of the preset collection. *)
Definition item (collection : list Preset) (id : string) : option Preset :=
  snd <$> list_find (fun p => preset_id p = id) collection.

(** [g[k] = keyPresets] for the object [g = _index[gj]]. *)
Definition setBucket (idx : Index) (gj : Geometry) (k : string)
    (keyPresets : list Preset) : Index :=
  fun g => if decide (g = gj) then <[k := keyPresets]> (idx gj) else idx g.

(** [(g[k] = g[k] || []).push(preset)] with [g = _index[gj]]: the index it
    leaves, and [false] when it throws.  An own bucket gets the preset, and
    a key that [g] does not have gets a new bucket.  A member inherited
    from [Object.prototype] is truthy and has no [push]: the call throws,
    with the buckets as they were.  (The assignment before the call gives
    [g] the inherited method as a property of its own, which no lookup of
    this module tells from the inherited one.) *)
Definition pushBucket (idx : Index) (gj : Geometry) (k : string) (preset : Preset)
  : Index * bool :=
  match getMember (idx gj) k with
  | Some (Own keyPresets) => (setBucket idx gj k (keyPresets ++ [preset]), true)
  | Some (Inherit _) => (idx, false)
  | None => (setBucket idx gj k [preset], true)
  end.

(** A [for] loop over [l] whose body may throw: the index it leaves, and
    [false] when it stopped at a throw. *)
Fixpoint forEach {B : Type} (body : Index -> B -> Index * bool) (idx : Index)
    (l : list B) : Index * bool :=
  match l with
  | [] => (idx, true)
  | x :: l' =>
      let '(idx', completed) := body idx x in
      if completed then forEach body idx' l' else (idx', false)
  end.

(** The two inner loops of the indexing pass, for one preset. *)
Definition indexPreset (idx : Index) (preset : Preset) : Index * bool :=
  forEach (fun idx gj =>
             forEach (fun idx k => pushBucket idx gj k preset) idx (tags preset).*1)
          idx (geometry preset).

(** The indexing pass: [for (i = 0; i < all.collection.length; i++)]. *)
Definition indexAll (idx : Index) (collection : list Preset) : Index * bool :=
  forEach indexPreset idx collection.

(** An entry none of whose tag keys names a member of [Object.prototype]:
    the indexing pass does not throw at it. *)
Definition plainKeys (preset : Preset) : Prop :=
  Forall (fun k => objectPrototype k = None) (tags preset).*1.

(** The [visible] argument of [build]: a constant or a function. *)
Inductive Visibility (Raw : Type) :=
| VConst (b : bool)
| VFun (f : string -> Raw -> bool).
Arguments VConst {Raw} b.
Arguments VFun {Raw} f.

(** An operation on the state that may throw: the state it leaves, and
    [false] when it threw. *)
Definition Try : Type := State -> State * bool.

(** The operation as one step of [M]: a throw is not caught. *)
Definition run (t : Try) : M unit :=
  fun st => let '(st', completed) := t st in
            if completed then Some (tt, st') else None.

(** [t1; t2] *)
Definition andThen (t1 t2 : Try) : Try :=
  fun st => let '(st', completed) := t1 st in
            if completed then t2 st' else (st', false).

(** [try { t } catch (e) { handler }], on the state that [t] left. *)
Definition tryCatch (t : Try) (handler : M unit) : M unit :=
  fun st => let '(st', completed) := t st in
            if completed then Some (tt, st') else handler st'.

Section Catalog.
(** A raw preset of the catalog data, and the constructor
    [presetPreset(id, p, _fields, isVisible, rawPresets)] of preset.js. *)
Variable Raw : Type.
Variable presetPreset : string -> Raw -> bool -> Preset.

(** A raw category, and the constructor [presetCategory(id, c, all)] of
    category.js, for what the modelled code reads of the entry it makes:
    the fields of a preset.  (The categories of iD have no [tags], and a
    [for-in] over [undefined] enumerates nothing, as over no tags.) *)
Variable RawCategory : Type.
Variable presetCategory : string -> RawCategory -> Preset.

(** A catalog: its [presets] and [categories] tables, both in
    [Object.keys] order.  The [fields] and [defaults] tables of a catalog
    never reach [all.collection] or [_index] and are left out. *)
Record Catalog := mkCatalog {
  cat_presets : list (string * Raw);
  cat_categories : list (string * RawCategory)
}.

(** [data.presets], the built-in catalog. *)
Variable data_presets : Catalog.

Definition isVisible (visible : Visibility Raw) (id : string) (p : Raw) : bool :=
  match visible with
  | VConst b => b
  | VFun f => f id p
  end.

(** Body of [Object.keys(d.presets).forEach]. *)
Definition addPreset (visible : Visibility Raw) (collection : list Preset)
    (entry : string * Raw) : list Preset :=
  let '(id, p) := entry in
  let preset := presetPreset id p (isVisible visible id p) in
  match index collection id with
  | Some existing => <[existing := preset]> collection
  | None => collection ++ [preset]
  end.

(** Body of [Object.keys(d.categories).forEach]. *)
Definition addCategory (collection : list Preset) (entry : string * RawCategory)
  : list Preset :=
  let '(id, c) := entry in
  match index collection id with
  | Some existing => <[existing := presetCategory id c]> collection
  | None => collection ++ [presetCategory id c]
  end.

(** Every entry that [build] can make of the tables of [d] satisfies [P]. *)
Definition entriesOf (P : Preset -> Prop) (d : Catalog) : Prop :=
  (forall id p v, (id, p) ∈ cat_presets d -> P (presetPreset id p v))
  /\ (forall id c, (id, c) ∈ cat_categories d -> P (presetCategory id c)).

(** [build(d, visible)] with the state it leaves when the indexing pass
    throws: the catalog is complete by then, the index is not. *)
Definition buildTry (d : Catalog) (visible : Visibility Raw) : Try :=
  fun st =>
    let collection' :=
      foldl addCategory
            (foldl (addPreset visible) (collection st) (cat_presets d))
            (cat_categories d) in
    let '(idx, completed) := indexAll (_index st) collection' in
    (mkState collection' idx (_favorites st) (_recents st) (storage st)
             (inIntro st),
     completed).

Definition build (d : Catalog) (visible : Visibility Raw) : M unit :=
  run (buildTry d visible).

(** The assignments at the head of [init] and of [reset]. *)
Definition clear (st : State) : State :=
  mkState [] emptyIndex None None (storage st) (inIntro st).

(** [init(shouldShow)]; [shouldShow || true] is the function when one is
    given. *)
Definition initTry (shouldShow : option (string -> Raw -> bool)) : Try :=
  fun st => buildTry data_presets (from_option VFun (VConst true) shouldShow)
                     (clear st).

Definition init (shouldShow : option (string -> Raw -> bool)) : M unit :=
  run (initTry shouldShow).

Definition reset : M unit := modify clear.

(** [fromExternal(external, done)], with the outcome of the fetch as an
    argument: [Some externalPresets] when the promise is fulfilled, [None]
    when it is rejected.  The [catch] handler runs [init()] when the fetch
    is rejected and when one of the two calls of [build] throws. *)
Definition fromExternal (fetched : option Catalog) : M unit :=
  reset;;
  match fetched with
  | Some externalPresets =>
      tryCatch (andThen (buildTry data_presets (VConst false))
                        (buildTry externalPresets (VConst true)))
               (init None)
  | None => init None
  end.

End Catalog.

(** ** Favorites and recents *)

(** [item.matches(preset, geometry)] *)
Definition matches (it : RibbonItem) (preset : Preset) (geometry : string) : bool :=
  bool_decide (preset_id (item_preset it) = preset_id preset)
  && bool_decide (item_geometry it = geometry).

(** Whether a list holds an item equal to (preset, geometry), and how many. *)
Definition holds (items : list RibbonItem) (preset : Preset) (geometry : string)
  : bool :=
  existsb (fun it => matches it preset geometry) items.

Definition copies (items : list RibbonItem) (preset : Preset) (geometry : string)
  : nat :=
  length (filter (fun it => matches it preset geometry = true) items).

(** [item.minified()] *)
Definition minified (it : RibbonItem) : Minified :=
  mkMinified (preset_id (item_preset it)) (item_geometry it).

(** [items.indexOf(x)]: position of the first element equal to [x], [-1]
    when there is none. *)
Definition indexOf (items : list RibbonItem) (x : RibbonItem) : Z :=
  match list_find (fun y => y = x) items with
  | Some (i, _) => Z.of_nat i
  | None => -1
  end.

(** [items.splice(start, 1)]: a negative [start] counts from the end, and a
    [start] beyond the end removes nothing. *)
Definition splice1 (items : list RibbonItem) (start : Z) : list RibbonItem :=
  let from :=
    if bool_decide (start < 0) then Z.max (Z.of_nat (length items) + start) 0
    else start in
  delete (Z.to_nat from) items.

(** [items.pop()] *)
Definition pop (items : list RibbonItem) : list RibbonItem := removelast items.

(** The default favorites used when nothing is stored. *)
Definition defaultFavorites : list Minified :=
  [mkMinified "point" "point"; mkMinified "line" "line"; mkMinified "area" "area"].

Section Ribbon.
(** [all.fallback(geometry)] of collection.js and
    [preset.matchGeometry(geometry)] of preset.js. *)
Variable fallback : string -> option Preset.
Variable matchGeometry : Preset -> string -> bool.

(** [all.fallback(geometry).id], a [TypeError] when there is no fallback. *)
Definition fallbackId (geometry : string) : M string :=
  match fallback geometry with
  | Some p => ret (preset_id p)
  | None => throw
  end.

Definition ribbonItemForMinified (collection : list Preset) (d : Minified)
    (source : Source) : option RibbonItem :=
  if bool_decide (pID d ≠ EmptyString) && bool_decide (geom d ≠ EmptyString) then
    match item collection (pID d) with
    | None => None
    | Some preset =>
        let geom := if bool_decide (geom d = "vertex") then "point" else geom d in
        if matchGeometry preset geom
           || (bool_decide (geom = "point") && matchGeometry preset "vertex")
        then Some (mkRibbonItem preset geom source)
        else None
    end
  else None.

(** The change notifications ([dispatch.call]) are not modelled. *)
Definition setFavorites (items : list RibbonItem) : M unit :=
  modify (fun st =>
    set_storage "preset_favorites" (minified <$> items)
                (set_favorites (Some items) st)).

Definition getFavorites : M (list RibbonItem) :=
  fun st =>
    match _favorites st with
    | Some favs => Some (favs, st)
    | None =>
        let stored := default defaultFavorites (storage st !! "preset_favorites") in
        let favs :=
          omap (fun d => ribbonItemForMinified (collection st) d Favorite) stored in
        Some (favs, set_favorites (Some favs) st)
    end.

Definition setRecents (items : list RibbonItem) : M unit :=
  modify (fun st =>
    set_storage "preset_recents" (minified <$> items)
                (set_recents (Some items) st)).

Definition getRecents : M (list RibbonItem) :=
  fun st =>
    match _recents st with
    | Some recents => Some (recents, st)
    | None =>
        let stored := default [] (storage st !! "preset_recents") in
        let recents :=
          omap (fun d => ribbonItemForMinified (collection st) d Recent) stored in
        Some (recents, set_recents (Some recents) st)
    end.

(** [for (var index in favs) if (favs[index].matches(..)) return favs[index]] *)
Definition favoriteMatching (preset : Preset) (geometry : string)
  : M (option RibbonItem) :=
  let* geometry := fallbackId geometry in
  let* favs := getFavorites in
  ret (snd <$> list_find (fun it => matches it preset geometry = true) favs).

Definition recentMatching (preset : Preset) (geometry : string)
  : M (option RibbonItem) :=
  let* geometry := fallbackId geometry in
  let* items := getRecents in
  ret (snd <$> list_find (fun it => matches it preset geometry = true) items).

Definition toggleFavorite (preset : Preset) (geometry : string) : M unit :=
  let* geometry := fallbackId geometry in
  let* favs := getFavorites in
  let* favorite := favoriteMatching preset geometry in
  match favorite with
  | Some favorite => setFavorites (splice1 favs (indexOf favs favorite))
  | None =>
      let favs := if bool_decide (length favs = 10%nat) then pop favs else favs in
      setFavorites (favs ++ [mkRibbonItem preset geometry Favorite])
  end.

Definition addFavorite (preset : Preset) (geometry : string) : M unit :=
  let* geometry := fallbackId geometry in
  let* favs := getFavorites in
  let* favorite := favoriteMatching preset geometry in
  match favorite with
  | Some _ => setFavorites favs
  | None => setFavorites (favs ++ [mkRibbonItem preset geometry Favorite])
  end.

Definition setMostRecent (preset : Preset) (geometry : string) : M unit :=
  let* st := get in
  if inIntro st then ret tt
  else if negb (searchable preset) then ret tt
  else
    let* geometry := fallbackId geometry in
    let* items := getRecents in
    let* found := recentMatching preset geometry in
    let '(items, it) :=
      match found with
      | Some it => (splice1 items (indexOf items it), it)
      | None => (items, mkRibbonItem preset geometry Recent)
      end in
    let items := if bool_decide (length items = 30%nat) then pop items else items in
    setRecents (it :: items).

End Ribbon.

(** ** Vertex query *)

Record Entity := mkEntity {
  entity_id : string;
  entity_type : string;
  entity_tags : Tags
}.

(** The part of the result of [osmNodeGeometriesForTags] that is read. *)
Record NodeGeometries := mkNodeGeometries {
  ng_point : bool;
  ng_vertex : bool
}.

Section Vertex.
(** The graph behind a resolver, [entity.isOnAddressLine(resolver)] and
    [osmNodeGeometriesForTags(tags)] of osm/tags.js. *)
Variable Graph : Type.

(** A resolver: its graph and the values memoized per (entity, slot). *)
Record Resolver := mkResolver {
  graph : Graph;
  transients : gmap (string * string) bool
}.

Variable isOnAddressLine : Entity -> Resolver -> bool.
Variable osmNodeGeometriesForTags : Tags -> NodeGeometries.

(** Modelled from the spec: [resolver.transient(entity, slot, fn)], the
    memoization helper of the resolver, "keyed by feature identity + cache
    slot name": the cached value when there is one, else the value of
    [fn], which is then cached. *)
Definition transient (entity : Entity) (slot : string) (fn : unit -> bool)
    (resolver : Resolver) : bool * Resolver :=
  match transients resolver !! (entity_id entity, slot) with
  | Some v => (v, resolver)
  | None =>
      let v := fn tt in
      (v, mkResolver (graph resolver)
                     (<[(entity_id entity, slot) := v]> (transients resolver)))
  end.

Definition allowsVertex (entity : Entity) (resolver : Resolver)
  : bool * Resolver :=
  if bool_decide (entity_type entity ≠ "node") then (false, resolver)
  else if bool_decide (length (entity_tags entity) = 0%nat) then (true, resolver)
  else
    transient entity "vertexMatch"
      (fun _ =>
         if isOnAddressLine entity resolver then true
         else
           let geometries := osmNodeGeometriesForTags (entity_tags entity) in
           if ng_vertex geometries then true
           else if ng_point geometries then false
           else true)
      resolver.

End Vertex.

(** ** Point and vertex tables *)




(** ** Removing and moving favorites and recents *)

(** [items.splice(start, 0, x)]: a negative [start] counts from the end, and
    a [start] beyond the end inserts at the end. *)
Definition spliceIn (items : list RibbonItem) (start : Z) (x : RibbonItem)
  : list RibbonItem :=
  let len := Z.of_nat (length items) in
  let from :=
    if bool_decide (start < 0) then Z.max (len + start) 0 else Z.min start len in
  take (Z.to_nat from) items ++ x :: drop (Z.to_nat from) items.

(** [all.moveItem(items, fromIndex, toIndex)]; [None] is the source's
    [null].  The inner [splice] runs first and takes the item out, the outer
    one puts it back into the shortened list.  Past the guard [fromIndex] is
    in range, so that the item taken out exists. *)
Definition moveItem (items : list RibbonItem) (fromIndex toIndex : Z)
  : option (list RibbonItem) :=
  let len := Z.of_nat (length items) in
  if bool_decide (fromIndex = toIndex)
     || bool_decide (fromIndex < 0) || bool_decide (toIndex < 0)
     || bool_decide (fromIndex >= len) || bool_decide (toIndex >= len)
  then None
  else
    match items !! Z.to_nat fromIndex with
    | Some x => Some (spliceIn (splice1 items fromIndex) toIndex x)
    | None => None
    end.

(** An object handed to [moveRecent].  [Array.prototype.indexOf] finds it
    by its identity, which the records of the embedding do not have: the
    object is named by the position at which it stands in the list (no
    object stands twice in a list of this module), or is an object that is
    not in the list. *)
Inductive ItemRef := Listed (i : nat) | Unlisted.

(** [items.indexOf(object)] *)
Definition indexOfRef (items : list RibbonItem) (object : ItemRef) : Z :=
  match object with
  | Listed i => if bool_decide (i < length items)%nat then Z.of_nat i else -1
  | Unlisted => -1
  end.

Section RibbonMoves.
Variable fallback : string -> option Preset.
Variable matchGeometry : Preset -> string -> bool.

Definition removeFavorite (preset : Preset) (geometry : string) : M unit :=
  let* geometry := fallbackId fallback geometry in
  let* found := favoriteMatching fallback matchGeometry preset geometry in
  match found with
  | Some it =>
      let* items := getFavorites matchGeometry in
      setFavorites (splice1 items (indexOf items it))
  | None => ret tt
  end.

Definition removeRecent (preset : Preset) (geometry : string) : M unit :=
  let* found := recentMatching fallback matchGeometry preset geometry in
  match found with
  | Some it =>
      let* items := getRecents matchGeometry in
      setRecents (splice1 items (indexOf items it))
  | None => ret tt
  end.

Definition moveFavorite (fromIndex toIndex : Z) : M unit :=
  let* favs := getFavorites matchGeometry in
  match moveItem favs fromIndex toIndex with
  | Some items => setFavorites items
  | None => ret tt
  end.

Definition moveRecent (it beforeItem : ItemRef) : M unit :=
  let* recents := getRecents matchGeometry in
  let fromIndex := indexOfRef recents it in
  let toIndex := indexOfRef recents beforeItem in
  match moveItem recents fromIndex toIndex with
  | Some items => setRecents items
  | None => ret tt
  end.

End RibbonMoves.

(** ** Sample data, for the concrete instances of the statements below *)

Module Sample.

Definition pointPreset : Preset :=
  mkPreset "point" [] [point; vertex] true false false true.
Definition linePreset : Preset :=
  mkPreset "line" [] [line] true false false true.
Definition areaPreset : Preset :=
  mkPreset "area" [("area", "yes")] [area] true false false true.
Definition relationPreset : Preset :=
  mkPreset "relation" [] [relation] true false false true.
Definition addressPreset : Preset :=
  mkPreset "address" [("addr:*", "*")] [point; vertex; area] true false false true.
Definition shop : Preset :=
  mkPreset "shop" [("shop", "*")] [point; area] true false false true.
Definition bakery : Preset :=
  mkPreset "shop/bakery" [("shop", "bakery")] [point; area] true false false true.
Definition bakeryAlt : Preset :=
  mkPreset "shop/bakery_alt" [("shop", "bakery")] [point] true false false true.

Definition cafe : Preset :=
  mkPreset "amenity/cafe" [("amenity", "cafe")] [point; area] true false false true.

Definition presets : list Preset :=
  [pointPreset; linePreset; areaPreset; relationPreset; addressPreset;
   shop; bakery; bakeryAlt; cafe].

Definition idx : Index := (indexAll emptyIndex presets).1.

(** A scoring in the manner of preset.js: 2 for a literal tag that is
    present, 1 for a wildcard tag whose key is present, -1 as soon as a
    tag of the preset is missing. *)
Fixpoint lookupTag (t : Tags) (k : string) : option string :=
  match t with
  | [] => None
  | (k', v) :: t' => if bool_decide (k' = k) then Some v else lookupTag t' k
  end.

Fixpoint scoreFrom (ptags entityTags : Tags) (score : Z) : Z :=
  match ptags with
  | [] => score
  | (k, v) :: rest =>
      match lookupTag entityTags k with
      | Some v' =>
          if bool_decide (v' = v) then scoreFrom rest entityTags (score + 2)
          else if bool_decide (v = "*") then scoreFrom rest entityTags (score + 1)
          else -1
      | None => -1
      end
  end.

Definition matchScore (p : Preset) (entityTags : Tags) : Z :=
  scoreFrom (tags p) entityTags 0.

Definition isFallback (p : Preset) : bool :=
  bool_decide (length (tags p) = 0%nat)
  || (bool_decide (length (tags p) = 1%nat)
      && bool_decide (is_Some (lookupTag (tags p) "area"))).

(** The generic preset of a geometry, vertices sharing the one of points. *)
Definition fallback (geometry : string) : option Preset :=
  item presets (if bool_decide (geometry = "vertex") then "point" else geometry).

(** Raw presets, and a constructor that copies them as preset.js does. *)
Record RawPreset := mkRaw { raw_tags : Tags; raw_geometry : list Geometry }.

Definition presetPreset (id : string) (p : RawPreset) (isVisible : bool) : Preset :=
  mkPreset id (raw_tags p) (raw_geometry p) true false false isVisible.

(** Raw categories, which hold their geometries, and a constructor that
    makes entries without tags of them. *)
Definition RawCategory : Type := list Geometry.
Definition presetCategory (id : string) (c : RawCategory) : Preset :=
  mkPreset id [] c true false false true.

(** A built-in catalog of one preset, an external catalog that adds a
    preset and one that redefines the built-in preset. *)
Definition builtin : Catalog RawPreset RawCategory :=
  mkCatalog RawPreset RawCategory [("shop", mkRaw [("shop", "*")] [point])] [].
Definition externalMore : Catalog RawPreset RawCategory :=
  mkCatalog RawPreset RawCategory
    [("shop/bakery", mkRaw [("shop", "bakery")] [point])] [].
Definition externalOver : Catalog RawPreset RawCategory :=
  mkCatalog RawPreset RawCategory
    [("shop", mkRaw [("amenity", "*")] [point])] [].

(** A built-in catalog with a category, and an external catalog with a
    preset for the tag [constructor=*]. *)
Definition builtinCategory : Catalog RawPreset RawCategory :=
  mkCatalog RawPreset RawCategory
    [("shop", mkRaw [("shop", "*")] [point])] [("category-shop", [point])].
Definition externalConstructor : Catalog RawPreset RawCategory :=
  mkCatalog RawPreset RawCategory
    [("constructor", mkRaw [("constructor", "*")] [point])] [].

(** The state of a fresh [presetIndex], with an empty storage. *)
Definition fresh : State := mkState [] emptyIndex None None ∅ false.

(** [preset.matchGeometry] in the manner of preset.js. *)
Definition matchGeometry (p : Preset) (g : string) : bool :=
  bool_decide (g ∈ geometry_name <$> geometry p).

(** The catalog [presets] loaded, nothing stored, lists not yet read. *)
Definition catalogState : State := mkState presets idx None None ∅ false.

(** The default favorites as [getFavorites] materializes them. *)
Definition defaultItems : list RibbonItem :=
  [mkRibbonItem pointPreset "point" Favorite;
   mkRibbonItem linePreset "line" Favorite;
   mkRibbonItem areaPreset "area" Favorite].

(** Ten favorites, and a state whose favorites they are. *)
Definition tenFavorites : list RibbonItem :=
  defaultItems ++
  [mkRibbonItem relationPreset "relation" Favorite;
   mkRibbonItem addressPreset "point" Favorite;
   mkRibbonItem addressPreset "area" Favorite;
   mkRibbonItem shop "point" Favorite;
   mkRibbonItem shop "area" Favorite;
   mkRibbonItem bakery "point" Favorite;
   mkRibbonItem bakery "area" Favorite].

Definition fullState : State :=
  mkState presets idx (Some tenFavorites) None ∅ false.

(** Eight calls of [addFavorite] on pairs that are not favorites yet. *)
Definition addEight : M unit :=
  addFavorite fallback matchGeometry relationPreset "relation";;
  addFavorite fallback matchGeometry addressPreset "point";;
  addFavorite fallback matchGeometry addressPreset "area";;
  addFavorite fallback matchGeometry shop "point";;
  addFavorite fallback matchGeometry shop "area";;
  addFavorite fallback matchGeometry bakery "point";;
  addFavorite fallback matchGeometry bakery "area";;
  addFavorite fallback matchGeometry cafe "point".

(** Stored favorites that name the same preset as a point and as a
    vertex, which [ribbonItemForMinified] reads as the same geometry. *)
Definition twiceStored : State :=
  mkState presets idx None None
          {[ "preset_favorites" := [mkMinified "shop" "point"; mkMinified "shop" "vertex"] ]}
          false.

(** Three recents. *)
Definition threeRecents : State :=
  mkState presets idx None
          (Some [mkRibbonItem shop "point" Recent;
                 mkRibbonItem bakery "point" Recent;
                 mkRibbonItem cafe "point" Recent])
          ∅ false.

End Sample.

(** ** More sample data *)

Module Cases.

(** A node and a resolver that has memoized nothing. *)
Definition node (t : Tags) : Entity := mkEntity "n1" "node" t.
Definition noCache : Resolver unit := mkResolver unit tt ∅.

(** A classifier that takes [amenity] tags for points. *)
Definition pointOnly (t : Tags) : NodeGeometries := mkNodeGeometries true false.

Definition shopPoint (source : Source) : RibbonItem :=
  mkRibbonItem Sample.shop "point" source.
Definition bakeryPoint (source : Source) : RibbonItem :=
  mkRibbonItem Sample.bakery "point" source.
Definition cafePoint (source : Source) : RibbonItem :=
  mkRibbonItem Sample.cafe "point" source.

Definition abc : list RibbonItem :=
  [shopPoint Recent; bakeryPoint Recent; cafePoint Recent].

(** Two recents with equal fields, followed by a third one. *)
Definition aac : list RibbonItem :=
  [shopPoint Recent; shopPoint Recent; cafePoint Recent].

(** States over the sample catalog: one favorite, one recent, thirty
    recents, and the default favorites in the storage only. *)
Definition oneFavorite : State :=
  mkState Sample.presets Sample.idx (Some [shopPoint Favorite]) None ∅ false.
Definition oneRecent : State :=
  mkState Sample.presets Sample.idx None (Some [shopPoint Recent]) ∅ false.
Definition thirtyRecents : State :=
  mkState Sample.presets Sample.idx None
          (Some (replicate 30 (shopPoint Recent))) ∅ false.
(** 31 recents in the storage only. *)
Definition stored31 : State :=
  mkState Sample.presets Sample.idx None None
          {[ "preset_recents" :=
               minified <$> (shopPoint Recent :: cafePoint Recent
                             :: replicate 28 (shopPoint Recent)
                             ++ [bakeryPoint Recent]) ]}
          false.
Definition twins : State :=
  mkState Sample.presets Sample.idx None (Some aac) ∅ false.
Definition storedDefaults : State :=
  mkState Sample.presets Sample.idx None None
          {[ "preset_favorites" := minified <$> Sample.defaultItems ]} false.
Definition touring : State :=
  mkState Sample.presets Sample.idx None None ∅ true.

End Cases.

(** * Properties *)

(** ** The matcher *)

Section MatcherFacts.
Variable matchScore : Preset -> Tags -> Z.
Variable isFallback : Preset -> bool.
Variable fallback : string -> option Preset.

Local Abbreviation step := (scoreStep matchScore).

(** An equal or smaller score leaves the running winner as it is. *)
Lemma scoreStep_keeps entityTags b m p :
  matchScore p entityTags <= b -> step entityTags (b, m) p = (b, m).
Proof.
  intros Hle. unfold scoreStep. simpl.
  rewrite bool_decide_eq_false_2; [done | lia].
Qed.

(** A strictly greater score replaces it. *)
Lemma scoreStep_replaces entityTags b m p :
  b < matchScore p entityTags ->
  step entityTags (b, m) p = (matchScore p entityTags, Some p).
Proof.
  intros Hlt. unfold scoreStep. simpl.
  rewrite bool_decide_eq_true_2; [done | lia].
Qed.

Lemma scoreFold_keeps entityTags l : forall b m,
  (forall q, q ∈ l -> matchScore q entityTags <= b) ->
  foldl (step entityTags) (b, m) l = (b, m).
Proof.
  induction l as [|q l IH]; intros b m Hall; [done|].
  simpl. rewrite scoreStep_keeps.
  - apply IH. intros r Hr. apply Hall. by right.
  - apply Hall. by left.
Qed.

Lemma scoreFold_below entityTags c l : forall b m,
  b < c ->
  (forall q, q ∈ l -> matchScore q entityTags < c) ->
  (foldl (step entityTags) (b, m) l).1 < c.
Proof.
  induction l as [|q l IH]; intros b m Hb Hall; [done|].
  simpl. unfold scoreStep at 2. simpl.
  assert (Hq : matchScore q entityTags < c) by (apply Hall; by left).
  case_bool_decide; apply IH; try done; intros r Hr; apply Hall; by right.
Qed.

(** The best score never drops below its start, and a winner, once
    there is one, stays defined. *)
Lemma scoreFold_first entityTags l1 p l2 b m :
  b < matchScore p entityTags ->
  (forall q, q ∈ l1 -> matchScore q entityTags < matchScore p entityTags) ->
  (forall q, q ∈ l2 -> matchScore q entityTags <= matchScore p entityTags) ->
  foldl (step entityTags) (b, m) (l1 ++ p :: l2)
  = (matchScore p entityTags, Some p).
Proof.
  intros Hb H1 H2. rewrite foldl_app. simpl.
  pose proof (scoreFold_below entityTags _ l1 b m Hb H1) as Hlt.
  destruct (foldl (step entityTags) (b, m) l1) as [b1 m1]. simpl in Hlt.
  rewrite scoreStep_replaces by done. by apply scoreFold_keeps.
Qed.

(** The outer loop, from any point of its run. *)
Local Abbreviation scanFrom gm entityTags :=
  (foldl (fun acc k =>
            match acc with
            | Returned s => keyStep matchScore gm entityTags s k
            | Thrown => Thrown
            end)).

(** One key: the loop throws at it or goes on, having scored the own
    bucket of the key, if any. *)
Lemma keyStep_thrown gm entityTags s k :
  throwsAt gm k = true -> keyStep matchScore gm entityTags s k = Thrown.
Proof.
  unfold throwsAt, keyStep.
  by destruct (getMember gm k) as [[l|[[|n]|]]|].
Qed.

Lemma keyStep_returned gm entityTags s k :
  throwsAt gm k = false ->
  exists s', keyStep matchScore gm entityTags s k = Returned s'
    /\ (best s', match_ s')
       = foldl (step entityTags) (best s, match_ s) (default [] (gm !! k))
    /\ address s'
       = if String.prefix "addr:" k && bool_decide (is_Some (gm !! "addr:*"))
         then gm !! "addr:*" ≫= head
         else address s.
Proof.
  unfold throwsAt, keyStep, getMember.
  destruct (gm !! k) as [l|] eqn:E; simpl.
  - intros _. eexists. split; [reflexivity|]. simpl.
    by destruct (foldl (step entityTags) (best s, match_ s) l).
  - destruct (objectPrototype k) as [[[|n]|]|]; simpl; try done;
      intros _; eexists; (split; [reflexivity|]); done.
Qed.

Lemma scanFrom_thrown gm entityTags ks : scanFrom gm entityTags Thrown ks = Thrown.
Proof. induction ks as [|k ks IH]; [done|]. simpl. exact IH. Qed.

(** The loop throws as soon as it throws at one key. *)
Lemma scanFrom_unsafe gm entityTags ks : forall s k,
  k ∈ ks -> throwsAt gm k = true ->
  scanFrom gm entityTags (Returned s) ks = Thrown.
Proof.
  induction ks as [|k0 ks IH]; intros s k Hk Hthrow.
  - by apply elem_of_nil in Hk.
  - simpl. destruct (throwsAt gm k0) eqn:E0.
    + rewrite keyStep_thrown by done. apply scanFrom_thrown.
    + destruct (keyStep_returned gm entityTags s k0 E0) as (s' & -> & _).
      apply elem_of_cons in Hk as [->|Hk]; [congruence|]. by apply (IH s' k).
Qed.

(** When it throws at no key the loop scores the concatenated own buckets
    of the keys, and has for its address candidate the head of the
    [addr:*] bucket as soon as a key starts with [addr:]. *)
Lemma scanFrom_safe gm entityTags ks : forall s,
  (forall k, k ∈ ks -> throwsAt gm k = false) ->
  exists s', scanFrom gm entityTags (Returned s) ks = Returned s'
    /\ (best s', match_ s')
       = foldl (step entityTags) (best s, match_ s)
               (concat ((fun k => default [] (gm !! k)) <$> ks))
    /\ address s'
       = if existsb (String.prefix "addr:") ks
            && bool_decide (is_Some (gm !! "addr:*"))
         then gm !! "addr:*" ≫= head
         else address s.
Proof.
  induction ks as [|k ks IH]; intros s Hsafe.
  - exists s. done.
  - destruct (keyStep_returned gm entityTags s k) as (s1 & Hk & Hscore & Haddr).
    { apply Hsafe. by left. }
    destruct (IH s1) as (s' & Hrun & Hscore' & Haddr').
    { intros k' Hk'. apply Hsafe. by right. }
    exists s'. simpl. rewrite Hk. split; [done|]. split.
    + rewrite Hscore', Hscore. by rewrite foldl_app.
    + rewrite Haddr', Haddr.
      destruct (String.prefix "addr:" k), (existsb (String.prefix "addr:") ks),
        (bool_decide (is_Some (gm !! "addr:*"))); done.
Qed.

Lemma scanFrom_returned gm entityTags ks s s' :
  scanFrom gm entityTags (Returned s) ks = Returned s' ->
  forall k, k ∈ ks -> throwsAt gm k = false.
Proof.
  intros Hrun k Hk. destruct (throwsAt gm k) eqn:E; [|done].
  by rewrite (scanFrom_unsafe gm entityTags ks s k Hk E) in Hrun.
Qed.

Lemma scan_thrown idx entityTags g k :
  k ∈ entityTags.*1 -> throwsAt (idx g) k = true ->
  scanTags matchScore idx entityTags g = Thrown.
Proof. intros Hk Hthrow. by apply (scanFrom_unsafe _ _ _ _ k). Qed.

Lemma scan_safe idx entityTags g :
  (forall k, k ∈ entityTags.*1 -> throwsAt (idx g) k = false) ->
  exists s, scanTags matchScore idx entityTags g = Returned s.
Proof.
  intros Hsafe.
  destruct (scanFrom_safe (idx g) entityTags entityTags.*1
              (mkScan None (-1) None) Hsafe) as (s & Hrun & _).
  by exists s.
Qed.

Lemma scan_scores idx entityTags g s :
  scanTags matchScore idx entityTags g = Returned s ->
  (best s, match_ s)
  = foldl (step entityTags) (-1, None) (candidates idx entityTags g).
Proof.
  intros Hrun. pose proof (scanFrom_returned _ _ _ _ _ Hrun) as Hsafe.
  destruct (scanFrom_safe (idx g) entityTags entityTags.*1
              (mkScan None (-1) None) Hsafe) as (s' & Hrun' & Hscore & _).
  unfold scanTags in Hrun. rewrite Hrun in Hrun'. by injection Hrun' as <-.
Qed.

Lemma scan_address idx entityTags g s :
  scanTags matchScore idx entityTags g = Returned s ->
  address s
  = if existsb (String.prefix "addr:") entityTags.*1
    then idx g !! "addr:*" ≫= head
    else None.
Proof.
  intros Hrun. pose proof (scanFrom_returned _ _ _ _ _ Hrun) as Hsafe.
  destruct (scanFrom_safe (idx g) entityTags entityTags.*1
              (mkScan None (-1) None) Hsafe) as (s' & Hrun' & _ & Haddr).
  unfold scanTags in Hrun. rewrite Hrun in Hrun'. injection Hrun' as <-.
  rewrite Haddr. simpl.
  destruct (existsb _ _); [|done]. simpl.
  case_bool_decide as Hb; [done|].
  destruct (idx g !! "addr:*") eqn:E; [|done].
  exfalso. apply Hb. eauto.
Qed.

(** No candidate wins exactly when none scores above the initial -1. *)
Lemma scoreFold_none entityTags l : forall b m,
  (foldl (step entityTags) (b, m) l).2 = None ->
  m = None /\ forall q, q ∈ l -> matchScore q entityTags <= b.
Proof.
  induction l as [|q l IH]; intros b m H.
  - split; [done|]. intros q Hq. by apply elem_of_nil in Hq.
  - simpl in H. unfold scoreStep at 2 in H. simpl in H.
    case_bool_decide as Hgt.
    + apply IH in H as [? _]. done.
    + apply IH in H as [-> Hall]. split; [done|].
      intros r [->|Hr]%elem_of_cons; [lia | by apply Hall].
Qed.

Lemma scan_no_winner idx entityTags g s :
  scanTags matchScore idx entityTags g = Returned s ->
  match_ s = None
  <-> forall p, p ∈ candidates idx entityTags g -> matchScore p entityTags <= -1.
Proof.
  intros Hrun. pose proof (scan_scores idx entityTags g s Hrun) as Hs.
  split.
  - intros Hn. apply (f_equal snd) in Hs. simpl in Hs. rewrite Hn in Hs.
    symmetry in Hs. by apply scoreFold_none in Hs as [_ ?].
  - intros Hall. rewrite scoreFold_keeps in Hs by done. by inversion Hs.
Qed.

(** Away from the keys that a plain object inherits, [matchTags] never
    returns an empty result: with a fallback preset registered for the
    geometry it returns a preset, and that fallback preset when no indexed
    preset scores above -1 and no address candidate applies. *)
Lemma matchTags_without_inherited_keys idx entityTags g fb :
  (forall k, k ∈ entityTags.*1 -> throwsAt (idx g) k = false) ->
  fallback (geometry_name g) = Some fb ->
  (exists p, matchTags matchScore isFallback fallback idx entityTags g
             = Returned (Some p))
  /\ ((forall p, p ∈ candidates idx entityTags g -> matchScore p entityTags <= -1) ->
      (forall k, k ∈ entityTags.*1 -> String.prefix "addr:" k = true ->
                 idx g !! "addr:*" ≫= head = None) ->
      matchTags matchScore isFallback fallback idx entityTags g
      = Returned (Some fb)).
Proof.
  intros Hsafe Hfb. destruct (scan_safe idx entityTags g Hsafe) as (s & Hrun).
  unfold matchTags. rewrite Hrun. split.
  - destruct (resolve _ _) as [m|]; [|rewrite Hfb]; eauto.
  - intros Hnone Haddr. unfold resolve.
    apply (scan_no_winner idx entityTags g s Hrun) in Hnone. rewrite Hnone.
    rewrite (scan_address idx entityTags g s Hrun).
    destruct (existsb _ _) eqn:Hex; [|by rewrite Hfb].
    apply existsb_exists in Hex as (k & Hk & Hpre).
    rewrite (Haddr k); [by rewrite Hfb | by apply list_elem_of_In | done].
Qed.

(** C4, on the code.  A tag key that names a method with parameters of
    [Object.prototype], such as [constructor], and has no bucket of its own
    is found in the index all the same: [matchTags] throws a [TypeError]
    at [keyMatches[0].matchScore] and returns nothing, whatever the other
    tags, the index and the fallback preset of the geometry are. *)
Theorem matchTags_throws_on_inherited_method idx entityTags g k n :
  k ∈ entityTags.*1 ->
  idx g !! k = None ->
  objectPrototype k = Some (Method (S n)) ->
  matchTags matchScore isFallback fallback idx entityTags g = Thrown.
Proof.
  intros Hk Hown Hproto. unfold matchTags.
  rewrite (scan_thrown idx entityTags g k Hk); [done|].
  unfold throwsAt, getMember. by rewrite Hown, Hproto.
Qed.


(** C6. Ties go to the first candidate encountered: a candidate whose
    score is above -1, strictly above every earlier candidate's and at
    least every later candidate's is the winner of the scoring loop, unless
    the loop throws at a key of the tags; and one step of the loop leaves
    the winner as it is on an equal score and overwrites it only on a
    strictly greater one. *)
Theorem matchTags_first_wins idx entityTags g l1 p l2 :
  candidates idx entityTags g = l1 ++ p :: l2 ->
  -1 < matchScore p entityTags ->
  (forall q, q ∈ l1 -> matchScore q entityTags < matchScore p entityTags) ->
  (forall q, q ∈ l2 -> matchScore q entityTags <= matchScore p entityTags) ->
  bestMatch matchScore idx entityTags g
  = (if existsb (throwsAt (idx g)) entityTags.*1 then Thrown
     else Returned (Some p))
  /\ (forall b m q, matchScore q entityTags = b ->
                    scoreStep matchScore entityTags (b, m) q = (b, m))
  /\ (forall b m q, b < matchScore q entityTags ->
                    scoreStep matchScore entityTags (b, m) q
                    = (matchScore q entityTags, Some q)).
Proof.
  intros Hc Hp H1 H2. split; [|split].
  - unfold bestMatch. destruct (existsb _ _) eqn:Hex.
    + apply existsb_exists in Hex as (k & Hk%list_elem_of_In & Hthrow).
      by rewrite (scan_thrown idx entityTags g k Hk Hthrow).
    + assert (Hsafe : forall k, k ∈ entityTags.*1 -> throwsAt (idx g) k = false).
      { intros k Hk%list_elem_of_In. destruct (throwsAt (idx g) k) eqn:E; [|done].
        assert (Hex' : existsb (throwsAt (idx g)) entityTags.*1 = true)
          by (apply existsb_exists; eauto).
        congruence. }
      destruct (scan_safe idx entityTags g Hsafe) as (s & Hrun).
      pose proof (scan_scores idx entityTags g s Hrun) as Hs.
      rewrite Hc, scoreFold_first in Hs by done.
      rewrite Hrun. by inversion Hs.
  - intros b m q Hq. apply scoreStep_keeps. lia.
  - intros b m q Hq. by apply scoreStep_replaces.
Qed.

End MatcherFacts.

(** A point tagged [constructor=x], on the index of the sample catalog. *)
Lemma matchTags_throws_on_inherited_method_witness :
  matchTags Sample.matchScore Sample.isFallback Sample.fallback
    Sample.idx [("constructor", "x")] point = Thrown.
Proof.
  apply (matchTags_throws_on_inherited_method Sample.matchScore
           Sample.isFallback Sample.fallback Sample.idx
           [("constructor", "x")] point "constructor" 0).
  - apply list_elem_of_singleton. reflexivity.
  - vm_compute. reflexivity.
  - vm_compute. reflexivity.
Defined.


(** Two presets score 2 on [shop=bakery]: the one indexed first wins. *)
Lemma matchTags_first_wins_witness :
  bestMatch Sample.matchScore Sample.idx [("shop", "bakery")] point
  = Returned (Some Sample.bakery).
Proof.
  destruct (matchTags_first_wins Sample.matchScore Sample.idx
              [("shop", "bakery")] point
              [Sample.shop] Sample.bakery [Sample.bakeryAlt]) as [H _].
  - vm_compute. reflexivity.
  - vm_compute. reflexivity.
  - intros q Hq. apply list_elem_of_singleton in Hq. subst q.
    vm_compute. reflexivity.
  - intros q Hq. apply list_elem_of_singleton in Hq. subst q.
    vm_compute. discriminate.
  - exact H.
Defined.

(** ** The area table *)

Section AreaKeysFacts.
Implicit Types (m : gmap string (gset string)) (d : Preset) (k v : string).

Lemma whitelistStep_some m d k :
  is_Some (whitelistStep m d !! k) <-> is_Some (m !! k) \/ whitelists d k.
Proof.
  unfold whitelistStep, whitelists.
  destruct (firstTag d) as [[key value]|]; [|naive_solver].
  repeat case_bool_decide; try naive_solver.
  destruct (decide (key = k)) as [->|Hne].
  - rewrite lookup_insert_eq. split; [|eauto]. intros _. right. eauto.
  - rewrite lookup_insert_ne by done. naive_solver.
Qed.

Lemma whitelistStep_empty m d :
  (forall k vs, m !! k = Some vs -> vs = ∅) ->
  forall k vs, whitelistStep m d !! k = Some vs -> vs = ∅.
Proof.
  intros Hm k vs. unfold whitelistStep.
  destruct (firstTag d) as [[key value]|]; [|apply Hm].
  repeat case_bool_decide; try apply Hm.
  destruct (decide (key = k)) as [->|Hne].
  - rewrite lookup_insert_eq. intros [= <-].
    destruct (m !! k) as [vs0|] eqn:E; [by apply (Hm k)|done].
  - rewrite lookup_insert_ne by done. apply Hm.
Qed.

Lemma whitelist_some l : forall m k,
  is_Some (foldl whitelistStep m l !! k)
  <-> is_Some (m !! k) \/ exists d, d ∈ l /\ whitelists d k.
Proof.
  induction l as [|d l IH]; intros m k; simpl.
  - split; [eauto|]. intros [?|(d & Hd & _)]; [done|]. by apply elem_of_nil in Hd.
  - rewrite IH, whitelistStep_some. split.
    + intros [[?|?]|(d' & ? & ?)]; [by left | right | right].
      * exists d. split; [by left | done].
      * exists d'. split; [by right | done].
    + intros [?|(d' & [->|?]%elem_of_cons & ?)]; eauto.
Qed.

Lemma whitelist_empty l : forall m,
  (forall k vs, m !! k = Some vs -> vs = ∅) ->
  forall k vs, foldl whitelistStep m l !! k = Some vs -> vs = ∅.
Proof.
  induction l as [|d l IH]; intros m Hm; simpl; [done|].
  apply IH. by apply whitelistStep_empty.
Qed.

(** The second pass adds no key, and adds to the set of a key the values
    that the presets blacklist under it. *)
Lemma blacklistStep_lookup m d k vs :
  blacklistStep m d !! k = Some vs ->
  exists vs0, m !! k = Some vs0
              /\ forall v, v ∈ vs <-> v ∈ vs0 \/ blacklists d k v.
Proof.
  unfold blacklistStep, blacklists.
  destruct (firstTag d) as [[key value]|]; [|intros; exists vs; naive_solver].
  case_bool_decide; [intros; exists vs; naive_solver|].
  case_bool_decide; [intros; exists vs; naive_solver|].
  destruct (m !! key) as [values|] eqn:Ekey;
    [|intros; exists vs; split; [done|]; intros v; split; [eauto|];
      intros [?|([= -> ->] & _)]; [done | congruence]].
  destruct (bool_decide (line ∈ geometry d) && bool_decide (value ≠ "*")) eqn:Eb.
  - apply andb_true_iff in Eb as [Hl%bool_decide_eq_true Hv%bool_decide_eq_true].
    destruct (decide (key = k)) as [->|Hne].
    + rewrite lookup_insert_eq. intros [= <-]. exists values. split; [done|].
      intros v. rewrite elem_of_union, elem_of_singleton. naive_solver.
    + rewrite lookup_insert_ne by done. intros Hk. exists vs. naive_solver.
  - intros Hk. exists vs. split; [done|]. intros v. split; [eauto|].
    intros [?|([= -> ->] & _ & _ & Hl & Hv)]; [done|].
    apply andb_false_iff in Eb as [Eb|Eb]; apply bool_decide_eq_false in Eb; done.
Qed.

Lemma blacklistStep_some m d k :
  is_Some (m !! k) -> is_Some (blacklistStep m d !! k).
Proof.
  intros Hk. unfold blacklistStep.
  destruct (firstTag d) as [[key value]|]; [|done].
  do 2 (case_bool_decide; [done|]).
  destruct (m !! key) as [values|] eqn:Ekey; [|done].
  destruct (_ && _); [|done].
  destruct (decide (key = k)) as [->|Hne].
  - rewrite lookup_insert_eq. eauto.
  - by rewrite lookup_insert_ne.
Qed.

Lemma blacklist_lookup l : forall m k vs,
  foldl blacklistStep m l !! k = Some vs ->
  exists vs0, m !! k = Some vs0
              /\ forall v, v ∈ vs <-> v ∈ vs0 \/ exists d, d ∈ l /\ blacklists d k v.
Proof.
  induction l as [|d l IH]; intros m k vs; simpl.
  - intros Hk. exists vs. split; [done|]. intros v. split; [eauto|].
    intros [?|(d & Hd & _)]; [done|]. by apply elem_of_nil in Hd.
  - intros Hk. apply IH in Hk as (vs1 & Hk1 & Hvs).
    apply blacklistStep_lookup in Hk1 as (vs0 & Hk0 & Hvs1).
    exists vs0. split; [done|]. intros v. rewrite Hvs, Hvs1. split.
    + intros [[?|?]|(d' & ? & ?)]; [by left | right | right].
      * exists d. split; [by left | done].
      * exists d'. split; [by right | done].
    + intros [?|(d' & [->|?]%elem_of_cons & ?)]; eauto.
Qed.

Lemma blacklist_some l : forall m k,
  is_Some (m !! k) -> is_Some (foldl blacklistStep m l !! k).
Proof.
  induction l as [|d l IH]; intros m k Hk; simpl; [done|].
  apply IH. by apply blacklistStep_some.
Qed.

Lemma classified_filter (collection : list Preset) d :
  d ∈ filter (fun p => classified p = true) collection
  <-> d ∈ collection /\ suggestion d = false /\ replacement d = false.
Proof.
  rewrite list_elem_of_filter. unfold classified.
  destruct (suggestion d), (replacement d); naive_solver.
Qed.

(** The keys of the table are the keys whitelisted by the first pass. *)
Lemma areaKeys_whitelist (collection : list Preset) k :
  is_Some (areaKeys collection !! k)
  <-> exists d, d ∈ collection /\ suggestion d = false /\ replacement d = false
                /\ whitelists d k.
Proof.
  unfold areaKeys. split.
  - intros [vs Hk]. apply blacklist_lookup in Hk as (vs0 & Hk0 & _).
    apply mk_is_Some, whitelist_some in Hk0 as [Hk0|(d & Hd & Hw)].
    + rewrite lookup_empty in Hk0. by destruct Hk0.
    + apply classified_filter in Hd as (? & ? & ?). eauto 6.
  - intros (d & Hd & Hs & Hr & Hw). apply blacklist_some, whitelist_some.
    right. exists d. split; [|done]. by apply classified_filter.
Qed.

(** C9. The table never has [barrier], [highway], [footway], [railway] or
    [type] as a key, and a value in the set of a key is the value of the
    first tag, with that key, of a preset of the catalog that is neither a
    suggestion nor replaced, supports lines and declares a literal
    value. *)
Theorem areaKeys_ignore_and_blacklist (collection : list Preset) :
  (forall k, k ∈ ignore -> areaKeys collection !! k = None)
  /\ (forall k vs v,
        areaKeys collection !! k = Some vs -> v ∈ vs ->
        exists d, d ∈ collection
                  /\ suggestion d = false /\ replacement d = false
                  /\ firstTag d = Some (k, v)
                  /\ line ∈ geometry d /\ v ≠ "*").
Proof.
  split.
  - intros k Hk. apply eq_None_not_Some.
    intros (d & _ & _ & _ & v & _ & _ & Hn & _)%areaKeys_whitelist. done.
  - intros k vs v Hk Hv. unfold areaKeys in Hk.
    apply blacklist_lookup in Hk as (vs0 & Hk0 & Hvs).
    apply whitelist_empty in Hk0 as ->;
      [|intros k' vs'; by rewrite lookup_empty].
    apply Hvs in Hv as [Hv|(d & Hd & Hf & _ & _ & Hl & Hne)];
      [by apply not_elem_of_empty in Hv|].
    apply classified_filter in Hd as (? & ? & ?). eauto 8.
Qed.

(** Conversely every such value, under a whitelisted key, is in the
    table. *)
Lemma areaKeys_blacklist_complete (collection : list Preset) d k v vs :
  d ∈ collection -> suggestion d = false -> replacement d = false ->
  blacklists d k v ->
  areaKeys collection !! k = Some vs ->
  v ∈ vs.
Proof.
  intros Hd Hs Hr Hb Hk. unfold areaKeys in Hk.
  apply blacklist_lookup in Hk as (vs0 & _ & Hvs).
  apply Hvs. right. exists d. split; [|done]. by apply classified_filter.
Qed.

End AreaKeysFacts.

(** ** The vertex query *)

(** C10. For an entity that is not a node [allowsVertex] answers [false]
    whatever its tags, without consulting or filling the resolver's cache
    and whatever the address-line test and the geometry classifier say. *)
Theorem allowsVertex_non_node (Graph : Type)
    (isOnAddressLine : Entity -> Resolver Graph -> bool)
    (osmNodeGeometriesForTags : Tags -> NodeGeometries)
    (entity : Entity) (resolver : Resolver Graph) :
  entity_type entity ≠ "node" ->
  allowsVertex Graph isOnAddressLine osmNodeGeometriesForTags entity resolver
  = (false, resolver).
Proof.
  intros Hty. unfold allowsVertex. by rewrite bool_decide_eq_true_2.
Qed.

(** A way with tags, on an address line and with a cached [true]. *)
Lemma allowsVertex_non_node_witness :
  allowsVertex unit (fun _ _ => true) (fun _ => mkNodeGeometries false true)
    (mkEntity "w1" "way" [("highway", "residential")])
    (mkResolver unit tt {[("w1", "vertexMatch") := true]})
  = (false, mkResolver unit tt {[("w1", "vertexMatch") := true]}).
Proof.
  apply (allowsVertex_non_node unit (fun _ _ => true)
           (fun _ => mkNodeGeometries false true)
           (mkEntity "w1" "way" [("highway", "residential")])).
  simpl. discriminate.
Defined.

(** ** The tag index *)

Section IndexFacts.
Implicit Types (idx : Index) (g gj : Geometry) (k : string) (p q : Preset).

(** The push that does not throw, and the loops of such pushes. *)
Local Abbreviation push idx gj k p :=
  (setBucket idx gj k (bucket idx gj k ++ [p])).
Local Abbreviation pushKeys p gj := (foldl (fun idx k => push idx gj k p)).
Local Abbreviation pushPreset :=
  (fun idx p => foldl (fun idx gj => pushKeys p gj idx (tags p).*1) idx (geometry p)).
Local Abbreviation pushAll := (foldl pushPreset).

(** [pushBucket] appends to the bucket of the key, or throws and leaves the
    index as it was; it does not throw at a key that is no member of
    [Object.prototype]. *)
Lemma pushBucket_outcome idx gj k p :
  pushBucket idx gj k p = (push idx gj k p, true)
  \/ pushBucket idx gj k p = (idx, false).
Proof.
  unfold pushBucket, getMember, bucket.
  destruct (idx gj !! k) as [l|]; simpl; [by left|].
  destruct (objectPrototype k); simpl; [by right | by left].
Qed.

Lemma pushBucket_plain idx gj k p :
  objectPrototype k = None -> pushBucket idx gj k p = (push idx gj k p, true).
Proof.
  intros Hk. unfold pushBucket, getMember, bucket.
  destruct (idx gj !! k) as [l|]; simpl; [done|]. by rewrite Hk.
Qed.

Lemma bucket_push idx gj k p g k' :
  bucket (push idx gj k p) g k'
  = if decide (g = gj /\ k' = k) then bucket idx g k' ++ [p] else bucket idx g k'.
Proof.
  unfold bucket, setBucket.
  destruct (decide (g = gj)) as [->|Hg].
  - destruct (decide (k' = k)) as [->|Hk].
    + rewrite lookup_insert_eq, decide_True; done.
    + rewrite lookup_insert_ne, decide_False by naive_solver. done.
  - rewrite decide_False by naive_solver. done.
Qed.

(** A loop whose body does not throw is a fold. *)
Lemma forEach_completes {B : Type} (body : Index -> B -> Index * bool)
    (f : Index -> B -> Index) l : forall idx,
  (forall idx x, x ∈ l -> body idx x = (f idx x, true)) ->
  forEach body idx l = (foldl f idx l, true).
Proof.
  induction l as [|x l IH]; intros idx Hbody; cbn [forEach foldl]; [done|].
  rewrite Hbody by (by left). apply IH. intros idx' y Hy. apply Hbody. by right.
Qed.

(** Thrown or not, a loop keeps what the buckets hold when its body does,
    and adds what its body adds. *)
Lemma forEach_keeps {B : Type} (body : Index -> B -> Index * bool) l :
  (forall idx x g k q, q ∈ bucket idx g k -> q ∈ bucket (body idx x).1 g k) ->
  forall idx g k q, q ∈ bucket idx g k -> q ∈ bucket (forEach body idx l).1 g k.
Proof.
  intros Hbody. induction l as [|x l IH]; intros idx g k q Hq; cbn [forEach]; [done|].
  specialize (Hbody idx x g k q Hq).
  destruct (body idx x) as [idx' [|]]; [by apply IH | done].
Qed.

Lemma forEach_adds {B : Type} (body : Index -> B -> Index * bool)
    (A : B -> Geometry -> string -> Preset -> Prop) l :
  (forall idx x g k q, q ∈ bucket (body idx x).1 g k -> q ∈ bucket idx g k \/ A x g k q) ->
  forall idx g k q,
    q ∈ bucket (forEach body idx l).1 g k ->
    q ∈ bucket idx g k \/ exists x, x ∈ l /\ A x g k q.
Proof.
  intros Hbody. induction l as [|x l IH]; intros idx g k q Hq; cbn [forEach] in Hq;
    [by left|].
  specialize (Hbody idx x g k q).
  destruct (body idx x) as [idx' [|]]; simpl in *.
  - apply IH in Hq as [Hq|(y & Hy & HA)].
    + destruct (Hbody Hq) as [?|HA]; [by left|]. right. exists x. split; [by left | done].
    + right. exists y. split; [by right | done].
  - destruct (Hbody Hq) as [?|HA]; [by left|]. right. exists x. split; [by left | done].
Qed.

Lemma pushBucket_keeps idx gj k p g k' q :
  q ∈ bucket idx g k' -> q ∈ bucket (pushBucket idx gj k p).1 g k'.
Proof.
  intros Hq. destruct (pushBucket_outcome idx gj k p) as [-> | ->]; [|done].
  cbn [fst]. rewrite bucket_push. case_decide; [|done]. apply elem_of_app. by left.
Qed.

Lemma pushBucket_adds idx gj k p g k' q :
  q ∈ bucket (pushBucket idx gj k p).1 g k' ->
  q ∈ bucket idx g k' \/ (q = p /\ g = gj /\ k' = k).
Proof.
  destruct (pushBucket_outcome idx gj k p) as [-> | ->]; [|by left].
  cbn [fst]. rewrite bucket_push. case_decide as Hd; [|by left].
  intros [?|Hq%list_elem_of_singleton]%elem_of_app; [by left|]. right. naive_solver.
Qed.

Lemma indexPreset_keeps idx p g k q :
  q ∈ bucket idx g k -> q ∈ bucket (indexPreset idx p).1 g k.
Proof.
  unfold indexPreset. apply forEach_keeps. clear. intros idx gj g k q.
  apply forEach_keeps. clear. intros idx k g k' q. apply pushBucket_keeps.
Qed.

Lemma indexPreset_adds idx p g k q :
  q ∈ bucket (indexPreset idx p).1 g k ->
  q ∈ bucket idx g k \/ (q = p /\ g ∈ geometry p /\ k ∈ (tags p).*1).
Proof.
  unfold indexPreset. intros Hq.
  apply (forEach_adds _ (fun gj g k q => q = p /\ g = gj /\ k ∈ (tags p).*1))
    in Hq as [?|(gj & Hgj & -> & -> & Hk)]; [by left | by right |].
  clear. intros idx gj g k q Hq.
  apply (forEach_adds _ (fun k0 g k q => q = p /\ g = gj /\ k = k0))
    in Hq as [?|(k0 & Hk0 & -> & -> & ->)]; [by left | by right |].
  clear. intros idx k g k' q. apply pushBucket_adds.
Qed.

(** What the indexing pass leaves in the buckets, thrown or not: what they
    held, and presets of the catalog under geometries and keys of theirs. *)
Lemma indexAll_keeps l idx g k q :
  q ∈ bucket idx g k -> q ∈ bucket (indexAll idx l).1 g k.
Proof.
  unfold indexAll. apply forEach_keeps. clear. intros idx p g k q.
  apply indexPreset_keeps.
Qed.

Lemma indexAll_adds l idx g k q :
  q ∈ bucket (indexAll idx l).1 g k ->
  q ∈ bucket idx g k \/ (q ∈ l /\ g ∈ geometry q /\ k ∈ (tags q).*1).
Proof.
  unfold indexAll. intros Hq.
  apply (forEach_adds _ (fun p g k q => q = p /\ g ∈ geometry p /\ k ∈ (tags p).*1))
    in Hq as [?|(p & Hp & -> & Hg & Hk)]; [by left | by right |].
  clear. intros idx p g k q. apply indexPreset_adds.
Qed.

(** On entries with plain keys the indexing pass does not throw. *)
Lemma indexPreset_plain idx p :
  plainKeys p -> indexPreset idx p = (pushPreset idx p, true).
Proof.
  intros Hp. unfold indexPreset.
  apply (forEach_completes _ (fun idx gj => pushKeys p gj idx (tags p).*1)).
  intros idx' gj _.
  apply (forEach_completes _ (fun idx k => push idx gj k p)).
  intros idx'' k Hk. apply pushBucket_plain.
  unfold plainKeys in Hp. rewrite Forall_forall in Hp. by apply Hp.
Qed.

Lemma indexAll_plain idx l :
  Forall plainKeys l -> indexAll idx l = (pushAll idx l, true).
Proof.
  intros Hl. unfold indexAll. apply (forEach_completes _ pushPreset).
  intros idx' p Hp. apply indexPreset_plain.
  rewrite Forall_forall in Hl. by apply Hl.
Qed.

Lemma elem_of_pushKeys p gj ks : forall idx g k' q,
  q ∈ bucket (pushKeys p gj idx ks) g k'
  <-> q ∈ bucket idx g k' \/ (q = p /\ g = gj /\ k' ∈ ks).
Proof.
  induction ks as [|k ks IH]; intros idx g k' q; cbn [foldl].
  - split; [eauto|]. intros [?|(_ & _ & Hk)]; [done|]. by apply elem_of_nil in Hk.
  - rewrite IH, bucket_push. case_decide as Hd.
    + destruct Hd as [-> ->]. rewrite elem_of_app, list_elem_of_singleton.
      rewrite elem_of_cons. naive_solver.
    + rewrite elem_of_cons. naive_solver.
Qed.

Lemma elem_of_pushPreset p : forall idx g k' q,
  q ∈ bucket (pushPreset idx p) g k'
  <-> q ∈ bucket idx g k' \/ (q = p /\ g ∈ geometry p /\ k' ∈ (tags p).*1).
Proof.
  cbn beta. induction (geometry p) as [|gj gs IH]; intros idx g k' q; cbn [foldl].
  - split; [eauto|]. intros [?|(_ & Hg & _)]; [done|]. by apply elem_of_nil in Hg.
  - rewrite IH, elem_of_pushKeys, elem_of_cons. naive_solver.
Qed.

Lemma elem_of_pushAll l : forall idx g k' q,
  q ∈ bucket (pushAll idx l) g k'
  <-> q ∈ bucket idx g k' \/ (q ∈ l /\ g ∈ geometry q /\ k' ∈ (tags q).*1).
Proof.
  induction l as [|p l IH]; intros idx g k' q; cbn [foldl].
  - split; [eauto|]. intros [?|(Hq & _)]; [done|]. by apply elem_of_nil in Hq.
  - rewrite IH. rewrite (elem_of_pushPreset p idx g k' q), elem_of_cons. naive_solver.
Qed.

(** The buckets in order, for entries that name a geometry and a key once. *)
Lemma bucket_pushKeys p gj ks : forall idx g k',
  NoDup ks ->
  bucket (pushKeys p gj idx ks) g k'
  = bucket idx g k' ++ (if decide (g = gj /\ k' ∈ ks) then [p] else []).
Proof.
  induction ks as [|k ks IH]; intros idx g k' Hnd; cbn [foldl].
  - rewrite decide_False; [by rewrite app_nil_r|].
    intros [_ H]. by apply elem_of_nil in H.
  - apply NoDup_cons in Hnd as [Hk Hnd]. rewrite IH by done.
    rewrite bucket_push.
    destruct (decide (g = gj)) as [->|Hg].
    + destruct (decide (k' = k)) as [->|Hne].
      * rewrite (decide_True (P := gj = gj /\ k = k)) by done.
        rewrite decide_False by naive_solver.
        rewrite decide_True; [by rewrite app_nil_r|]. split; [done | by left].
      * rewrite (decide_False (P := gj = gj /\ k' = k)) by naive_solver.
        destruct (decide (k' ∈ ks)) as [Hin|Hin].
        -- rewrite !decide_True; [done | split; [done | by right] | done].
        -- rewrite !decide_False; [done | | naive_solver].
           intros [_ [?|?]%elem_of_cons]; done.
    + rewrite !decide_False by naive_solver. done.
Qed.

Lemma bucket_pushPreset p : forall idx g k',
  NoDup (geometry p) -> NoDup (tags p).*1 ->
  bucket (pushPreset idx p) g k'
  = bucket idx g k'
    ++ (if decide (g ∈ geometry p /\ k' ∈ (tags p).*1) then [p] else []).
Proof.
  cbn beta. intros idx g k' Hgs Hks. revert idx.
  induction (geometry p) as [|gj gs IH]; intros idx; cbn [foldl].
  - rewrite decide_False; [by rewrite app_nil_r|].
    intros [H _]. by apply elem_of_nil in H.
  - apply NoDup_cons in Hgs as [Hgj Hgs]. rewrite IH by done.
    rewrite bucket_pushKeys by done. rewrite <- app_assoc. f_equal.
    destruct (decide (k' ∈ (tags p).*1)) as [Hk|Hk].
    + destruct (decide (g = gj)) as [->|Hne].
      * rewrite (decide_True (P := gj = gj /\ _)) by done.
        rewrite decide_False by naive_solver.
        rewrite decide_True; [done|]. split; [by left | done].
      * rewrite (decide_False (P := g = gj /\ _)) by naive_solver.
        destruct (decide (g ∈ gs)) as [Hin|Hin].
        -- rewrite !decide_True; [done | split; [by right | done] | done].
        -- rewrite !decide_False; [done | | naive_solver].
           intros [[?|?]%elem_of_cons _]; done.
    + rewrite !decide_False by naive_solver. done.
Qed.

Lemma bucket_pushAll l : forall idx g k',
  Forall (fun p => NoDup (geometry p) /\ NoDup (tags p).*1) l ->
  bucket (pushAll idx l) g k'
  = bucket idx g k' ++ filter (fun p => g ∈ geometry p /\ k' ∈ (tags p).*1) l.
Proof.
  induction l as [|p l IH]; intros idx g k' Hall; cbn [foldl].
  - by rewrite filter_nil, app_nil_r.
  - apply Forall_cons in Hall as [[Hgs Hks] Hall]. rewrite IH by done.
    rewrite (bucket_pushPreset p idx g k') by done. rewrite <- app_assoc. f_equal.
    case_decide.
    + by rewrite filter_cons_True.
    + by rewrite filter_cons_False.
Qed.

(** While no object of the index has a bucket under the name of a member
    of [Object.prototype], a push under such a name throws; the pushes keep
    it so, and the indexing pass throws at the first entry that has a
    geometry and such a key. *)
Local Abbreviation ownPlain idx :=
  (forall g k, is_Some (objectPrototype k) -> idx g !! k = None).

Lemma pushBucket_inherited idx gj k p :
  ownPlain idx -> is_Some (objectPrototype k) ->
  pushBucket idx gj k p = (idx, false).
Proof.
  intros Hidx [m Hk]. unfold pushBucket, getMember.
  rewrite (Hidx gj k) by eauto. by rewrite Hk.
Qed.

Lemma pushBucket_ownPlain idx gj k p :
  ownPlain idx -> ownPlain (pushBucket idx gj k p).1.
Proof.
  intros Hidx. destruct (objectPrototype k) as [m|] eqn:Hk.
  - rewrite pushBucket_inherited by eauto. done.
  - rewrite pushBucket_plain by done. cbn [fst]. intros g k' Hk'.
    unfold setBucket. destruct (decide (g = gj)) as [->|Hg]; [|by apply Hidx].
    rewrite lookup_insert_ne; [by apply Hidx|].
    intros ->. rewrite Hk in Hk'. by destruct Hk'.
Qed.

Lemma forEach_invariant {B : Type} (body : Index -> B -> Index * bool)
    (I : Index -> Prop) l :
  (forall idx x, I idx -> I (body idx x).1) ->
  forall idx, I idx -> I (forEach body idx l).1.
Proof.
  intros Hbody. induction l as [|x l IH]; intros idx Hidx; cbn [forEach]; [done|].
  specialize (Hbody idx x Hidx).
  destruct (body idx x) as [idx' [|]]; [by apply IH | done].
Qed.

Lemma forEach_thrown {B : Type} (body : Index -> B -> Index * bool)
    (I : Index -> Prop) l x :
  (forall idx y, I idx -> I (body idx y).1) ->
  x ∈ l ->
  (forall idx, I idx -> (body idx x).2 = false) ->
  forall idx, I idx -> (forEach body idx l).2 = false.
Proof.
  intros Hinv Hx Hthrows.
  induction l as [|y l IH]; intros idx Hidx; cbn [forEach].
  - by apply elem_of_nil in Hx.
  - apply elem_of_cons in Hx as [<-|Hx].
    + specialize (Hthrows idx Hidx). destruct (body idx x) as [idx' completed].
      cbn [snd] in Hthrows. by subst completed.
    + specialize (Hinv idx y Hidx).
      destruct (body idx y) as [idx' [|]]; [by apply IH | done].
Qed.

Lemma pushKeys_ownPlain idx gj p ks :
  ownPlain idx ->
  ownPlain (forEach (fun idx k => pushBucket idx gj k p) idx ks).1.
Proof.
  apply (forEach_invariant _ (fun idx => ownPlain idx)).
  intros idx' k. apply pushBucket_ownPlain.
Qed.

Lemma indexPreset_ownPlain idx p :
  ownPlain idx -> ownPlain (indexPreset idx p).1.
Proof.
  unfold indexPreset. apply (forEach_invariant _ (fun idx => ownPlain idx)).
  intros idx' gj. apply pushKeys_ownPlain.
Qed.

Lemma indexPreset_thrown idx p gj k :
  ownPlain idx -> gj ∈ geometry p -> k ∈ (tags p).*1 ->
  is_Some (objectPrototype k) ->
  (indexPreset idx p).2 = false.
Proof.
  intros Hidx Hgj Hk Hproto. unfold indexPreset.
  apply (forEach_thrown _ (fun idx => ownPlain idx) _ gj); [|done| |done].
  - intros idx' gj'. apply pushKeys_ownPlain.
  - intros idx' Hidx'.
    apply (forEach_thrown _ (fun idx => ownPlain idx) _ k); [|done| |done].
    + intros idx'' k'. apply pushBucket_ownPlain.
    + intros idx'' Hidx''. by rewrite pushBucket_inherited.
Qed.

Lemma indexAll_thrown idx l p gj k :
  ownPlain idx -> p ∈ l -> gj ∈ geometry p -> k ∈ (tags p).*1 ->
  is_Some (objectPrototype k) ->
  (indexAll idx l).2 = false.
Proof.
  intros Hidx Hp Hgj Hk Hproto. unfold indexAll.
  apply (forEach_thrown _ (fun idx => ownPlain idx) _ p); [|done| |done].
  - intros idx' q. apply indexPreset_ownPlain.
  - intros idx' Hidx'. by apply (indexPreset_thrown idx' p gj k).
Qed.

(** The indexing pass on entries with plain keys. *)
Lemma elem_of_indexAll l idx g k q :
  Forall plainKeys l ->
  (indexAll idx l).2 = true
  /\ (q ∈ bucket (indexAll idx l).1 g k
      <-> q ∈ bucket idx g k \/ (q ∈ l /\ g ∈ geometry q /\ k ∈ (tags q).*1)).
Proof.
  intros Hl. rewrite (indexAll_plain idx l Hl). split; [done|]. cbn [fst].
  apply elem_of_pushAll.
Qed.

Lemma bucket_indexAll l idx g k :
  Forall plainKeys l ->
  Forall (fun p => NoDup (geometry p) /\ NoDup (tags p).*1) l ->
  bucket (indexAll idx l).1 g k
  = bucket idx g k ++ filter (fun p => g ∈ geometry p /\ k ∈ (tags p).*1) l.
Proof.
  intros Hl Hnd. rewrite (indexAll_plain idx l Hl). cbn [fst].
  by apply bucket_pushAll.
Qed.

End IndexFacts.

Section CatalogFacts.
Variable Raw : Type.
Variable presetPreset : string -> Raw -> bool -> Preset.
Variable RawCategory : Type.
Variable presetCategory : string -> RawCategory -> Preset.
Variable data_presets : Catalog Raw RawCategory.

Implicit Types (c : list Preset) (d : Catalog Raw RawCategory)
  (visible : Visibility Raw) (st : State).

Local Abbreviation buildTry' := (buildTry Raw presetPreset RawCategory presetCategory).
Local Abbreviation initTry' :=
  (initTry Raw presetPreset RawCategory presetCategory data_presets).
Local Abbreviation entriesOf' := (entriesOf Raw presetPreset RawCategory presetCategory).

(** The catalog after the [forEach] loops of [build]. *)
Local Abbreviation built d visible c :=
  (foldl (addCategory RawCategory presetCategory)
         (foldl (addPreset Raw presetPreset visible) c (cat_presets _ _ d))
         (cat_categories _ _ d)).

(** What [build] leaves, thrown or not. *)
Lemma buildTry_state d visible st :
  buildTry' d visible st
  = (mkState (built d visible (collection st))
             (indexAll (_index st) (built d visible (collection st))).1
             (_favorites st) (_recents st) (storage st) (inIntro st),
     (indexAll (_index st) (built d visible (collection st))).2).
Proof. unfold buildTry. by destruct (indexAll _ _). Qed.

(** The entries of the catalog after [build] have every property of the
    entries before and of the entries made from the tables. *)
Lemma built_Forall (P : Preset -> Prop) d visible c :
  Forall P c -> entriesOf' P d -> Forall P (built d visible c).
Proof.
  intros Hc [Hpresets Hcategories].
  assert (H1 : Forall P (foldl (addPreset Raw presetPreset visible) c (cat_presets _ _ d))).
  { revert c Hc Hpresets. generalize (cat_presets _ _ d). clear.
    intros l. induction l as [|[id p] l IH]; intros c Hc Hl; cbn [foldl]; [done|].
    apply IH.
    - unfold addPreset. destruct (index c id) as [i|].
      + apply Forall_insert; [done|]. apply Hl. by left.
      + apply Forall_app. split; [done|]. apply Forall_singleton, Hl. by left.
    - intros id' p' v Hin. apply Hl. by right. }
  revert H1 Hcategories.
  generalize (foldl (addPreset Raw presetPreset visible) c (cat_presets _ _ d)).
  generalize (cat_categories _ _ d). clear.
  intros l. induction l as [|[id x] l IH]; intros c Hc Hl; cbn [foldl]; [done|].
  apply IH.
  - unfold addCategory. destruct (index c id) as [i|].
    + apply Forall_insert; [done|]. apply Hl. by left.
    + apply Forall_app. split; [done|]. apply Forall_singleton, Hl. by left.
  - intros id' x' Hin. apply Hl. by right.
Qed.

(** [build] returns when the entries of the catalog it indexes have plain
    keys. *)
Lemma build_returns d visible st :
  Forall plainKeys (collection st) -> entriesOf' plainKeys d ->
  (buildTry' d visible st).2 = true.
Proof.
  intros Hc Hd. rewrite buildTry_state. cbn [snd].
  rewrite indexAll_plain; [done|]. by apply built_Forall.
Qed.

(** After [init], which empties [_index] before its single [build], a
    preset is in a bucket exactly when it is in the catalog and declares
    the geometry and the key, when the built-in entries have plain keys. *)
Lemma init_index_exact shouldShow st :
  entriesOf' plainKeys data_presets ->
  exists st',
    init Raw presetPreset RawCategory presetCategory data_presets shouldShow st
    = Some (tt, st')
    /\ forall g k p,
         p ∈ bucket (_index st') g k
         <-> p ∈ collection st' /\ g ∈ geometry p /\ k ∈ (tags p).*1.
Proof.
  intros Hd. unfold init, run, initTry. rewrite buildTry_state.
  set (c := built _ _ _).
  assert (Hc : Forall plainKeys c) by (by apply built_Forall).
  rewrite (indexAll_plain _ c Hc). cbn [fst snd].
  eexists. split; [reflexivity|]. intros g k p. cbn [_index collection clear].
  rewrite elem_of_pushAll. split; [|eauto]. intros [Hp|?]; [|done].
  unfold bucket, emptyIndex in Hp. rewrite lookup_empty in Hp.
  by apply elem_of_nil in Hp.
Qed.

(** [init] throws when an entry of the catalog it builds has a geometry
    and a tag key that names a member of [Object.prototype]. *)
Lemma init_throws_on_inherited_key shouldShow st p gj k :
  p ∈ collection (initTry' shouldShow st).1 ->
  gj ∈ geometry p -> k ∈ (tags p).*1 -> is_Some (objectPrototype k) ->
  init Raw presetPreset RawCategory presetCategory data_presets shouldShow st
  = None.
Proof.
  unfold init, run, initTry. rewrite buildTry_state. cbn [fst collection clear _index].
  intros Hp Hgj Hk Hproto.
  rewrite (indexAll_thrown emptyIndex _ p gj k); done.
Qed.

(** A [build] on top of an index that is not empty keeps what the buckets
    hold, thrown or not. *)
Lemma build_keeps_buckets d visible st g k p :
  p ∈ bucket (_index st) g k ->
  p ∈ bucket (_index (buildTry' d visible st).1) g k.
Proof.
  intros Hp. rewrite buildTry_state. cbn [fst _index]. by apply indexAll_keeps.
Qed.

(** What the buckets hold after [init], thrown or not, is in the catalog
    under that geometry and key. *)
Lemma init_index_sound shouldShow st g k p :
  p ∈ bucket (_index (initTry' shouldShow st).1) g k ->
  p ∈ collection (initTry' shouldShow st).1 /\ g ∈ geometry p /\ k ∈ (tags p).*1.
Proof.
  unfold initTry. rewrite buildTry_state. cbn [fst _index collection clear].
  intros [Hp|?]%indexAll_adds; [|done].
  unfold bucket, emptyIndex in Hp. rewrite lookup_empty in Hp.
  by apply elem_of_nil in Hp.
Qed.

End CatalogFacts.

(** C2, on the code.  [fromExternal] runs [build] twice after one [reset],
    and [build] indexes the whole catalog into the buckets it finds.  With
    a built-in catalog of one preset [shop] and an external catalog that
    adds [shop/bakery], the bucket of [point], [shop] ends with [shop]
    twice.  With an external catalog that redefines [shop] with the tag
    [amenity=*], the bucket of [point], [shop] still holds the replaced
    preset, which is no longer in the catalog, while the preset now known
    as [shop] has no key [shop]. *)
Theorem fromExternal_duplicate_and_stale :
  (exists st',
      fromExternal Sample.RawPreset Sample.presetPreset Sample.RawCategory
        Sample.presetCategory Sample.builtin
        (Some Sample.externalMore) Sample.fresh = Some (tt, st')
      /\ collection st'
         = [mkPreset "shop" [("shop", "*")] [point] true false false false;
            mkPreset "shop/bakery" [("shop", "bakery")] [point] true false false true]
      /\ bucket (_index st') point "shop"
         = [mkPreset "shop" [("shop", "*")] [point] true false false false;
            mkPreset "shop" [("shop", "*")] [point] true false false false;
            mkPreset "shop/bakery" [("shop", "bakery")] [point] true false false true])
  /\ (exists st',
      fromExternal Sample.RawPreset Sample.presetPreset Sample.RawCategory
        Sample.presetCategory Sample.builtin
        (Some Sample.externalOver) Sample.fresh = Some (tt, st')
      /\ collection st'
         = [mkPreset "shop" [("amenity", "*")] [point] true false false true]
      /\ bucket (_index st') point "shop"
         = [mkPreset "shop" [("shop", "*")] [point] true false false false]).
Proof.
  split; eexists; (split; [reflexivity|]); split; vm_compute; reflexivity.
Qed.

(** ** Favorites and recents *)

Section ListFacts.
Implicit Types (items : list RibbonItem) (it : RibbonItem).

(** [indexOf] of the first item that satisfies a predicate is the
    position of that item. *)
Lemma indexOf_find (P : RibbonItem -> Prop) `{!forall x, Decision (P x)} items i it :
  list_find P items = Some (i, it) -> indexOf items it = Z.of_nat i.
Proof.
  intros Hfind. apply list_find_Some in Hfind as (Hi & HP & Hfirst).
  unfold indexOf.
  destruct (list_find (fun y => y = it) items) as [[j y]|] eqn:Ej.
  - apply list_find_Some in Ej as (Hj & -> & Hjfirst).
    f_equal. destruct (Nat.lt_trichotomy i j) as [Hlt|[->|Hgt]]; [|done|].
    + exfalso. by apply (Hjfirst i it).
    + exfalso. by apply (Hfirst j it).
  - apply list_find_None in Ej. rewrite Forall_forall in Ej.
    exfalso. apply (Ej it); [|done]. by apply list_elem_of_lookup_2 in Hi.
Qed.

Lemma splice1_nat items (i : nat) : splice1 items (Z.of_nat i) = delete i items.
Proof.
  unfold splice1. rewrite bool_decide_eq_false_2 by lia. by rewrite Nat2Z.id.
Qed.

Lemma splice1_find (P : RibbonItem -> Prop) `{!forall x, Decision (P x)} items i it :
  list_find P items = Some (i, it) ->
  splice1 items (indexOf items it) = delete i items.
Proof. intros Hfind. by rewrite (indexOf_find P items i it), splice1_nat. Qed.

Lemma pop_length items : length (pop items) = pred (length items).
Proof.
  unfold pop. induction items as [|x [|y l] IH]; simpl in *; [done..|].
  by rewrite IH.
Qed.

Lemma pop_elem_of items it : it ∈ pop items -> it ∈ items.
Proof.
  unfold pop. induction items as [|x [|y l] IH]; simpl; [done| |].
  - intros H. by apply elem_of_nil in H.
  - intros [->|H]%elem_of_cons; [by left|]. right. by apply IH.
Qed.

Lemma delete_length_find (P : RibbonItem -> Prop) `{!forall x, Decision (P x)} items i it :
  list_find P items = Some (i, it) ->
  S (length (delete i items)) = length items.
Proof.
  intros (Hi & _)%list_find_Some.
  apply lookup_lt_Some in Hi. rewrite length_delete by eauto using lookup_lt_is_Some_2.
  lia.
Qed.

(** [holds] and [copies] against the search of the matching loops. *)
Lemma find_none_holds items preset geometry :
  list_find (fun it => matches it preset geometry = true) items = None
  <-> holds items preset geometry = false.
Proof.
  rewrite list_find_None. unfold holds.
  induction items as [|x l IH]; simpl.
  - split; [done | constructor].
  - rewrite Forall_cons, IH. destruct (matches x preset geometry); naive_solver.
Qed.

Lemma find_none_copies items preset geometry :
  list_find (fun it => matches it preset geometry = true) items = None
  <-> copies items preset geometry = 0%nat.
Proof.
  rewrite list_find_None. unfold copies.
  induction items as [|x l IH]; simpl.
  - split; [done | constructor].
  - rewrite Forall_cons, IH.
    destruct (decide (matches x preset geometry = true)) as [Hx|Hx].
    + rewrite filter_cons_True by done. simpl. naive_solver.
    + rewrite filter_cons_False by done. naive_solver.
Qed.

Lemma copies_delete items preset geometry : forall i it,
  items !! i = Some it -> matches it preset geometry = true ->
  S (copies (delete i items) preset geometry) = copies items preset geometry.
Proof.
  unfold copies. induction items as [|x l IH]; intros i it Hi Hm; [done|].
  destruct i as [|i]; simpl in *.
  - injection Hi as ->. by rewrite filter_cons_True.
  - destruct (decide (matches x preset geometry = true)) as [Hx|Hx].
    + rewrite !filter_cons_True by done. simpl. f_equal. by apply (IH i it).
    + rewrite !filter_cons_False by done. by apply (IH i it).
Qed.

Lemma holds_snoc items it preset geometry :
  matches it preset geometry = true ->
  holds (items ++ [it]) preset geometry = true.
Proof.
  intros Hm. unfold holds. rewrite existsb_app. simpl. rewrite Hm.
  by rewrite orb_true_r.
Qed.

Lemma find_snoc items it preset geometry :
  list_find (fun it => matches it preset geometry = true) items = None ->
  matches it preset geometry = true ->
  list_find (fun it => matches it preset geometry = true) (items ++ [it])
  = Some (length items, it).
Proof.
  intros Hnone Hm. rewrite list_find_app_r by done. cbn [list_find].
  rewrite decide_True by done. simpl. reflexivity.
Qed.

Lemma delete_snoc items it : delete (length items) (items ++ [it]) = items.
Proof.
  induction items as [|x l IH]; simpl; [done|]. by rewrite IH.
Qed.

Lemma find_none_pop items preset geometry :
  list_find (fun it => matches it preset geometry = true) items = None ->
  list_find (fun it => matches it preset geometry = true) (pop items) = None.
Proof.
  rewrite !list_find_None, !Forall_forall. intros H x Hx.
  apply H. by apply pop_elem_of.
Qed.

Lemma matches_new preset geometry source :
  matches (mkRibbonItem preset geometry source) preset geometry = true.
Proof. unfold matches. simpl. by rewrite !bool_decide_eq_true_2. Qed.

End ListFacts.

Section RibbonFacts.
Variable fallback : string -> option Preset.
Variable matchGeometry : Preset -> string -> bool.

Implicit Types (st : State) (items favs : list RibbonItem) (preset : Preset)
  (geometry : string).

Local Abbreviation getFavorites' := (getFavorites matchGeometry).
Local Abbreviation getRecents' := (getRecents matchGeometry).

(** Reading a list materializes it and changes nothing else. *)
Lemma getFavorites_inv st favs st1 :
  getFavorites' st = Some (favs, st1) ->
  _favorites st1 = Some favs /\ _recents st1 = _recents st
  /\ inIntro st1 = inIntro st /\ collection st1 = collection st.
Proof.
  unfold getFavorites. destruct (_favorites st) as [l|] eqn:E.
  - intros [= <- <-]. done.
  - intros [= <- <-]. done.
Qed.

Lemma getFavorites_loaded st favs :
  _favorites st = Some favs -> getFavorites' st = Some (favs, st).
Proof. intros E. unfold getFavorites. by rewrite E. Qed.

Lemma getRecents_inv st items st1 :
  getRecents' st = Some (items, st1) ->
  _recents st1 = Some items /\ _favorites st1 = _favorites st
  /\ inIntro st1 = inIntro st /\ collection st1 = collection st.
Proof.
  unfold getRecents. destruct (_recents st) as [l|] eqn:E.
  - intros [= <- <-]. done.
  - intros [= <- <-]. done.
Qed.

Lemma getRecents_loaded st items :
  _recents st = Some items -> getRecents' st = Some (items, st).
Proof. intros E. unfold getRecents. by rewrite E. Qed.

(** [favoriteMatching] on a materialized list. *)
Lemma favoriteMatching_run preset geometry fb st favs :
  fallback geometry = Some fb ->
  _favorites st = Some favs ->
  favoriteMatching fallback matchGeometry preset geometry st
  = Some (snd <$> list_find (fun it => matches it preset (preset_id fb) = true) favs, st).
Proof.
  intros Hfb Hfavs. unfold favoriteMatching, bind, fallbackId.
  rewrite Hfb. simpl. by rewrite (getFavorites_loaded st favs).
Qed.

Lemma recentMatching_run preset geometry fb st items :
  fallback geometry = Some fb ->
  _recents st = Some items ->
  recentMatching fallback matchGeometry preset geometry st
  = Some (snd <$> list_find (fun it => matches it preset (preset_id fb) = true) items, st).
Proof.
  intros Hfb Hitems. unfold recentMatching, bind, fallbackId.
  rewrite Hfb. simpl. by rewrite (getRecents_loaded st items).
Qed.

(** [toggleFavorite] when an equal item is in the list: the first one is
    removed. *)
Lemma toggleFavorite_remove preset geometry fb fb' st favs st1 i it :
  fallback geometry = Some fb ->
  fallback (preset_id fb) = Some fb' ->
  getFavorites' st = Some (favs, st1) ->
  list_find (fun it => matches it preset (preset_id fb') = true) favs = Some (i, it) ->
  exists st', toggleFavorite fallback matchGeometry preset geometry st = Some (tt, st')
              /\ _favorites st' = Some (delete i favs)
              /\ _recents st' = _recents st /\ inIntro st' = inIntro st.
Proof.
  intros Hfb Hfb' Hget Hfind.
  destruct (getFavorites_inv _ _ _ Hget) as (Hf1 & Hr1 & Hi1 & _).
  unfold toggleFavorite, bind, fallbackId. rewrite Hfb. simpl. rewrite Hget.
  rewrite (favoriteMatching_run preset _ fb' st1 favs Hfb' Hf1), Hfind. simpl.
  rewrite (splice1_find _ favs i it Hfind).
  eexists. split; [reflexivity|]. simpl. eauto.
Qed.

(** [toggleFavorite] when no equal item is in the list: the item is
    appended, after the last item is dropped from a list of 10. *)
Lemma toggleFavorite_append preset geometry fb fb' st favs st1 :
  fallback geometry = Some fb ->
  fallback (preset_id fb) = Some fb' ->
  getFavorites' st = Some (favs, st1) ->
  list_find (fun it => matches it preset (preset_id fb') = true) favs = None ->
  exists st', toggleFavorite fallback matchGeometry preset geometry st = Some (tt, st')
              /\ _favorites st'
                 = Some ((if bool_decide (length favs = 10%nat) then pop favs else favs)
                         ++ [mkRibbonItem preset (preset_id fb) Favorite])
              /\ _recents st' = _recents st /\ inIntro st' = inIntro st.
Proof.
  intros Hfb Hfb' Hget Hfind.
  destruct (getFavorites_inv _ _ _ Hget) as (Hf1 & Hr1 & Hi1 & _).
  unfold toggleFavorite, bind, fallbackId. rewrite Hfb. simpl. rewrite Hget.
  rewrite (favoriteMatching_run preset _ fb' st1 favs Hfb' Hf1), Hfind. simpl.
  eexists. split; [reflexivity|]. simpl. eauto.
Qed.

(** [addFavorite]: nothing changes in the list when an equal item is in
    it, else the item is appended, whatever the length. *)
Lemma addFavorite_present preset geometry fb fb' st favs st1 i it :
  fallback geometry = Some fb ->
  fallback (preset_id fb) = Some fb' ->
  getFavorites' st = Some (favs, st1) ->
  list_find (fun it => matches it preset (preset_id fb') = true) favs = Some (i, it) ->
  exists st', addFavorite fallback matchGeometry preset geometry st = Some (tt, st')
              /\ _favorites st' = Some favs.
Proof.
  intros Hfb Hfb' Hget Hfind.
  destruct (getFavorites_inv _ _ _ Hget) as (Hf1 & Hr1 & Hi1 & _).
  unfold addFavorite, bind, fallbackId. rewrite Hfb. simpl. rewrite Hget.
  rewrite (favoriteMatching_run preset _ fb' st1 favs Hfb' Hf1), Hfind. simpl.
  eexists. split; reflexivity.
Qed.

Lemma addFavorite_absent preset geometry fb fb' st favs st1 :
  fallback geometry = Some fb ->
  fallback (preset_id fb) = Some fb' ->
  getFavorites' st = Some (favs, st1) ->
  list_find (fun it => matches it preset (preset_id fb') = true) favs = None ->
  exists st', addFavorite fallback matchGeometry preset geometry st = Some (tt, st')
              /\ _favorites st'
                 = Some (favs ++ [mkRibbonItem preset (preset_id fb) Favorite]).
Proof.
  intros Hfb Hfb' Hget Hfind.
  destruct (getFavorites_inv _ _ _ Hget) as (Hf1 & Hr1 & Hi1 & _).
  unfold addFavorite, bind, fallbackId. rewrite Hfb. simpl. rewrite Hget.
  rewrite (favoriteMatching_run preset _ fb' st1 favs Hfb' Hf1), Hfind. simpl.
  eexists. split; reflexivity.
Qed.

(** [setMostRecent] outside the guided tour and for a searchable preset. *)
Lemma setMostRecent_present preset geometry fb fb' st items st1 i it :
  inIntro st = false -> searchable preset = true ->
  fallback geometry = Some fb ->
  fallback (preset_id fb) = Some fb' ->
  getRecents' st = Some (items, st1) ->
  list_find (fun it => matches it preset (preset_id fb') = true) items = Some (i, it) ->
  exists st', setMostRecent fallback matchGeometry preset geometry st = Some (tt, st')
              /\ _recents st'
                 = Some (it :: (if bool_decide (length (delete i items) = 30%nat)
                                then pop (delete i items) else delete i items))
              /\ _favorites st' = _favorites st.
Proof.
  intros Hin Hs Hfb Hfb' Hget Hfind.
  destruct (getRecents_inv _ _ _ Hget) as (Hr1 & Hf1 & Hi1 & _).
  unfold setMostRecent, bind, get. rewrite Hin, Hs. simpl.
  unfold fallbackId. rewrite Hfb. simpl. rewrite Hget.
  rewrite (recentMatching_run preset _ fb' st1 items Hfb' Hr1), Hfind. simpl.
  rewrite (splice1_find _ items i it Hfind).
  eexists. split; [reflexivity|]. simpl. eauto.
Qed.

Lemma setMostRecent_absent preset geometry fb fb' st items st1 :
  inIntro st = false -> searchable preset = true ->
  fallback geometry = Some fb ->
  fallback (preset_id fb) = Some fb' ->
  getRecents' st = Some (items, st1) ->
  list_find (fun it => matches it preset (preset_id fb') = true) items = None ->
  exists st', setMostRecent fallback matchGeometry preset geometry st = Some (tt, st')
              /\ _recents st'
                 = Some (mkRibbonItem preset (preset_id fb) Recent
                         :: (if bool_decide (length items = 30%nat)
                             then pop items else items))
              /\ _favorites st' = _favorites st.
Proof.
  intros Hin Hs Hfb Hfb' Hget Hfind.
  destruct (getRecents_inv _ _ _ Hget) as (Hr1 & Hf1 & Hi1 & _).
  unfold setMostRecent, bind, get. rewrite Hin, Hs. simpl.
  unfold fallbackId. rewrite Hfb. simpl. rewrite Hget.
  rewrite (recentMatching_run preset _ fb' st1 items Hfb' Hr1), Hfind. simpl.
  eexists. split; [reflexivity|]. simpl. eauto.
Qed.

Lemma setMostRecent_skipped preset geometry st :
  inIntro st = true \/ searchable preset = false ->
  setMostRecent fallback matchGeometry preset geometry st = Some (tt, st).
Proof.
  intros H. unfold setMostRecent, bind, get.
  destruct (inIntro st); [done|]. destruct H as [?| ->]; done.
Qed.

(** C8, as the code has it.  Outside the guided tour and for a searchable
    preset, [setMostRecent] on (preset, geometry) whose equal item [it] is
    in the recents puts [it] at the front of the list without the first
    occurrence it had.  When the list does not hold exactly 31 items, the
    new list is a permutation of the old one, of the same length and with
    as many equal items.  When it holds 31, the 30 that the removal leaves
    are taken for a full list: the last of them is dropped and 30 remain. *)
Theorem setMostRecent_moves_to_front preset geometry fb fb' st items st1 i it :
  inIntro st = false -> searchable preset = true ->
  fallback geometry = Some fb ->
  fallback (preset_id fb) = Some fb' ->
  getRecents' st = Some (items, st1) ->
  list_find (fun it => matches it preset (preset_id fb') = true) items = Some (i, it) ->
  exists st' items',
    setMostRecent fallback matchGeometry preset geometry st = Some (tt, st')
    /\ _recents st' = Some items'
    /\ (length items ≠ 31%nat ->
        items' = it :: delete i items
        /\ items' ≡ₚ items
        /\ length items' = length items
        /\ copies items' preset (preset_id fb') = copies items preset (preset_id fb'))
    /\ (length items = 31%nat ->
        items' = it :: pop (delete i items)
        /\ length items' = 30%nat).
Proof.
  intros Hin Hs Hfb Hfb' Hget Hfind.
  destruct (setMostRecent_present _ _ _ _ _ _ _ _ _ Hin Hs Hfb Hfb' Hget Hfind)
    as (st' & Hrun & Hrec & _).
  pose proof (delete_length_find _ items i it Hfind) as Hdel.
  assert (Hperm : it :: delete i items ≡ₚ items).
  { symmetry. apply delete_Permutation. by apply list_find_Some in Hfind as (? & _). }
  eexists st', _. split; [done|]. split; [exact Hrec|]. split.
  - intros Hlen. rewrite bool_decide_eq_false_2 by lia.
    split; [done|]. split; [done|]. split; [exact Hdel|].
    unfold copies. by rewrite Hperm.
  - intros Hlen. rewrite bool_decide_eq_true_2 by lia.
    split; [done|]. cbn [length]. rewrite pop_length. lia.
Qed.

(** C7, as the code has it.  Two calls of [toggleFavorite] with the same
    (preset, geometry) restore whether the list holds an equal item,
    provided the list does not hold exactly two equal items; the
    geometry compared is the id of the fallback preset, which is its own
    fallback.  When the list holds no equal item and not exactly 10
    items, the two calls restore the list itself. *)
Theorem toggleFavorite_twice preset geometry fb fb' st favs st1 :
  fallback geometry = Some fb ->
  fallback (preset_id fb) = Some fb' ->
  preset_id fb' = preset_id fb ->
  getFavorites' st = Some (favs, st1) ->
  copies favs preset (preset_id fb) ≠ 2%nat ->
  exists st' st'' favs'',
    toggleFavorite fallback matchGeometry preset geometry st = Some (tt, st')
    /\ toggleFavorite fallback matchGeometry preset geometry st' = Some (tt, st'')
    /\ _favorites st'' = Some favs''
    /\ holds favs'' preset (preset_id fb) = holds favs preset (preset_id fb)
    /\ (holds favs preset (preset_id fb) = false -> length favs ≠ 10%nat ->
        favs'' = favs).
Proof.
  intros Hfb Hfb' Hid Hget Hcopies.
  pose proof (toggleFavorite_remove preset geometry fb fb') as Hremove.
  pose proof (toggleFavorite_append preset geometry fb fb') as Happend.
  rewrite Hid in Hremove, Happend.
  set (g := preset_id fb) in *.
  destruct (list_find (fun it => matches it preset g = true) favs)
    as [[i it]|] eqn:Hfind.
  - (* an equal item is in the list: the first call removes it *)
    destruct (Hremove _ _ _ _ _ Hfb Hfb' Hget Hfind)
      as (st' & Hrun1 & Hfavs1 & _).
    pose proof (getFavorites_loaded _ _ Hfavs1) as Hget1.
    assert (Hholds : holds favs preset g = true).
    { destruct (holds favs preset g) eqn:E; [done|].
      apply find_none_holds in E. congruence. }
    pose proof Hfind as (Hi & Hm & _)%list_find_Some.
    pose proof (copies_delete favs preset g i it Hi Hm) as Hc1.
    destruct (list_find (fun it => matches it preset g = true) (delete i favs))
      as [[j it2]|] eqn:Hfind2.
    + destruct (Hremove _ _ _ _ _ Hfb Hfb' Hget1 Hfind2)
        as (st'' & Hrun2 & Hfavs2 & _).
      exists st', st'', (delete j (delete i favs)).
      split; [done|]. split; [done|]. split; [done|]. split; [|congruence].
      rewrite Hholds.
      pose proof Hfind2 as (Hj & Hm2 & _)%list_find_Some.
      pose proof (copies_delete _ preset g j it2 Hj Hm2) as Hc2.
      destruct (holds (delete j (delete i favs)) preset g) eqn:E; [done|].
      apply find_none_holds, find_none_copies in E. lia.
    + destruct (Happend _ _ _ Hfb Hfb' Hget1 Hfind2)
        as (st'' & Hrun2 & Hfavs2 & _).
      eexists st', st'', _.
      split; [done|]. split; [done|]. split; [exact Hfavs2|]. split; [|congruence].
      rewrite Hholds. apply holds_snoc, matches_new.
  - (* no equal item: the first call appends one, the second removes it *)
    destruct (Happend _ _ _ Hfb Hfb' Hget Hfind)
      as (st' & Hrun1 & Hfavs1 & _).
    set (base := if bool_decide (length favs = 10%nat) then pop favs else favs) in *.
    pose proof (getFavorites_loaded _ _ Hfavs1) as Hget1.
    assert (Hbase : list_find (fun it => matches it preset g = true) base = None).
    { unfold base. case_bool_decide; [by apply find_none_pop | done]. }
    pose proof (find_snoc base (mkRibbonItem preset g Favorite) preset g Hbase
                  (matches_new _ _ _)) as Hfind2.
    destruct (Hremove _ _ _ _ _ Hfb Hfb' Hget1 Hfind2)
      as (st'' & Hrun2 & Hfavs2 & _).
    rewrite delete_snoc in Hfavs2.
    exists st', st'', base.
    split; [done|]. split; [done|]. split; [done|]. split.
    + apply find_none_holds in Hbase, Hfind. congruence.
    + intros _ Hlen. unfold base. by rewrite bool_decide_eq_false_2.
Qed.

(** [addFavorite] never removes or moves an item: the list before the
    call is a prefix of the list after it.
    The list changes only when it holds no equal item, and then by the
    new item appended at its end; with an equal item in it the list stays
    as it is, and with no equal item and fewer than 10 items the new item
    is appended. *)
Theorem addFavorite_appends_never_evicts preset geometry fb fb' st favs st1 :
  fallback geometry = Some fb ->
  fallback (preset_id fb) = Some fb' ->
  getFavorites' st = Some (favs, st1) ->
  exists st' favs',
    addFavorite fallback matchGeometry preset geometry st = Some (tt, st')
    /\ _favorites st' = Some favs'
    /\ favs `prefix_of` favs'
    /\ (favs' = favs
        \/ (holds favs preset (preset_id fb') = false
            /\ favs' = favs ++ [mkRibbonItem preset (preset_id fb) Favorite]))
    /\ (holds favs preset (preset_id fb') = true -> favs' = favs)
    /\ (holds favs preset (preset_id fb') = false -> (length favs < 10)%nat ->
        favs' = favs ++ [mkRibbonItem preset (preset_id fb) Favorite]).
Proof.
  intros Hfb Hfb' Hget.
  destruct (list_find (fun it => matches it preset (preset_id fb') = true) favs)
    as [[i it]|] eqn:Hfind.
  - destruct (addFavorite_present _ _ _ _ _ _ _ _ _ Hfb Hfb' Hget Hfind)
      as (st' & Hrun & Hfavs).
    assert (Hholds : holds favs preset (preset_id fb') = true).
    { destruct (holds favs preset (preset_id fb')) eqn:E; [done|].
      apply find_none_holds in E. congruence. }
    exists st', favs. split; [done|]. split; [done|]. split; [done|].
    split; [by left|]. split; [done|]. congruence.
  - destruct (addFavorite_absent _ _ _ _ _ _ _ Hfb Hfb' Hget Hfind)
      as (st' & Hrun & Hfavs).
    apply find_none_holds in Hfind.
    eexists st', _. split; [done|]. split; [exact Hfavs|].
    split; [by apply prefix_app_r|]. split; [by right|]. split; [congruence|done].
Qed.

(** The bound that [toggleFavorite] keeps: from at most 10 favorites to at
    most 10 favorites. *)
Lemma toggleFavorite_bounded preset geometry fb fb' st favs st1 :
  fallback geometry = Some fb ->
  fallback (preset_id fb) = Some fb' ->
  getFavorites' st = Some (favs, st1) ->
  (length favs <= 10)%nat ->
  exists st' favs',
    toggleFavorite fallback matchGeometry preset geometry st = Some (tt, st')
    /\ _favorites st' = Some favs' /\ (length favs' <= 10)%nat.
Proof.
  intros Hfb Hfb' Hget Hlen.
  destruct (list_find (fun it => matches it preset (preset_id fb') = true) favs)
    as [[i it]|] eqn:Hfind.
  - destruct (toggleFavorite_remove _ _ _ _ _ _ _ _ _ Hfb Hfb' Hget Hfind)
      as (st' & Hrun & Hfavs & _).
    pose proof (delete_length_find _ favs i it Hfind).
    exists st', (delete i favs). split; [done|]. split; [done|]. lia.
  - destruct (toggleFavorite_append _ _ _ _ _ _ _ Hfb Hfb' Hget Hfind)
      as (st' & Hrun & Hfavs & _).
    eexists st', _. split; [done|]. split; [exact Hfavs|].
    rewrite length_app. simpl. case_bool_decide.
    + rewrite pop_length. lia.
    + lia.
Qed.

(** The bound that [setMostRecent] keeps: from at most 30 recents to at
    most 30 recents. *)
Lemma setMostRecent_bounded preset geometry fb fb' st items st1 :
  fallback geometry = Some fb ->
  fallback (preset_id fb) = Some fb' ->
  getRecents' st = Some (items, st1) ->
  (length items <= 30)%nat ->
  exists st' items' st2,
    setMostRecent fallback matchGeometry preset geometry st = Some (tt, st')
    /\ getRecents' st' = Some (items', st2) /\ (length items' <= 30)%nat.
Proof.
  intros Hfb Hfb' Hget Hlen.
  destruct (inIntro st) eqn:Hin;
    [exists st, items, st1; split; [apply setMostRecent_skipped; by left | done]|].
  destruct (searchable preset) eqn:Hs;
    [|exists st, items, st1; split; [apply setMostRecent_skipped; by right | done]].
  destruct (list_find (fun it => matches it preset (preset_id fb') = true) items)
    as [[i it]|] eqn:Hfind.
  - destruct (setMostRecent_present _ _ _ _ _ _ _ _ _ Hin Hs Hfb Hfb' Hget Hfind)
      as (st' & Hrun & Hrec & _).
    pose proof (delete_length_find _ items i it Hfind).
    eexists st', _, st'. split; [done|].
    split; [by apply getRecents_loaded|].
    simpl. case_bool_decide; [rewrite pop_length|]; lia.
  - destruct (setMostRecent_absent _ _ _ _ _ _ _ Hin Hs Hfb Hfb' Hget Hfind)
      as (st' & Hrun & Hrec & _).
    eexists st', _, st'. split; [done|].
    split; [by apply getRecents_loaded|].
    simpl. case_bool_decide; [rewrite pop_length|]; lia.
Qed.

End RibbonFacts.

(** ** Concrete runs *)

(** C1, on the code.  From the default favorites, eight calls of
    [addFavorite] on pairs that are not favorites yet leave 11 favorites:
    [addFavorite] has no capacity test.  A [toggleFavorite] of one more new
    pair then finds a length other than 10, evicts nothing and leaves 12. *)
Theorem addFavorite_exceeds_ten :
  length <$> favoritesAfter Sample.addEight Sample.catalogState = Some 11%nat
  /\ length <$> favoritesAfter
                  (Sample.addEight;;
                   toggleFavorite Sample.fallback Sample.matchGeometry
                     Sample.cafe "area")
                  Sample.catalogState
     = Some 12%nat.
Proof. split; vm_compute; reflexivity. Qed.

(** C3, on the code.  With 10 favorites, none of them equal to the new
    pair, [addFavorite] does not leave the list as it is: it appends the
    new item, the list holds 11 and the pair is a favorite.  The capacity
    test of [toggleFavorite] is missing here, as for C1. *)
Lemma addFavorite_full_list_grows :
  length Sample.tenFavorites = 10%nat
  /\ holds Sample.tenFavorites Sample.cafe "point" = false
  /\ favoritesAfter
       (addFavorite Sample.fallback Sample.matchGeometry Sample.cafe "point")
       Sample.fullState
     = Some (Sample.tenFavorites ++ [mkRibbonItem Sample.cafe "point" Favorite])
  /\ holds (Sample.tenFavorites ++ [mkRibbonItem Sample.cafe "point" Favorite])
           Sample.cafe "point" = true.
Proof. repeat split; vm_compute; reflexivity. Qed.

(** A new favorite added to the three default ones. *)
Lemma addFavorite_appends_never_evicts_witness :
  exists st' favs',
    addFavorite Sample.fallback Sample.matchGeometry Sample.cafe "point"
      Sample.catalogState = Some (tt, st')
    /\ _favorites st' = Some favs'
    /\ favs' = Sample.defaultItems ++ [mkRibbonItem Sample.cafe "point" Favorite].
Proof.
  destruct (addFavorite_appends_never_evicts Sample.fallback Sample.matchGeometry
              Sample.cafe "point" Sample.pointPreset Sample.pointPreset
              Sample.catalogState Sample.defaultItems
              (set_favorites (Some Sample.defaultItems) Sample.catalogState)
              eq_refl eq_refl eq_refl)
    as (st' & favs' & Hrun & Hfavs & _ & _ & _ & Happend).
  exists st', favs'. split; [exact Hrun|]. split; [exact Hfavs|].
  apply Happend; [vm_compute; reflexivity | simpl; lia].
Defined.

(** C7 fails as stated: the stored favorites [shop] as a point and [shop]
    as a vertex load as two equal items; no call evicts anything, the first
    [toggleFavorite] removes one of them, the second the other, and the
    pair that was a favorite is none any more. *)
Lemma duplicate_favorite_lost_by_two_toggles :
  let toggle :=
    toggleFavorite Sample.fallback Sample.matchGeometry Sample.shop "point" in
  let twice := [mkRibbonItem Sample.shop "point" Favorite;
                mkRibbonItem Sample.shop "point" Favorite] in
  fst <$> getFavorites Sample.matchGeometry Sample.twiceStored = Some twice
  /\ holds twice Sample.shop "point" = true
  /\ favoritesAfter toggle Sample.twiceStored
     = Some [mkRibbonItem Sample.shop "point" Favorite]
  /\ favoritesAfter (toggle;; toggle) Sample.twiceStored = Some []
  /\ holds [] Sample.shop "point" = false.
Proof. repeat split; vm_compute; reflexivity. Qed.

(** Toggling a new favorite twice on the three default ones. *)
Lemma toggleFavorite_twice_witness :
  exists st' st'',
    toggleFavorite Sample.fallback Sample.matchGeometry Sample.cafe "point"
      Sample.catalogState = Some (tt, st')
    /\ toggleFavorite Sample.fallback Sample.matchGeometry Sample.cafe "point" st'
       = Some (tt, st'')
    /\ _favorites st'' = Some Sample.defaultItems.
Proof.
  destruct (toggleFavorite_twice Sample.fallback Sample.matchGeometry
              Sample.cafe "point" Sample.pointPreset Sample.pointPreset
              Sample.catalogState Sample.defaultItems
              (set_favorites (Some Sample.defaultItems) Sample.catalogState)
              eq_refl eq_refl eq_refl eq_refl)
    as (st' & st'' & favs'' & Hrun1 & Hrun2 & Hfavs & _ & Hsame).
  - vm_compute. lia.
  - exists st', st''. split; [exact Hrun1|]. split; [exact Hrun2|].
    rewrite Hfavs. f_equal. apply Hsame; [vm_compute; reflexivity | simpl; lia].
Defined.

(** C8 fails as stated: the storage holds 31 recents, the second of them
    equal to the pair.  [setMostRecent] moves that one to the front, and
    drops the last of the others: 30 recents are left. *)
Lemma setMostRecent_drops_at_31 :
  fst <$> getRecents Sample.matchGeometry Cases.stored31
  = Some (Cases.shopPoint Recent :: Cases.cafePoint Recent
          :: replicate 28 (Cases.shopPoint Recent) ++ [Cases.bakeryPoint Recent])
  /\ recentsAfter
       (setMostRecent Sample.fallback Sample.matchGeometry Sample.cafe "point")
       Cases.stored31
     = Some (Cases.cafePoint Recent :: replicate 29 (Cases.shopPoint Recent)).
Proof. split; vm_compute; reflexivity. Qed.

(** The last of three recents becomes the first. *)
Lemma setMostRecent_moves_to_front_witness :
  exists st',
    setMostRecent Sample.fallback Sample.matchGeometry Sample.cafe "point"
      Sample.threeRecents = Some (tt, st')
    /\ _recents st'
       = Some [mkRibbonItem Sample.cafe "point" Recent;
               mkRibbonItem Sample.shop "point" Recent;
               mkRibbonItem Sample.bakery "point" Recent].
Proof.
  destruct (setMostRecent_moves_to_front Sample.fallback Sample.matchGeometry
              Sample.cafe "point" Sample.pointPreset Sample.pointPreset
              Sample.threeRecents
              [mkRibbonItem Sample.shop "point" Recent;
               mkRibbonItem Sample.bakery "point" Recent;
               mkRibbonItem Sample.cafe "point" Recent]
              Sample.threeRecents 2%nat (mkRibbonItem Sample.cafe "point" Recent)
              eq_refl eq_refl eq_refl eq_refl eq_refl)
    as (st' & items' & Hrun & Hrec & Hmoved & _).
  - vm_compute. reflexivity.
  - exists st'. split; [exact Hrun|].
    destruct Hmoved as (Hitems & _); [simpl; lia|].
    rewrite Hrec, Hitems. reflexivity.
Defined.

(** * Further properties *)

(** ** The matcher, continued *)

Section MatcherMore.
Variable matchScore : Preset -> Tags -> Z.
Variable isFallback : Preset -> bool.
Variable fallback : string -> option Preset.

(** What the scoring loop ends with: a best score no candidate exceeds, and
    either the start values or a candidate that reaches the best score. *)
Lemma scoreFold_result entityTags l : forall b m b' m',
  foldl (scoreStep matchScore entityTags) (b, m) l = (b', m') ->
  (forall q, q ∈ l -> matchScore q entityTags <= b')
  /\ ((b' = b /\ m' = m)
      \/ (b < b' /\ exists q, q ∈ l /\ m' = Some q /\ matchScore q entityTags = b')).
Proof.
  induction l as [|p l IH]; intros b m b' m' H; simpl in H.
  - injection H as <- <-. split; [|by left].
    intros q Hq. by apply elem_of_nil in Hq.
  - unfold scoreStep at 2 in H. simpl in H. case_bool_decide as Hgt.
    + apply IH in H as (Hmax & Hres). split.
      * intros q [->|Hq]%elem_of_cons; [|by apply Hmax].
        destruct Hres as [[-> _]|(Hlt & _)]; lia.
      * right. destruct Hres as [[-> ->]|(Hlt & q & Hq & -> & Hs)].
        -- split; [lia|]. exists p. split; [by left | done].
        -- split; [lia|]. exists q. split; [by right | done].
    + apply IH in H as (Hmax & Hres). split.
      * intros q [->|Hq]%elem_of_cons; [|by apply Hmax].
        destruct Hres as [[-> _]|(Hlt & _)]; lia.
      * destruct Hres as [?|(Hlt & q & Hq & -> & Hs)]; [by left|].
        right. split; [done|]. exists q. split; [by right | done].
Qed.

(** X1. The winner of the scoring loop is one of the scored presets, its
    score is above -1 and no scored preset has a greater score. *)
Theorem bestMatch_maximal idx entityTags g m :
  bestMatch matchScore idx entityTags g = Returned (Some m) ->
  m ∈ candidates idx entityTags g
  /\ -1 < matchScore m entityTags
  /\ forall q, q ∈ candidates idx entityTags g ->
               matchScore q entityTags <= matchScore m entityTags.
Proof.
  intros Hbest. unfold bestMatch in Hbest.
  destruct (scanTags matchScore idx entityTags g) as [s|] eqn:Hrun; [|done].
  injection Hbest as Hbest.
  pose proof (scan_scores matchScore idx entityTags g s Hrun) as Hs.
  rewrite Hbest in Hs. symmetry in Hs.
  apply scoreFold_result in Hs as (Hmax & [[_ ?]|(Hlt & q & Hq & [= <-] & Hsc)]);
    [done|].
  rewrite Hsc. done.
Qed.

(** X2. A best match that is not a fallback preset is the result, with or
    without an address candidate. *)
Theorem matchTags_specific_wins idx entityTags g m :
  bestMatch matchScore idx entityTags g = Returned (Some m) ->
  isFallback m = false ->
  matchTags matchScore isFallback fallback idx entityTags g = Returned (Some m).
Proof.
  intros Hbest Hfb. unfold matchTags, resolve. unfold bestMatch in Hbest.
  destruct (scanTags matchScore idx entityTags g) as [s|]; [|done].
  injection Hbest as Hbest. rewrite Hbest, Hfb. by destruct (address _).
Qed.

(** X3. Without a key that starts with [addr:] the address rule never
    applies: the result is the best match, or the generic fallback when
    there is none; and [matchTags] throws when the scoring loop does. *)
Theorem matchTags_without_addr_key idx entityTags g :
  (forall k, k ∈ entityTags.*1 -> String.prefix "addr:" k = false) ->
  matchTags matchScore isFallback fallback idx entityTags g
  = match bestMatch matchScore idx entityTags g with
    | Returned (Some m) => Returned (Some m)
    | Returned None => Returned (fallback (geometry_name g))
    | Thrown => Thrown
    end.
Proof.
  intros Hno. unfold matchTags, resolve, bestMatch.
  destruct (scanTags matchScore idx entityTags g) as [s|] eqn:Hrun; [|done].
  rewrite (scan_address matchScore idx entityTags g s Hrun).
  destruct (existsb _ _) eqn:Hex; [|by destruct (match_ s)].
  apply existsb_exists in Hex as (k & Hk%list_elem_of_In & Hpre).
  rewrite (Hno k Hk) in Hpre. done.
Qed.

(** Where a result of [matchTags] comes from. *)
Lemma matchTags_origin idx entityTags g p :
  matchTags matchScore isFallback fallback idx entityTags g = Returned (Some p) ->
  (exists k, p ∈ bucket idx g k) \/ fallback (geometry_name g) = Some p.
Proof.
  unfold matchTags.
  destruct (scanTags matchScore idx entityTags g) as [s|] eqn:Hrun; [|done].
  destruct (resolve _ _) as [m|] eqn:Hres; [|intros [= ?]; by right].
  intros [= ->]. left.
  assert (Hm : match_ s = Some p -> exists k, p ∈ bucket idx g k).
  { intros Hbest.
    pose proof (scan_scores matchScore idx entityTags g s Hrun) as Hs.
    rewrite Hbest in Hs. symmetry in Hs.
    apply scoreFold_result in Hs as (_ & [[_ ?]|(_ & q & Hm & [= <-] & _)]);
      [done|].
    unfold candidates in Hm.
    apply list_elem_of_In, in_concat in Hm as (l & Hl & Hp).
    apply list_elem_of_In, list_elem_of_fmap in Hl as (k & -> & _).
    apply list_elem_of_In in Hp. eauto. }
  assert (Haddr : address s = Some p -> exists k, p ∈ bucket idx g k).
  { intros Hsome.
    pose proof (scan_address matchScore idx entityTags g s Hrun) as Ha.
    rewrite Hsome in Ha. destruct (existsb _ _); [|done].
    exists "addr:*". unfold bucket.
    destruct (idx g !! "addr:*") as [[|x l]|]; simpl in *; try done.
    injection Ha as ->. by left. }
  unfold resolve in Hres.
  destruct (address s) as [a|]; [|by apply Hm].
  destruct (match_ s) as [m|]; [|injection Hres as ->; by apply Haddr].
  destruct (isFallback m); injection Hres as ->; [by apply Haddr | by apply Hm].
Qed.

End MatcherMore.

(** X4. Whatever [matchTags] returns on the index that [init] leaves,
    thrown or not, is a preset of the catalog that declares the requested
    geometry, or the generic fallback of that geometry; and [init] returns,
    with that index, when no tag key of a built-in entry names a member of
    [Object.prototype]. *)
Theorem init_matchTags_sound (Raw : Type)
    (presetPreset : string -> Raw -> bool -> Preset)
    (RawCategory : Type) (presetCategory : string -> RawCategory -> Preset)
    (data_presets : Catalog Raw RawCategory) shouldShow st
    (matchScore : Preset -> Tags -> Z) (isFallback : Preset -> bool)
    (fallback : string -> option Preset) :
  let after :=
    (initTry Raw presetPreset RawCategory presetCategory data_presets
       shouldShow st).1 in
  (forall entityTags g p,
     matchTags matchScore isFallback fallback (_index after) entityTags g
     = Returned (Some p) ->
     (p ∈ collection after /\ g ∈ geometry p)
     \/ fallback (geometry_name g) = Some p)
  /\ (entriesOf Raw presetPreset RawCategory presetCategory plainKeys data_presets ->
      init Raw presetPreset RawCategory presetCategory data_presets shouldShow st
      = Some (tt, after)).
Proof.
  intros after. split.
  - intros entityTags g p Hm.
    apply matchTags_origin in Hm as [(k & Hk)|?]; [left | by right].
    apply init_index_sound in Hk as (? & ? & _). done.
  - intros Hplain. unfold init, run. subst after.
    pose proof (build_returns Raw presetPreset RawCategory presetCategory
                  data_presets (from_option VFun (VConst true) shouldShow)
                  (clear st)) as Hret.
    unfold initTry.
    destruct (buildTry _ _ _ _ _ _ _) as [st' completed]. cbn [fst snd] in *.
    rewrite Hret; [done | by apply Forall_nil | done].
Qed.

(** ** The vertex query, continued *)

Section VertexMore.
Variable Graph : Type.
Variable isOnAddressLine : Entity -> Resolver Graph -> bool.
Variable osmNodeGeometriesForTags : Tags -> NodeGeometries.

(** X5. A node without tags may be a vertex; nothing is asked or cached. *)
Theorem allowsVertex_untagged_node entity resolver :
  entity_type entity = "node" ->
  entity_tags entity = [] ->
  allowsVertex Graph isOnAddressLine osmNodeGeometriesForTags entity resolver
  = (true, resolver).
Proof.
  intros Hty Htags. unfold allowsVertex.
  rewrite bool_decide_eq_false_2 by (intros H; by apply H).
  rewrite Htags. done.
Qed.

(** X6. A tagged node whose answer is not cached yet: vertices are refused
    exactly for a node off address lines that the classifier takes for a
    point and not for a vertex; the answer is cached in the slot
    [vertexMatch] of the entity. *)
Theorem allowsVertex_decides entity resolver :
  entity_type entity = "node" ->
  entity_tags entity ≠ [] ->
  transients Graph resolver !! (entity_id entity, "vertexMatch") = None ->
  let answer :=
    isOnAddressLine entity resolver
    || ng_vertex (osmNodeGeometriesForTags (entity_tags entity))
    || negb (ng_point (osmNodeGeometriesForTags (entity_tags entity))) in
  allowsVertex Graph isOnAddressLine osmNodeGeometriesForTags entity resolver
  = (answer,
     mkResolver Graph (graph Graph resolver)
       (<[(entity_id entity, "vertexMatch") := answer]> (transients Graph resolver))).
Proof.
  intros Hty Htags Hmiss. unfold allowsVertex, transient.
  rewrite bool_decide_eq_false_2 by (intros H; by apply H).
  rewrite bool_decide_eq_false_2 by (by destruct (entity_tags entity)).
  rewrite Hmiss. simpl.
  by destruct (isOnAddressLine entity resolver), (ng_vertex _), (ng_point _).
Qed.

End VertexMore.

(** X7. The answer for a tagged node is memoized: once [allowsVertex] has
    answered, a later call with the resulting resolver gives the same
    answer and changes nothing, whatever the address-line test and the
    classifier say by then. *)
Theorem allowsVertex_memoized (Graph : Type)
    (isOnAddressLine isOnAddressLine' : Entity -> Resolver Graph -> bool)
    (osmNodeGeometriesForTags osmNodeGeometriesForTags' : Tags -> NodeGeometries)
    entity resolver answer resolver' :
  entity_type entity = "node" ->
  entity_tags entity ≠ [] ->
  allowsVertex Graph isOnAddressLine osmNodeGeometriesForTags entity resolver
  = (answer, resolver') ->
  allowsVertex Graph isOnAddressLine' osmNodeGeometriesForTags' entity resolver'
  = (answer, resolver').
Proof.
  intros Hty Htags. unfold allowsVertex, transient.
  rewrite !bool_decide_eq_false_2 by (intros H; by apply H).
  rewrite !bool_decide_eq_false_2 by (by destruct (entity_tags entity)).
  destruct (transients Graph resolver !! (entity_id entity, "vertexMatch"))
    as [v|] eqn:Hc.
  - intros [= <- <-]. by rewrite Hc.
  - intros [= <- <-]. simpl. by rewrite lookup_insert_eq.
Qed.

(** ** The classification tables, continued *)

Section TablesMore.
Implicit Types (m acc : gmap string (gset string)) (d : Preset) (k v : string).


(** What one preset records in the table of a geometry. *)
Local Abbreviation records g d k v :=
  (suggestion d = false /\ replacement d = false /\ searchable d = true
   /\ firstTag d = Some (k, v) /\ (k ≠ EmptyString) /\ (g ∈ geometry d)).






End TablesMore.

(** ** The catalog, continued *)

Section CatalogMore.
Variable Raw : Type.
Variable presetPreset : string -> Raw -> bool -> Preset.
Variable RawCategory : Type.
Variable presetCategory : string -> RawCategory -> Preset.
Variable data_presets : Catalog Raw RawCategory.

(** The constructors give an entry the id they are called with. *)
Hypothesis presetPreset_id : forall id p v, preset_id (presetPreset id p v) = id.
Hypothesis presetCategory_id : forall id x, preset_id (presetCategory id x) = id.

Implicit Types (c : list Preset) (d : Catalog Raw RawCategory) (id : string)
  (visible : Visibility Raw) (e : Preset) (es : list (string * Preset)).

Local Abbreviation buildTry' := (buildTry Raw presetPreset RawCategory presetCategory).
Local Abbreviation entriesOf' := (entriesOf Raw presetPreset RawCategory presetCategory).
Local Abbreviation presets d := (cat_presets Raw RawCategory d).
Local Abbreviation categories d := (cat_categories Raw RawCategory d).

(** What both loops of [build] do with an entry: it replaces the entry of
    that id, or is appended. *)
Local Abbreviation put :=
  (fun c (entry : string * Preset) =>
     match index c entry.1 with
     | Some existing => <[existing := entry.2]> c
     | None => c ++ [entry.2]
     end).

(** The entries that [build] makes of the two tables, in order. *)
Local Abbreviation presetEntry visible :=
  (fun entry : string * Raw =>
     (entry.1, presetPreset entry.1 entry.2 (isVisible Raw visible entry.1 entry.2))).
Local Abbreviation categoryEntry :=
  (fun entry : string * RawCategory => (entry.1, presetCategory entry.1 entry.2)).
Local Abbreviation entries d visible :=
  ((presetEntry visible <$> presets d) ++ (categoryEntry <$> categories d)).

Lemma fold_addPreset visible (l : list (string * Raw)) : forall c,
  foldl (addPreset Raw presetPreset visible) c l
  = foldl put c (presetEntry visible <$> l).
Proof.
  induction l as [|[id p] l IH]; intros c; cbn [foldl fmap list_fmap]; [done|].
  by rewrite IH.
Qed.

Lemma fold_addCategory (l : list (string * RawCategory)) : forall c,
  foldl (addCategory RawCategory presetCategory) c l
  = foldl put c (categoryEntry <$> l).
Proof.
  induction l as [|[id x] l IH]; intros c; cbn [foldl fmap list_fmap]; [done|].
  by rewrite IH.
Qed.

Lemma buildTry_collection d visible st :
  collection (buildTry' d visible st).1
  = foldl put (collection st) (entries d visible).
Proof.
  rewrite buildTry_state. cbn [fst collection].
  by rewrite foldl_app, fold_addCategory, fold_addPreset.
Qed.

Lemma entries_ids d visible :
  (entries d visible).*1 = (presets d).*1 ++ (categories d).*1.
Proof.
  rewrite fmap_app. f_equal.
  - generalize (presets d). intros l. induction l as [|[id p] l IH]; [done|].
    cbn. by f_equal.
  - generalize (categories d). intros l. induction l as [|[id p] l IH]; [done|].
    cbn. by f_equal.
Qed.

Lemma entries_ok d visible :
  Forall (fun entry => preset_id entry.2 = entry.1) (entries d visible).
Proof.
  apply Forall_app. split; apply Forall_fmap, Forall_forall; intros [id x] _; simpl.
  - apply presetPreset_id.
  - apply presetCategory_id.
Qed.

Lemma put_nil id e : put [] (id, e) = [e].
Proof. done. Qed.

Lemma put_cons_eq x c id e :
  preset_id x = id -> put (x :: c) (id, e) = e :: c.
Proof.
  intros Hx. unfold index. simpl. by rewrite decide_True.
Qed.

Lemma put_cons_ne x c id e :
  preset_id x ≠ id -> put (x :: c) (id, e) = x :: put c (id, e).
Proof.
  intros Hx. unfold index. simpl. rewrite decide_False by done.
  by destruct (list_find (fun q => preset_id q = id) c) as [[i y]|].
Qed.

Lemma item_cons x c id' :
  item (x :: c) id' = if decide (preset_id x = id') then Some x else item c id'.
Proof.
  unfold item. simpl. case_decide; [done|].
  by destruct (list_find (fun q => preset_id q = id') c) as [[i y]|].
Qed.

(** [all.item] after one step of [build]. *)
Lemma item_put c id e id' :
  preset_id e = id ->
  item (put c (id, e)) id' = if decide (id' = id) then Some e else item c id'.
Proof.
  intros He. induction c as [|x c IH].
  - rewrite put_nil, item_cons, He.
    destruct (decide (id' = id)) as [->|Hne].
    + by rewrite decide_True.
    + by rewrite decide_False.
  - destruct (decide (preset_id x = id)) as [Hx|Hx].
    + rewrite put_cons_eq by done. rewrite !item_cons, He.
      destruct (decide (id' = id)) as [->|Hne].
      * by rewrite decide_True.
      * rewrite !decide_False by congruence. done.
    + rewrite put_cons_ne by done. rewrite !item_cons, IH.
      destruct (decide (preset_id x = id')) as [Hx'|Hx']; [|done].
      rewrite decide_False by congruence. done.
Qed.

Lemma item_fold_other es : forall c id',
  Forall (fun entry => preset_id entry.2 = entry.1) es ->
  id' ∉ es.*1 -> item (foldl put c es) id' = item c id'.
Proof.
  induction es as [|[id e] es IH]; intros c id' Hok Hnot; cbn [foldl]; [done|].
  apply Forall_cons in Hok as [He Hok].
  cbn in Hnot. apply not_elem_of_cons in Hnot as [Hne Hnot].
  rewrite IH by done. rewrite item_put by done. by rewrite decide_False.
Qed.

(** The last entry of an id is the one that is looked up. *)
Lemma item_fold_last es1 es2 c id e :
  preset_id e = id ->
  Forall (fun entry => preset_id entry.2 = entry.1) es2 ->
  id ∉ es2.*1 ->
  item (foldl put c (es1 ++ (id, e) :: es2)) id = Some e.
Proof.
  intros He Hok Hnot. rewrite foldl_app. cbn [foldl].
  rewrite item_fold_other by done. rewrite item_put by done.
  by rewrite decide_True.
Qed.

(** The ids of the collection after one step of [build]. *)
Lemma ids_put c id e :
  preset_id e = id ->
  preset_id <$> put c (id, e)
  = if decide (id ∈ preset_id <$> c) then preset_id <$> c
    else (preset_id <$> c) ++ [id].
Proof.
  intros He. induction c as [|x c IH].
  - rewrite put_nil. cbn [fmap list_fmap]. rewrite He.
    case_decide as Hin; [by apply elem_of_nil in Hin | done].
  - destruct (decide (preset_id x = id)) as [Hx|Hx].
    + rewrite put_cons_eq by done. cbn [fmap list_fmap].
      rewrite He, Hx.
      rewrite decide_True; [done | by left].
    + rewrite put_cons_ne by done. cbn [fmap list_fmap].
      change (list_fmap Preset string preset_id) with (fmap (M:=list) preset_id).
      rewrite IH.
      destruct (decide (id ∈ preset_id <$> c)) as [Hin|Hin].
      * rewrite decide_True; [done | by right].
      * rewrite decide_False; [done|].
        intros [?|?]%elem_of_cons; [congruence | done].
Qed.

Lemma ids_fold es : forall c,
  Forall (fun entry => preset_id entry.2 = entry.1) es ->
  NoDup (preset_id <$> c) ->
  NoDup (preset_id <$> foldl put c es)
  /\ (preset_id <$> c) `prefix_of` (preset_id <$> foldl put c es)
  /\ forall id, id ∈ preset_id <$> foldl put c es
                <-> id ∈ preset_id <$> c \/ id ∈ es.*1.
Proof.
  induction es as [|[id e] es IH]; intros c Hok Hnd; cbn [foldl fmap list_fmap fst].
  - split; [done|]. split; [done|]. intros id. split; [by left|].
    intros [?|H]; [done|]. by apply elem_of_nil in H.
  - apply Forall_cons in Hok as [He Hok]. cbn in He.
    pose proof (ids_put c id e He) as Hids.
    assert (Hnd1 : NoDup (preset_id <$> put c (id, e))).
    { rewrite Hids. case_decide; [done|].
      apply NoDup_app. split; [done|]. split; [|apply NoDup_singleton].
      intros x Hx ->%list_elem_of_singleton. done. }
    destruct (IH _ Hok Hnd1) as (Hnd' & Hpre & Hmem).
    split; [done|]. split.
    + etrans; [|exact Hpre]. rewrite Hids. case_decide; [done|].
      by apply prefix_app_r.
    + intros id'. rewrite Hmem, Hids, elem_of_cons. case_decide as Hin.
      * split; [intros [?|?]; eauto|]. intros [?|[->|?]]; eauto.
      * rewrite elem_of_app, list_elem_of_singleton. naive_solver.
Qed.

(** Looking up the id of an entry of the [categories] table, and of an
    entry of the [presets] table that no category replaces. *)
Lemma item_build_category d visible c id x :
  NoDup (categories d).*1 -> (id, x) ∈ categories d ->
  item (foldl put c (entries d visible)) id = Some (presetCategory id x).
Proof.
  intros Hnd Hin. apply list_elem_of_split in Hin as (l1 & l2 & Hl).
  rewrite Hl in *. rewrite fmap_app, fmap_cons, app_assoc.
  rewrite fmap_app, fmap_cons in Hnd. cbn in Hnd.
  apply NoDup_app in Hnd as (_ & _ & [Hnot _]%NoDup_cons).
  apply (item_fold_last _ (categoryEntry <$> l2) c id (presetCategory id x)).
  - apply presetCategory_id.
  - apply Forall_fmap, Forall_forall. intros [id' x'] _. apply presetCategory_id.
  - rewrite <- list_fmap_compose. exact Hnot.
Qed.

Lemma item_build_preset d visible c id p :
  NoDup (presets d).*1 -> (id, p) ∈ presets d -> id ∉ (categories d).*1 ->
  item (foldl put c (entries d visible)) id
  = Some (presetPreset id p (isVisible Raw visible id p)).
Proof.
  intros Hnd Hin Hcat. apply list_elem_of_split in Hin as (l1 & l2 & Hl).
  rewrite Hl in *. rewrite fmap_app, fmap_cons, <- app_assoc.
  rewrite fmap_app, fmap_cons in Hnd. cbn in Hnd.
  apply NoDup_app in Hnd as (_ & _ & [Hnot _]%NoDup_cons).
  rewrite <- app_comm_cons.
  apply (item_fold_last _ ((presetEntry visible <$> l2) ++ (categoryEntry <$> categories d))
           c id (presetPreset id p (isVisible Raw visible id p))).
  - apply presetPreset_id.
  - apply Forall_app. split; apply Forall_fmap, Forall_forall; intros [id' x'] _.
    + apply presetPreset_id.
    + apply presetCategory_id.
  - rewrite fmap_app, <- !list_fmap_compose. intros [?|?]%elem_of_app; done.
Qed.

(** X10. [build] keeps the ids of the catalog unique, keeps the entries
    that are in the catalog at their positions, redefined or not, and
    appends the new ones: the ids before are a prefix of the ids after,
    which are the ids before and the ids of the [presets] and [categories]
    tables.  The catalog is as described whether or not the indexing pass
    then throws. *)
Theorem build_keeps_ids d visible st :
  NoDup (preset_id <$> collection st) ->
  let after := (buildTry' d visible st).1 in
  NoDup (preset_id <$> collection after)
  /\ (preset_id <$> collection st) `prefix_of` (preset_id <$> collection after)
  /\ (forall id, id ∈ preset_id <$> collection after
                 <-> id ∈ preset_id <$> collection st
                     \/ id ∈ (presets d).*1 \/ id ∈ (categories d).*1)
  /\ (build Raw presetPreset RawCategory presetCategory d visible st = None
      \/ build Raw presetPreset RawCategory presetCategory d visible st
         = Some (tt, after)).
Proof.
  intros Hnd after. subst after. rewrite buildTry_collection.
  destruct (ids_fold (entries d visible) (collection st) (entries_ok d visible) Hnd)
    as (Hnd' & Hpre & Hmem).
  split; [done|]. split; [done|]. split.
  - intros id. rewrite Hmem, entries_ids, elem_of_app. done.
  - unfold build, run. destruct (buildTry' d visible st) as [st' [|]]; eauto.
Qed.

(** X11. After the loops of [build], thrown or not by the indexing pass
    that follows, looking up the id of an entry of the [categories] table
    gives the category made of that entry; looking up the id of an entry
    of the [presets] table that is no id of a category gives the preset
    made of that entry, with the visibility of this [build]; the ids
    that the tables do not name are looked up as before.  And [build]
    returns when the entries before it and the entries of the tables have
    no tag key that names a member of [Object.prototype]. *)
Theorem build_lookup d visible st :
  NoDup (presets d).*1 -> NoDup (categories d).*1 ->
  let after := (buildTry' d visible st).1 in
  (forall id x, (id, x) ∈ categories d ->
     item (collection after) id = Some (presetCategory id x))
  /\ (forall id p, (id, p) ∈ presets d -> id ∉ (categories d).*1 ->
        item (collection after) id
        = Some (presetPreset id p (isVisible Raw visible id p)))
  /\ (forall id, id ∉ (presets d).*1 -> id ∉ (categories d).*1 ->
        item (collection after) id = item (collection st) id)
  /\ (Forall plainKeys (collection st) -> entriesOf' plainKeys d ->
      build Raw presetPreset RawCategory presetCategory d visible st
      = Some (tt, after)).
Proof.
  intros Hnd1 Hnd2 after. subst after. rewrite buildTry_collection.
  split; [|split; [|split]].
  - intros id x Hin. by apply item_build_category.
  - intros id p Hin Hcat. by apply item_build_preset.
  - intros id Hp Hc. apply item_fold_other; [apply entries_ok|].
    rewrite entries_ids. intros [?|?]%elem_of_app; done.
  - intros Hc Hd. unfold build, run.
    pose proof (build_returns Raw presetPreset RawCategory presetCategory
                  d visible st Hc Hd) as Hret.
    destruct (buildTry' d visible st) as [st' completed]. cbn [fst snd] in *.
    by rewrite Hret.
Qed.

(** When one of the two calls of [build] throws, [fromExternal] ends as
    [init()] does on the state that the throw left. *)
Lemma fromExternal_caught externalPresets st :
  (andThen (buildTry' data_presets (VConst false))
           (buildTry' externalPresets (VConst true)) (clear st)).2 = false ->
  fromExternal Raw presetPreset RawCategory presetCategory data_presets
    (Some externalPresets) st
  = init Raw presetPreset RawCategory presetCategory data_presets None
      (andThen (buildTry' data_presets (VConst false))
               (buildTry' externalPresets (VConst true)) (clear st)).1.
Proof.
  intros Hthrown. unfold fromExternal, reset, modify, bind, tryCatch. cbn beta iota.
  destruct (andThen _ _ (clear st)) as [st' completed]. cbn [fst snd] in *.
  by rewrite Hthrown.
Qed.

(** X12. When no tag key of an entry of the built-in or of the fetched
    catalog names a member of [Object.prototype], the two calls of [build]
    in [fromExternal] return and leave this: a preset that the external
    catalog defines, and no category of it replaces, is the external one
    and visible, and a built-in preset that neither a built-in category
    nor the external catalog redefines is there and hidden. *)
Theorem fromExternal_masks externalPresets st :
  NoDup (presets data_presets).*1 -> NoDup (presets externalPresets).*1 ->
  entriesOf' plainKeys data_presets -> entriesOf' plainKeys externalPresets ->
  exists st',
    fromExternal Raw presetPreset RawCategory presetCategory data_presets
      (Some externalPresets) st
    = Some (tt, st')
    /\ (forall id p, (id, p) ∈ presets externalPresets ->
          id ∉ (categories externalPresets).*1 ->
          item (collection st') id = Some (presetPreset id p true))
    /\ (forall id p, (id, p) ∈ presets data_presets ->
          id ∉ (categories data_presets).*1 ->
          id ∉ (presets externalPresets).*1 ->
          id ∉ (categories externalPresets).*1 ->
          item (collection st') id = Some (presetPreset id p false)).
Proof.
  intros Hnd1 Hnd2 Hplain1 Hplain2.
  pose proof (build_returns Raw presetPreset RawCategory presetCategory
                data_presets (VConst false) (clear st)
                (Forall_nil_2 _) Hplain1) as Hret1.
  pose proof (buildTry_collection data_presets (VConst false) (clear st)) as Hc1.
  assert (Hplain : Forall plainKeys
                     (collection (buildTry' data_presets (VConst false) (clear st)).1)).
  { rewrite buildTry_state. cbn [fst collection]. by apply built_Forall. }
  destruct (buildTry' data_presets (VConst false) (clear st)) as [st1 done1] eqn:E1.
  cbn [fst snd] in *. subst done1.
  pose proof (build_returns Raw presetPreset RawCategory presetCategory
                externalPresets (VConst true) st1 Hplain Hplain2) as Hret2.
  pose proof (buildTry_collection externalPresets (VConst true) st1) as Hc2.
  destruct (buildTry' externalPresets (VConst true) st1) as [st2 done2] eqn:E2.
  cbn [fst snd] in *. subst done2.
  exists st2. split; [|split].
  - unfold fromExternal, reset, modify, bind, tryCatch, andThen. cbn beta iota.
    by rewrite E1, E2.
  - intros id p Hin Hcat. rewrite Hc2.
    by rewrite (item_build_preset externalPresets (VConst true) _ id p).
  - intros id p Hin Hcat Hext1 Hext2. rewrite Hc2.
    rewrite item_fold_other;
      [| apply entries_ok
       | rewrite entries_ids; intros [?|?]%elem_of_app; done].
    rewrite Hc1.
    by rewrite (item_build_preset data_presets (VConst false) _ id p).
Qed.

End CatalogMore.

(** X13. After [init] a bucket lists, in catalog order and once each, the
    entries of the catalog that declare the geometry and the key, when the
    entries made of the built-in tables have distinct geometries and
    distinct tag keys, none of which names a member of
    [Object.prototype]. *)
Theorem init_buckets_in_catalog_order (Raw : Type)
    (presetPreset : string -> Raw -> bool -> Preset)
    (RawCategory : Type) (presetCategory : string -> RawCategory -> Preset)
    (data_presets : Catalog Raw RawCategory) shouldShow st :
  entriesOf Raw presetPreset RawCategory presetCategory plainKeys data_presets ->
  entriesOf Raw presetPreset RawCategory presetCategory
    (fun p => NoDup (geometry p) /\ NoDup (tags p).*1) data_presets ->
  exists st',
    init Raw presetPreset RawCategory presetCategory data_presets shouldShow st
    = Some (tt, st')
    /\ forall g k,
         bucket (_index st') g k
         = filter (fun p => g ∈ geometry p /\ k ∈ (tags p).*1) (collection st').
Proof.
  intros Hplain Hnd. unfold init, run, initTry. rewrite buildTry_state.
  set (c := foldl _ _ _).
  assert (Hc : Forall plainKeys c) by (by apply built_Forall).
  assert (Hc' : Forall (fun p => NoDup (geometry p) /\ NoDup (tags p).*1) c)
    by (by apply built_Forall).
  pose proof (fun g k => bucket_indexAll c emptyIndex g k Hc Hc') as Hbucket.
  destruct (elem_of_indexAll c emptyIndex point EmptyString
              (mkPreset EmptyString [] [] true false false true) Hc) as [Hret _].
  cbn [clear _index collection].
  destruct (indexAll emptyIndex c) as [idx completed]. cbn [fst snd] in *.
  subst completed. eexists. split; [reflexivity|]. intros g k.
  cbn [_index collection]. rewrite Hbucket.
  unfold bucket, emptyIndex. by rewrite lookup_empty.
Qed.

(** ** Favorites and recents, continued *)

Section RibbonMore.
Variable fallback : string -> option Preset.
Variable matchGeometry : Preset -> string -> bool.

Implicit Types (st : State) (items favs : list RibbonItem) (preset : Preset)
  (geometry : string) (it : RibbonItem).

Local Abbreviation getFavorites' := (getFavorites matchGeometry).
Local Abbreviation getRecents' := (getRecents matchGeometry).
Local Abbreviation loadItem c source :=
  (fun d => ribbonItemForMinified matchGeometry c d source).

(** The state that [setFavorites] and [setRecents] leave. *)
Local Abbreviation withFavorites items st :=
  (set_storage "preset_favorites" (minified <$> items)
     (set_favorites (Some items) st)).
Local Abbreviation withRecents items st :=
  (set_storage "preset_recents" (minified <$> items)
     (set_recents (Some items) st)).

Lemma getFavorites_frame st favs st1 :
  getFavorites' st = Some (favs, st1) ->
  _favorites st1 = Some favs /\ storage st1 = storage st
  /\ _recents st1 = _recents st /\ collection st1 = collection st.
Proof.
  unfold getFavorites. destruct (_favorites st) as [l|] eqn:E;
    intros [= <- <-]; done.
Qed.

Lemma getRecents_frame st items st1 :
  getRecents' st = Some (items, st1) ->
  _recents st1 = Some items /\ storage st1 = storage st
  /\ _favorites st1 = _favorites st /\ collection st1 = collection st.
Proof.
  unfold getRecents. destruct (_recents st) as [l|] eqn:E;
    intros [= <- <-]; done.
Qed.

(** The operations as one write of the new list, after the list is read. *)
Lemma toggleFavorite_state preset geometry fb fb' st favs st1 :
  fallback geometry = Some fb ->
  fallback (preset_id fb) = Some fb' ->
  getFavorites' st = Some (favs, st1) ->
  toggleFavorite fallback matchGeometry preset geometry st
  = Some (tt, withFavorites
       (match list_find (fun it => matches it preset (preset_id fb') = true) favs with
        | Some (i, _) => delete i favs
        | None => (if bool_decide (length favs = 10%nat) then pop favs else favs)
                  ++ [mkRibbonItem preset (preset_id fb) Favorite]
        end) st1).
Proof.
  intros Hfb Hfb' Hget.
  destruct (getFavorites_inv _ _ _ _ Hget) as (Hf1 & _).
  unfold toggleFavorite, bind, fallbackId. rewrite Hfb. simpl. rewrite Hget.
  rewrite (favoriteMatching_run fallback matchGeometry preset _ fb' st1 favs Hfb' Hf1).
  destruct (list_find _ favs) as [[i it]|] eqn:Hfind; simpl; [|done].
  by rewrite (splice1_find _ favs i it Hfind).
Qed.

Lemma addFavorite_state preset geometry fb fb' st favs st1 :
  fallback geometry = Some fb ->
  fallback (preset_id fb) = Some fb' ->
  getFavorites' st = Some (favs, st1) ->
  addFavorite fallback matchGeometry preset geometry st
  = Some (tt, withFavorites
       (match list_find (fun it => matches it preset (preset_id fb') = true) favs with
        | Some _ => favs
        | None => favs ++ [mkRibbonItem preset (preset_id fb) Favorite]
        end) st1).
Proof.
  intros Hfb Hfb' Hget.
  destruct (getFavorites_inv _ _ _ _ Hget) as (Hf1 & _).
  unfold addFavorite, bind, fallbackId. rewrite Hfb. simpl. rewrite Hget.
  rewrite (favoriteMatching_run fallback matchGeometry preset _ fb' st1 favs Hfb' Hf1).
  by destruct (list_find _ favs) as [[i it]|].
Qed.

Lemma removeFavorite_state preset geometry fb fb' st favs st1 :
  fallback geometry = Some fb ->
  fallback (preset_id fb) = Some fb' ->
  getFavorites' st = Some (favs, st1) ->
  removeFavorite fallback matchGeometry preset geometry st
  = Some (tt,
      match list_find (fun it => matches it preset (preset_id fb') = true) favs with
      | Some (i, _) => withFavorites (delete i favs) st1
      | None => st1
      end).
Proof.
  intros Hfb Hfb' Hget.
  destruct (getFavorites_inv _ _ _ _ Hget) as (Hf1 & _).
  unfold removeFavorite, bind, fallbackId. rewrite Hfb. simpl.
  unfold favoriteMatching, bind, fallbackId. rewrite Hfb'. simpl. rewrite Hget.
  destruct (list_find _ favs) as [[i it]|] eqn:Hfind; simpl; [|done].
  rewrite (getFavorites_loaded _ _ _ Hf1). simpl.
  by rewrite (splice1_find _ favs i it Hfind).
Qed.

Lemma setMostRecent_state preset geometry fb fb' st items st1 :
  inIntro st = false -> searchable preset = true ->
  fallback geometry = Some fb ->
  fallback (preset_id fb) = Some fb' ->
  getRecents' st = Some (items, st1) ->
  setMostRecent fallback matchGeometry preset geometry st
  = Some (tt, withRecents
       (match list_find (fun it => matches it preset (preset_id fb') = true) items with
        | Some (i, it) =>
            it :: (if bool_decide (length (delete i items) = 30%nat)
                   then pop (delete i items) else delete i items)
        | None =>
            mkRibbonItem preset (preset_id fb) Recent
            :: (if bool_decide (length items = 30%nat) then pop items else items)
        end) st1).
Proof.
  intros Hin Hs Hfb Hfb' Hget.
  destruct (getRecents_inv _ _ _ _ Hget) as (Hr1 & _).
  unfold setMostRecent, bind, get. rewrite Hin, Hs. simpl.
  unfold fallbackId. rewrite Hfb. simpl. rewrite Hget.
  rewrite (recentMatching_run fallback matchGeometry preset _ fb' st1 items Hfb' Hr1).
  destruct (list_find _ items) as [[i it]|] eqn:Hfind; simpl; [|done].
  by rewrite (splice1_find _ items i it Hfind).
Qed.

(** An item as [getFavorites] and [getRecents] accept it from the storage:
    its preset is the one the catalog has under the id, the id and the
    geometry are not empty, the geometry is not [vertex] and suits the
    preset (a point geometry also suits a preset for vertices). *)
Local Abbreviation storable c source it :=
  (item c (preset_id (item_preset it)) = Some (item_preset it)
   /\ (preset_id (item_preset it) ≠ EmptyString)
   /\ (item_geometry it ≠ EmptyString)
   /\ (item_geometry it ≠ "vertex")
   /\ matchGeometry (item_preset it) (item_geometry it)
      || (bool_decide (item_geometry it = "point")
          && matchGeometry (item_preset it) "vertex") = true
   /\ item_source it = source).

Lemma ribbonItemForMinified_minified c source it :
  storable c source it ->
  ribbonItemForMinified matchGeometry c (minified it) source = Some it.
Proof.
  intros (Hitem & Hid & Hg & Hv & Hm & Hsrc).
  unfold ribbonItemForMinified, minified. simpl.
  rewrite !bool_decide_eq_true_2 by done. simpl. rewrite Hitem.
  rewrite bool_decide_eq_false_2 by done. rewrite Hm.
  destruct it as [p g src]. simpl in *. by rewrite Hsrc.
Qed.

Lemma ribbonItemForMinified_storable c source d it :
  ribbonItemForMinified matchGeometry c d source = Some it ->
  storable c source it.
Proof.
  unfold ribbonItemForMinified.
  destruct (bool_decide (pID d ≠ EmptyString)) eqn:Hid; [|done].
  destruct (bool_decide (geom d ≠ EmptyString)) eqn:Hg; [|done]. simpl.
  apply bool_decide_eq_true in Hid, Hg.
  destruct (item c (pID d)) as [preset|] eqn:Hitem; [|done].
  assert (Hpid : preset_id preset = pID d).
  { unfold item in Hitem.
    destruct (list_find _ c) as [[i x]|] eqn:E; [|done].
    injection Hitem as ->. by apply list_find_Some in E as (_ & ? & _). }
  destruct (_ || _) eqn:Hm; [|done]. intros [= <-]. simpl.
  rewrite Hpid. split; [done|]. split; [done|].
  case_bool_decide as Hv; repeat split; done.
Qed.

Lemma omap_minified c source items :
  Forall (fun it => storable c source it) items ->
  omap (loadItem c source) (minified <$> items) = items.
Proof.
  induction 1 as [|it items Hit _ IH]; [done|].
  cbn [fmap list_fmap omap list_omap].
  rewrite ribbonItemForMinified_minified by done.
  f_equal. exact IH.
Qed.

(** X14. What [toggleFavorite] and [addFavorite] leave in memory is what
    they leave in the storage, in minified form; the recents and their
    storage are not touched. *)
Theorem favorites_written_through preset geometry fb fb' st favs st1 :
  fallback geometry = Some fb ->
  fallback (preset_id fb) = Some fb' ->
  getFavorites' st = Some (favs, st1) ->
  (exists st' favs',
      toggleFavorite fallback matchGeometry preset geometry st = Some (tt, st')
      /\ _favorites st' = Some favs'
      /\ storage st' !! "preset_favorites" = Some (minified <$> favs')
      /\ storage st' !! "preset_recents" = storage st !! "preset_recents"
      /\ _recents st' = _recents st)
  /\ (exists st' favs',
      addFavorite fallback matchGeometry preset geometry st = Some (tt, st')
      /\ _favorites st' = Some favs'
      /\ storage st' !! "preset_favorites" = Some (minified <$> favs')
      /\ storage st' !! "preset_recents" = storage st !! "preset_recents"
      /\ _recents st' = _recents st).
Proof.
  intros Hfb Hfb' Hget.
  destruct (getFavorites_frame _ _ _ Hget) as (_ & Hsto & Hrec & _).
  split; eexists _, _.
  - split; [by apply (toggleFavorite_state _ _ fb fb' _ favs st1)|].
    simpl. split; [done|]. split; [by rewrite lookup_insert_eq|].
    split; [|done]. rewrite lookup_insert_ne by done. by rewrite Hsto.
  - split; [by apply (addFavorite_state _ _ fb fb' _ favs st1)|].
    simpl. split; [done|]. split; [by rewrite lookup_insert_eq|].
    split; [|done]. rewrite lookup_insert_ne by done. by rewrite Hsto.
Qed.

(** X15. Outside the guided tour and for a searchable preset, what
    [setMostRecent] leaves in memory is what it leaves in the storage; the
    favorites and their storage are not touched. *)
Theorem recents_written_through preset geometry fb fb' st items st1 :
  inIntro st = false -> searchable preset = true ->
  fallback geometry = Some fb ->
  fallback (preset_id fb) = Some fb' ->
  getRecents' st = Some (items, st1) ->
  exists st' items',
    setMostRecent fallback matchGeometry preset geometry st = Some (tt, st')
    /\ _recents st' = Some items'
    /\ storage st' !! "preset_recents" = Some (minified <$> items')
    /\ storage st' !! "preset_favorites" = storage st !! "preset_favorites"
    /\ _favorites st' = _favorites st.
Proof.
  intros Hin Hs Hfb Hfb' Hget.
  destruct (getRecents_frame _ _ _ Hget) as (_ & Hsto & Hfav & _).
  eexists _, _.
  split; [by apply (setMostRecent_state _ _ fb fb' _ items st1)|].
  simpl. split; [done|]. split; [by rewrite lookup_insert_eq|].
  split; [|done]. rewrite lookup_insert_ne by done. by rewrite Hsto.
Qed.

(** X16. Round trip through the storage: a state that holds the minified
    form of a list of storable favorites, and has not read its favorites
    yet, reads that list back, item for item. *)
Theorem favorites_reload items st :
  _favorites st = None ->
  storage st !! "preset_favorites" = Some (minified <$> items) ->
  Forall (fun it => storable (collection st) Favorite it) items ->
  getFavorites' st = Some (items, set_favorites (Some items) st).
Proof.
  intros Hnone Hsto Hall. unfold getFavorites. rewrite Hnone, Hsto. simpl.
  by rewrite omap_minified.
Qed.

(** X17. Every favorite read from the storage is storable: entries with an
    empty or unknown preset id, an empty geometry or a geometry that does
    not suit the preset are dropped, and a stored [vertex] is read as
    [point]. *)
Theorem loaded_favorites_storable st favs st1 :
  _favorites st = None ->
  getFavorites matchGeometry st = Some (favs, st1) ->
  Forall (fun it => storable (collection st) Favorite it) favs.
Proof.
  intros Hnone. unfold getFavorites. rewrite Hnone. intros [= <- _].
  apply Forall_forall. intros it (d & _ & Hd)%list_elem_of_omap.
  by apply ribbonItemForMinified_storable in Hd.
Qed.

End RibbonMore.

(** ** Moving items *)

Section MoveFacts.
Implicit Types (items : list RibbonItem) (x it : RibbonItem) (i j : nat).

(** The item taken out at [i] and put back at [j]. *)
Local Abbreviation moved items i j x :=
  (take j (delete i items) ++ x :: drop j (delete i items)).

Lemma moveItem_nat items i j x :
  items !! i = Some x -> (j < length items)%nat -> i ≠ j ->
  moveItem items (Z.of_nat i) (Z.of_nat j) = Some (moved items i j x).
Proof.
  intros Hi Hj Hne. pose proof (lookup_lt_Some _ _ _ Hi) as Hlt.
  unfold moveItem.
  rewrite !bool_decide_eq_false_2 by lia. simpl.
  rewrite Nat2Z.id, Hi, splice1_nat. unfold spliceIn.
  rewrite bool_decide_eq_false_2 by lia.
  rewrite length_delete by eauto.
  rewrite Z.min_l by lia. by rewrite Nat2Z.id.
Qed.

Lemma moveItem_some items fromIndex toIndex items' :
  moveItem items fromIndex toIndex = Some items' ->
  exists i j x, fromIndex = Z.of_nat i /\ toIndex = Z.of_nat j
                /\ items !! i = Some x /\ (j < length items)%nat /\ i ≠ j
                /\ items' = moved items i j x.
Proof.
  intros Hmove. assert (Hcopy := Hmove). unfold moveItem in Hcopy.
  destruct (_ || _) eqn:Hguard; [done|].
  repeat (apply orb_false_iff in Hguard as [Hguard ?]).
  repeat match goal with
         | H : bool_decide _ = false |- _ => apply bool_decide_eq_false in H
         end.
  destruct (items !! Z.to_nat fromIndex) as [x|] eqn:Hx; [|done].
  exists (Z.to_nat fromIndex), (Z.to_nat toIndex), x.
  assert (Hi : fromIndex = Z.of_nat (Z.to_nat fromIndex)) by lia.
  assert (Hj : toIndex = Z.of_nat (Z.to_nat toIndex)) by lia.
  split; [done|]. split; [done|]. split; [done|]. split; [lia|]. split; [lia|].
  rewrite Hi, Hj, (moveItem_nat items _ _ x) in Hmove by (done || lia).
  by injection Hmove as <-.
Qed.

Lemma moved_facts items i j x :
  items !! i = Some x -> (j < length items)%nat ->
  moved items i j x ≡ₚ items
  /\ moved items i j x !! j = Some x
  /\ delete j (moved items i j x) = delete i items
  /\ length (moved items i j x) = length items.
Proof.
  intros Hi Hj. pose proof (lookup_lt_Some _ _ _ Hi) as Hlt.
  assert (Hlen : length (delete i items) = (length items - 1)%nat)
    by (apply length_delete; eauto).
  assert (Htake : length (take j (delete i items)) = j)
    by (apply length_take_le; lia).
  assert (Hperm : moved items i j x ≡ₚ items).
  { rewrite <- Permutation_middle, take_drop. symmetry. by apply delete_Permutation. }
  split; [done|]. split; [by apply list_lookup_middle|]. split.
  - rewrite <- Htake at 1. by rewrite delete_middle, take_drop.
  - by rewrite Hperm.
Qed.

(** X18. [moveItem] with two distinct positions of the list gives a
    permutation of the list in which the item taken from the first position
    stands at the second one, the others keeping their order. *)
Theorem moveItem_moves items fromIndex toIndex :
  0 <= fromIndex < Z.of_nat (length items) ->
  0 <= toIndex < Z.of_nat (length items) ->
  fromIndex ≠ toIndex ->
  exists x items',
    items !! Z.to_nat fromIndex = Some x
    /\ moveItem items fromIndex toIndex = Some items'
    /\ items' ≡ₚ items
    /\ items' !! Z.to_nat toIndex = Some x
    /\ delete (Z.to_nat toIndex) items' = delete (Z.to_nat fromIndex) items.
Proof.
  intros Hfrom Hto Hne.
  destruct (lookup_lt_is_Some_2 items (Z.to_nat fromIndex)) as [x Hx]; [lia|].
  assert (Hj : (Z.to_nat toIndex < length items)%nat) by lia.
  destruct (moved_facts items _ _ x Hx Hj) as (Hperm & Hat & Hrest & _).
  exists x, (moved items (Z.to_nat fromIndex) (Z.to_nat toIndex) x).
  split; [done|]. split; [|done].
  rewrite <- (moveItem_nat items _ _ x Hx Hj) by lia. f_equal; lia.
Qed.

(** X19. A move is undone by the move back: when [moveItem] gives a list,
    [moveItem] with the two positions exchanged gives the first list
    again. *)
Theorem moveItem_back items fromIndex toIndex items' :
  moveItem items fromIndex toIndex = Some items' ->
  moveItem items' toIndex fromIndex = Some items.
Proof.
  intros (i & j & x & -> & -> & Hi & Hj & Hne & ->)%moveItem_some.
  pose proof (lookup_lt_Some _ _ _ Hi) as Hlt.
  destruct (moved_facts items i j x Hi Hj) as (_ & Hat & Hrest & Hlen).
  rewrite (moveItem_nat _ j i x) by (done || lia). f_equal.
  rewrite Hrest, delete_take_drop.
  rewrite take_app_length' by (rewrite length_take_le; lia).
  rewrite drop_app_length' by (rewrite length_take_le; lia).
  by apply take_drop_middle.
Qed.

Lemma moveItem_guard items fromIndex toIndex :
  fromIndex = toIndex \/ fromIndex < 0 \/ toIndex < 0
  \/ fromIndex >= Z.of_nat (length items)
  \/ toIndex >= Z.of_nat (length items) ->
  moveItem items fromIndex toIndex = None.
Proof.
  intros H. unfold moveItem.
  destruct (bool_decide (fromIndex = toIndex)) eqn:E1; [done|].
  destruct (bool_decide (fromIndex < 0)) eqn:E2; [done|].
  destruct (bool_decide (toIndex < 0)) eqn:E3; [done|].
  destruct (bool_decide (fromIndex >= Z.of_nat (length items))) eqn:E4; [done|].
  destruct (bool_decide (toIndex >= Z.of_nat (length items))) eqn:E5; [done|].
  apply bool_decide_eq_false in E1, E2, E3, E4, E5. lia.
Qed.

Lemma moveItem_in_range items fromIndex toIndex :
  0 <= fromIndex < Z.of_nat (length items) ->
  0 <= toIndex < Z.of_nat (length items) ->
  fromIndex ≠ toIndex ->
  exists x,
    items !! Z.to_nat fromIndex = Some x
    /\ moveItem items fromIndex toIndex
       = Some (moved items (Z.to_nat fromIndex) (Z.to_nat toIndex) x).
Proof.
  intros Hfrom Hto Hne.
  destruct (lookup_lt_is_Some_2 items (Z.to_nat fromIndex)) as [x Hx]; [lia|].
  exists x. split; [done|].
  rewrite <- (moveItem_nat items _ _ x Hx) by lia. f_equal; lia.
Qed.

(** X20. [moveItem] gives no list exactly when the two positions are equal
    or one of them is outside the list; the list is then left as it is. *)
Theorem moveItem_rejects items fromIndex toIndex :
  moveItem items fromIndex toIndex = None
  <-> fromIndex = toIndex \/ fromIndex < 0 \/ toIndex < 0
      \/ fromIndex >= Z.of_nat (length items)
      \/ toIndex >= Z.of_nat (length items).
Proof.
  split; [|apply moveItem_guard].
  intros Hnone.
  destruct (decide (fromIndex = toIndex)) as [?|Hne]; [by left|].
  destruct (decide (0 <= fromIndex < Z.of_nat (length items))) as [Hf|?]; [|lia].
  destruct (decide (0 <= toIndex < Z.of_nat (length items))) as [Ht|?]; [|lia].
  destruct (moveItem_in_range items fromIndex toIndex Hf Ht Hne)
    as (x & _ & Hsome). congruence.
Qed.

Lemma indexOf_absent items x : x ∉ items -> indexOf items x = -1.
Proof.
  intros Hx. unfold indexOf.
  destruct (list_find (fun y => y = x) items) as [[i y]|] eqn:E; [|done].
  apply list_find_Some in E as (Hi & -> & _).
  exfalso. apply Hx. by apply list_elem_of_lookup_2 in Hi.
Qed.

Lemma indexOf_present items x :
  x ∈ items ->
  exists i, indexOf items x = Z.of_nat i /\ items !! i = Some x.
Proof.
  intros Hx. unfold indexOf.
  destruct (list_find (fun y => y = x) items) as [[i y]|] eqn:E.
  - apply list_find_Some in E as (Hi & -> & _). eauto.
  - apply list_find_None in E. rewrite Forall_forall in E. by destruct (E x Hx).
Qed.

End MoveFacts.

(** ** Lists without equal items *)

Section CopiesFacts.
Implicit Types (items l : list RibbonItem) (it x : RibbonItem) (p preset : Preset)
  (g geometry : string).

Lemma pop_take items : pop items = take (length items - 1) items.
Proof.
  unfold pop. rewrite removelast_firstn_len. f_equal. lia.
Qed.

Lemma pop_sublist items : pop items `sublist_of` items.
Proof. rewrite pop_take. apply sublist_take. Qed.

Lemma copies_sublist l1 l2 p g :
  l1 `sublist_of` l2 -> (copies l1 p g <= copies l2 p g)%nat.
Proof.
  unfold copies. induction 1 as [|x l1 l2 _ IH|x l1 l2 _ IH]; [done| |].
  - destruct (decide (matches x p g = true)).
    + rewrite !filter_cons_True by done. simpl. lia.
    + by rewrite !filter_cons_False.
  - destruct (decide (matches x p g = true)).
    + rewrite filter_cons_True by done. simpl. lia.
    + by rewrite filter_cons_False.
Qed.

Lemma copies_cons x l p g :
  copies (x :: l) p g = ((if matches x p g then 1 else 0) + copies l p g)%nat.
Proof.
  unfold copies. destruct (matches x p g) eqn:E.
  - by rewrite filter_cons_True.
  - rewrite filter_cons_False; [done | congruence].
Qed.

Lemma copies_snoc l x p g :
  copies (l ++ [x]) p g = (copies l p g + (if matches x p g then 1 else 0))%nat.
Proof.
  unfold copies. rewrite filter_app, length_app. f_equal.
  destruct (matches x p g) eqn:E.
  - by rewrite filter_cons_True.
  - rewrite filter_cons_False; [done | congruence].
Qed.

(** Two pairs that one item matches are matched by the same items. *)
Lemma copies_same_key l preset geometry source p g :
  matches (mkRibbonItem preset geometry source) p g = true ->
  copies l p g = copies l preset geometry.
Proof.
  unfold matches. simpl.
  intros [Hid%bool_decide_eq_true Hg%bool_decide_eq_true]%andb_true_iff.
  subst g. unfold copies. f_equal. apply list_filter_iff. intros it.
  unfold matches. by rewrite Hid.
Qed.

(** A new item next to a list that holds no equal item. *)
Lemma copies_with_new l l0 preset geometry source p g :
  l `sublist_of` l0 ->
  copies l0 preset geometry = 0%nat ->
  (copies l0 p g <= 1)%nat ->
  (copies l p g
   + (if matches (mkRibbonItem preset geometry source) p g then 1 else 0) <= 1)%nat.
Proof.
  intros Hsub Hzero Hle. pose proof (copies_sublist l l0 p g Hsub).
  destruct (matches _ p g) eqn:Hm; [|lia].
  rewrite (copies_same_key l0 preset geometry source p g Hm) in Hle.
  rewrite (copies_same_key l0 preset geometry source p g Hm) in H. lia.
Qed.

End CopiesFacts.

Section RibbonInvariants.
Variable fallback : string -> option Preset.
Variable matchGeometry : Preset -> string -> bool.

Implicit Types (st : State) (items favs : list RibbonItem) (preset : Preset)
  (geometry : string) (it : RibbonItem).

Local Abbreviation getFavorites' := (getFavorites matchGeometry).
Local Abbreviation getRecents' := (getRecents matchGeometry).
Local Abbreviation unique items :=
  (forall p g, (copies items p g <= 1)%nat).

Lemma removeRecent_state preset geometry fb st items st1 :
  fallback geometry = Some fb ->
  getRecents' st = Some (items, st1) ->
  removeRecent fallback matchGeometry preset geometry st
  = Some (tt,
      match list_find (fun it => matches it preset (preset_id fb) = true) items with
      | Some (i, _) =>
          set_storage "preset_recents" (minified <$> delete i items)
            (set_recents (Some (delete i items)) st1)
      | None => st1
      end).
Proof.
  intros Hfb Hget.
  destruct (getRecents_inv _ _ _ _ Hget) as (Hr1 & _).
  unfold removeRecent, bind.
  unfold recentMatching, bind, fallbackId. rewrite Hfb. simpl. rewrite Hget.
  destruct (list_find _ items) as [[i it]|] eqn:Hfind; simpl; [|done].
  rewrite (getRecents_loaded _ _ _ Hr1). simpl.
  by rewrite (splice1_find _ items i it Hfind).
Qed.

(** X21. [toggleFavorite], [addFavorite] and [removeFavorite] keep a
    favorites list free of equal items, the id of the fallback preset being
    its own fallback id. *)
Theorem favorites_stay_unique preset geometry fb fb' st favs st1 :
  fallback geometry = Some fb ->
  fallback (preset_id fb) = Some fb' ->
  preset_id fb' = preset_id fb ->
  getFavorites' st = Some (favs, st1) ->
  unique favs ->
  (exists st' favs',
      toggleFavorite fallback matchGeometry preset geometry st = Some (tt, st')
      /\ _favorites st' = Some favs' /\ unique favs')
  /\ (exists st' favs',
      addFavorite fallback matchGeometry preset geometry st = Some (tt, st')
      /\ _favorites st' = Some favs' /\ unique favs')
  /\ (exists st' favs',
      removeFavorite fallback matchGeometry preset geometry st = Some (tt, st')
      /\ _favorites st' = Some favs' /\ unique favs').
Proof.
  intros Hfb Hfb' Hid Hget Huniq.
  pose proof (toggleFavorite_state fallback matchGeometry preset geometry fb fb'
                st favs st1 Hfb Hfb' Hget) as Htoggle.
  pose proof (addFavorite_state fallback matchGeometry preset geometry fb fb'
                st favs st1 Hfb Hfb' Hget) as Hadd.
  pose proof (removeFavorite_state fallback matchGeometry preset geometry fb fb'
                st favs st1 Hfb Hfb' Hget) as Hremove.
  destruct (getFavorites_inv _ _ _ _ Hget) as (Hf1 & _).
  rewrite Hid in Htoggle, Hadd, Hremove.
  destruct (list_find (fun it => matches it preset (preset_id fb) = true) favs)
    as [[i it]|] eqn:Hfind.
  - assert (Hdel : unique (delete i favs)).
    { intros p g. etrans; [|apply (Huniq p g)].
      apply copies_sublist, sublist_delete. }
    split; [|split]; eexists _, _;
      (split; [eassumption|]); (split; [reflexivity|]); done.
  - apply find_none_copies in Hfind.
    assert (Hnew : forall l, l `sublist_of` favs ->
                     unique (l ++ [mkRibbonItem preset (preset_id fb) Favorite])).
    { intros l Hl p g. rewrite copies_snoc.
      by apply (copies_with_new l favs). }
    split; [|split]; eexists _, _.
    + split; [eassumption|]. split; [reflexivity|].
      apply Hnew. case_bool_decide; [apply pop_sublist | done].
    + split; [eassumption|]. split; [reflexivity|]. by apply Hnew.
    + split; [eassumption|]. split; [exact Hf1 | done].
Qed.

(** X22. [setMostRecent] keeps a recents list free of equal items, the id
    of the fallback preset being its own fallback id. *)
Theorem recents_stay_unique preset geometry fb fb' st items st1 :
  inIntro st = false -> searchable preset = true ->
  fallback geometry = Some fb ->
  fallback (preset_id fb) = Some fb' ->
  preset_id fb' = preset_id fb ->
  getRecents' st = Some (items, st1) ->
  unique items ->
  exists st' items',
    setMostRecent fallback matchGeometry preset geometry st = Some (tt, st')
    /\ _recents st' = Some items' /\ unique items'.
Proof.
  intros Hin Hs Hfb Hfb' Hid Hget Huniq.
  pose proof (setMostRecent_state fallback matchGeometry preset geometry fb fb'
                st items st1 Hin Hs Hfb Hfb' Hget) as Hrun.
  rewrite Hid in Hrun.
  destruct (list_find (fun it => matches it preset (preset_id fb) = true) items)
    as [[i it]|] eqn:Hfind.
  - eexists _, _. split; [eassumption|]. split; [reflexivity|].
    intros p g. etrans; [|apply (Huniq p g)].
    apply list_find_Some in Hfind as (Hi & _).
    assert (Hperm : it :: delete i items ≡ₚ items)
      by (symmetry; by apply delete_Permutation).
    etrans; [|unfold copies; by rewrite <- Hperm].
    apply copies_sublist, sublist_skip.
    case_bool_decide; [apply pop_sublist | done].
  - apply find_none_copies in Hfind.
    eexists _, _. split; [eassumption|]. split; [reflexivity|].
    intros p g. rewrite copies_cons, Nat.add_comm.
    apply (copies_with_new _ items); [|done|done].
    case_bool_decide; [apply pop_sublist | done].
Qed.

(** X23. At capacity [toggleFavorite] evicts the last favorite: with 10
    favorites and no equal item among them, the new list is the first 9
    followed by the new item. *)
Theorem toggleFavorite_evicts_last preset geometry fb fb' st favs st1 :
  fallback geometry = Some fb ->
  fallback (preset_id fb) = Some fb' ->
  getFavorites' st = Some (favs, st1) ->
  length favs = 10%nat ->
  holds favs preset (preset_id fb') = false ->
  exists st',
    toggleFavorite fallback matchGeometry preset geometry st = Some (tt, st')
    /\ _favorites st'
       = Some (take 9 favs ++ [mkRibbonItem preset (preset_id fb) Favorite]).
Proof.
  intros Hfb Hfb' Hget Hlen Hholds.
  apply find_none_holds in Hholds.
  pose proof (toggleFavorite_state fallback matchGeometry preset geometry fb fb'
                st favs st1 Hfb Hfb' Hget) as Hrun.
  rewrite Hholds, bool_decide_eq_true_2, pop_take, Hlen in Hrun by done.
  eexists. split; [exact Hrun|]. reflexivity.
Qed.

(** X24. At capacity [setMostRecent] evicts the oldest recent: with 30
    recents and no equal item among them, the new list is the new item
    followed by the first 29. *)
Theorem setMostRecent_evicts_oldest preset geometry fb fb' st items st1 :
  inIntro st = false -> searchable preset = true ->
  fallback geometry = Some fb ->
  fallback (preset_id fb) = Some fb' ->
  getRecents' st = Some (items, st1) ->
  length items = 30%nat ->
  holds items preset (preset_id fb') = false ->
  exists st',
    setMostRecent fallback matchGeometry preset geometry st = Some (tt, st')
    /\ _recents st'
       = Some (mkRibbonItem preset (preset_id fb) Recent :: take 29 items).
Proof.
  intros Hin Hs Hfb Hfb' Hget Hlen Hholds.
  apply find_none_holds in Hholds.
  pose proof (setMostRecent_state fallback matchGeometry preset geometry fb fb'
                st items st1 Hin Hs Hfb Hfb' Hget) as Hrun.
  rewrite Hholds, bool_decide_eq_true_2, pop_take, Hlen in Hrun by done.
  eexists. split; [exact Hrun|]. reflexivity.
Qed.

(** X25. During the guided tour, and for a preset that is not searchable,
    [setMostRecent] leaves the whole state as it is: the recents are not
    even read, and no fallback preset is needed. *)
Theorem setMostRecent_inert preset geometry st :
  inIntro st = true \/ searchable preset = false ->
  setMostRecent fallback matchGeometry preset geometry st = Some (tt, st).
Proof.
  intros H. unfold setMostRecent, bind, get.
  destruct (inIntro st); [done|]. destruct H as [?| ->]; done.
Qed.

(** X26. [removeFavorite] undoes [addFavorite]: on a list that holds no
    equal item, adding a favorite and removing it gives the list back, the
    id of the fallback preset being its own fallback id. *)
Theorem addFavorite_then_removeFavorite preset geometry fb fb' st favs st1 :
  fallback geometry = Some fb ->
  fallback (preset_id fb) = Some fb' ->
  preset_id fb' = preset_id fb ->
  getFavorites' st = Some (favs, st1) ->
  holds favs preset (preset_id fb) = false ->
  exists st' st'',
    addFavorite fallback matchGeometry preset geometry st = Some (tt, st')
    /\ removeFavorite fallback matchGeometry preset geometry st' = Some (tt, st'')
    /\ _favorites st'' = Some favs.
Proof.
  intros Hfb Hfb' Hid Hget Hholds. apply find_none_holds in Hholds.
  pose proof (addFavorite_state fallback matchGeometry preset geometry fb fb'
                st favs st1 Hfb Hfb' Hget) as Hadd.
  rewrite Hid, Hholds in Hadd.
  eexists _, _. split; [exact Hadd|].
  set (new := mkRibbonItem preset (preset_id fb) Favorite) in *.
  set (st' := set_storage "preset_favorites" (minified <$> favs ++ [new])
                (set_favorites (Some (favs ++ [new])) st1)) in *.
  assert (Hget' : getFavorites' st' = Some (favs ++ [new], st'))
    by (by apply getFavorites_loaded).
  pose proof (removeFavorite_state fallback matchGeometry preset geometry fb fb'
                st' (favs ++ [new]) st' Hfb Hfb' Hget') as Hremove.
  rewrite Hid in Hremove.
  rewrite (find_snoc favs new preset (preset_id fb) Hholds (matches_new _ _ _))
    in Hremove.
  split; [exact Hremove|]. simpl. by rewrite delete_snoc.
Qed.

(** X27. [removeRecent] undoes [setMostRecent] of a new pair: outside the
    guided tour, for a searchable preset and a recents list below its
    capacity that holds no equal item, recording the pair and removing it
    gives the list back. *)
Theorem setMostRecent_then_removeRecent preset geometry fb fb' st items st1 :
  inIntro st = false -> searchable preset = true ->
  fallback geometry = Some fb ->
  fallback (preset_id fb) = Some fb' ->
  getRecents' st = Some (items, st1) ->
  length items ≠ 30%nat ->
  holds items preset (preset_id fb') = false ->
  exists st' st'',
    setMostRecent fallback matchGeometry preset geometry st = Some (tt, st')
    /\ removeRecent fallback matchGeometry preset geometry st' = Some (tt, st'')
    /\ _recents st'' = Some items.
Proof.
  intros Hin Hs Hfb Hfb' Hget Hlen Hholds. apply find_none_holds in Hholds.
  pose proof (setMostRecent_state fallback matchGeometry preset geometry fb fb'
                st items st1 Hin Hs Hfb Hfb' Hget) as Hset.
  rewrite Hholds, bool_decide_eq_false_2 in Hset by done.
  eexists _, _. split; [exact Hset|].
  set (new := mkRibbonItem preset (preset_id fb) Recent) in *.
  set (st' := set_storage "preset_recents" (minified <$> new :: items)
                (set_recents (Some (new :: items)) st1)) in *.
  assert (Hget' : getRecents' st' = Some (new :: items, st'))
    by (by apply getRecents_loaded).
  pose proof (removeRecent_state preset geometry fb
                st' (new :: items) st' Hfb Hget') as Hremove.
  cbn [list_find] in Hremove.
  rewrite decide_True in Hremove by apply matches_new.
  split; [exact Hremove|]. reflexivity.
Qed.

(** X28. [moveRecent] with two different objects of the recents puts the
    first at the position the second one has, keeps the other recents in
    their order and writes the list through. *)
Theorem moveRecent_moves (i j : nat) x st items st1 :
  getRecents' st = Some (items, st1) ->
  items !! i = Some x -> (j < length items)%nat -> i ≠ j ->
  exists st' items',
    moveRecent matchGeometry (Listed i) (Listed j) st = Some (tt, st')
    /\ _recents st' = Some items'
    /\ storage st' !! "preset_recents" = Some (minified <$> items')
    /\ indexOfRef items (Listed i) = Z.of_nat i
    /\ indexOfRef items (Listed j) = Z.of_nat j
    /\ items' ≡ₚ items
    /\ items' !! j = Some x
    /\ delete j items' = delete i items.
Proof.
  intros Hget Hati Hlt Hij.
  pose proof (lookup_lt_Some _ _ _ Hati) as Hlti.
  assert (Hi : indexOfRef items (Listed i) = Z.of_nat i)
    by (unfold indexOfRef; by rewrite bool_decide_eq_true_2).
  assert (Hj : indexOfRef items (Listed j) = Z.of_nat j)
    by (unfold indexOfRef; by rewrite bool_decide_eq_true_2).
  pose proof (moveItem_nat items i j x Hati Hlt Hij) as Hmove.
  destruct (moved_facts items i j x Hati Hlt) as (Hperm & Hat & Hrest & _).
  eexists _, _. split.
  - unfold moveRecent, bind. rewrite Hget, Hi, Hj, Hmove. reflexivity.
  - simpl. split; [done|]. split; [by rewrite lookup_insert_eq|]. done.
Qed.

(** X29. [moveRecent] with an object that [indexOf] does not find in the
    recents, or with the same object twice, writes nothing. *)
Theorem moveRecent_rejected (item beforeItem : ItemRef) st items st1 :
  getRecents' st = Some (items, st1) ->
  indexOfRef items item = -1 \/ indexOfRef items beforeItem = -1
  \/ item = beforeItem ->
  moveRecent matchGeometry item beforeItem st = Some (tt, st1).
Proof.
  intros Hget Hbad. unfold moveRecent, bind. rewrite Hget.
  assert (Hnone : moveItem items (indexOfRef items item) (indexOfRef items beforeItem)
                  = None).
  { apply moveItem_guard.
    destruct Hbad as [H|[H| ->]]; [| |by left].
    - rewrite H. lia.
    - rewrite H. lia. }
  by rewrite Hnone.
Qed.

(** X30. [moveFavorite] with two distinct positions of the list moves the
    favorite and writes the list through; with equal positions or a
    position outside the list it writes nothing. *)
Theorem moveFavorite_moves fromIndex toIndex st favs st1 :
  getFavorites' st = Some (favs, st1) ->
  (0 <= fromIndex < Z.of_nat (length favs)
   /\ 0 <= toIndex < Z.of_nat (length favs) /\ fromIndex ≠ toIndex ->
   exists st' favs' x,
     moveFavorite matchGeometry fromIndex toIndex st = Some (tt, st')
     /\ _favorites st' = Some favs'
     /\ storage st' !! "preset_favorites" = Some (minified <$> favs')
     /\ favs' ≡ₚ favs
     /\ favs !! Z.to_nat fromIndex = Some x
     /\ favs' !! Z.to_nat toIndex = Some x)
  /\ (fromIndex = toIndex \/ fromIndex < 0 \/ toIndex < 0
      \/ fromIndex >= Z.of_nat (length favs)
      \/ toIndex >= Z.of_nat (length favs) ->
      moveFavorite matchGeometry fromIndex toIndex st = Some (tt, st1)).
Proof.
  intros Hget. split.
  - intros (Hfrom & Hto & Hne).
    destruct (moveItem_in_range favs fromIndex toIndex Hfrom Hto Hne)
      as (x & Hx & Hmove).
    assert (Hj : (Z.to_nat toIndex < length favs)%nat) by lia.
    destruct (moved_facts favs _ _ x Hx Hj) as (Hperm & Hat & _).
    eexists _, _, x. split.
    + unfold moveFavorite, bind. rewrite Hget, Hmove. reflexivity.
    + simpl. split; [done|]. split; [by rewrite lookup_insert_eq|]. done.
  - intros Hbad. apply moveItem_guard in Hbad.
    unfold moveFavorite, bind. by rewrite Hget, Hbad.
Qed.

End RibbonInvariants.

(** ** Concrete instances of the further properties *)

(** [shop/bakery] wins on [shop=bakery] with the greatest score. *)
Lemma bestMatch_maximal_witness :
  Sample.bakery ∈ candidates Sample.idx [("shop", "bakery")] point
  /\ -1 < Sample.matchScore Sample.bakery [("shop", "bakery")]
  /\ forall q, q ∈ candidates Sample.idx [("shop", "bakery")] point ->
               Sample.matchScore q [("shop", "bakery")]
               <= Sample.matchScore Sample.bakery [("shop", "bakery")].
Proof.
  apply (bestMatch_maximal Sample.matchScore Sample.idx [("shop", "bakery")]
           point Sample.bakery).
  vm_compute. reflexivity.
Defined.

(** A bakery with an address is a bakery. *)
Lemma matchTags_specific_wins_witness :
  matchTags Sample.matchScore Sample.isFallback Sample.fallback Sample.idx
    [("addr:street", "Main"); ("shop", "bakery")] point
  = Returned (Some Sample.bakery).
Proof.
  apply (matchTags_specific_wins Sample.matchScore Sample.isFallback
           Sample.fallback Sample.idx
           [("addr:street", "Main"); ("shop", "bakery")] point Sample.bakery).
  - vm_compute. reflexivity.
  - vm_compute. reflexivity.
Defined.

(** A florist, with no address tag, is a shop. *)
Lemma matchTags_without_addr_key_witness :
  matchTags Sample.matchScore Sample.isFallback Sample.fallback Sample.idx
    [("shop", "florist")] point
  = match bestMatch Sample.matchScore Sample.idx [("shop", "florist")] point with
    | Returned (Some m) => Returned (Some m)
    | Returned None => Returned (Sample.fallback (geometry_name point))
    | Thrown => Thrown
    end.
Proof.
  apply (matchTags_without_addr_key Sample.matchScore Sample.isFallback
           Sample.fallback Sample.idx [("shop", "florist")] point).
  intros k Hk. simpl in Hk. apply list_elem_of_singleton in Hk. subst k.
  vm_compute. reflexivity.
Defined.

(** A node without tags. *)
Lemma allowsVertex_untagged_node_witness :
  allowsVertex unit (fun _ _ => false) Cases.pointOnly (Cases.node []) Cases.noCache
  = (true, Cases.noCache).
Proof.
  apply (allowsVertex_untagged_node unit (fun _ _ => false) Cases.pointOnly
           (Cases.node []) Cases.noCache); reflexivity.
Defined.

(** A cafe node off address lines is refused, and the refusal is cached. *)
Lemma allowsVertex_decides_witness :
  allowsVertex unit (fun _ _ => false) Cases.pointOnly
    (Cases.node [("amenity", "cafe")]) Cases.noCache
  = (false, mkResolver unit tt {[ ("n1", "vertexMatch") := false ]}).
Proof.
  rewrite (allowsVertex_decides unit (fun _ _ => false) Cases.pointOnly
             (Cases.node [("amenity", "cafe")]) Cases.noCache);
    [reflexivity | reflexivity | discriminate | reflexivity].
Defined.

(** The cached refusal stands when the node is later on an address line. *)
Lemma allowsVertex_memoized_witness :
  allowsVertex unit (fun _ _ => true) Cases.pointOnly
    (Cases.node [("amenity", "cafe")])
    (mkResolver unit tt {[ ("n1", "vertexMatch") := false ]})
  = (false, mkResolver unit tt {[ ("n1", "vertexMatch") := false ]}).
Proof.
  apply (allowsVertex_memoized unit (fun _ _ => false) (fun _ _ => true)
           Cases.pointOnly Cases.pointOnly
           (Cases.node [("amenity", "cafe")]) Cases.noCache).
  - reflexivity.
  - discriminate.
  - reflexivity.
Defined.

Lemma Sample_presetPreset_id id p v :
  preset_id (Sample.presetPreset id p v) = id.
Proof. reflexivity. Qed.

Lemma Sample_presetCategory_id id x :
  preset_id (Sample.presetCategory id x) = id.
Proof. reflexivity. Qed.

(** The built-in sample catalog with a category, built into a fresh index. *)
Lemma build_keeps_ids_witness :
  NoDup (preset_id <$>
           collection (buildTry Sample.RawPreset Sample.presetPreset
                         Sample.RawCategory Sample.presetCategory
                         Sample.builtinCategory (VConst true) Sample.fresh).1)
  /\ forall id,
       id ∈ preset_id <$>
              collection (buildTry Sample.RawPreset Sample.presetPreset
                            Sample.RawCategory Sample.presetCategory
                            Sample.builtinCategory (VConst true) Sample.fresh).1
       <-> id ∈ preset_id <$> collection Sample.fresh
           \/ id ∈ ["shop"] \/ id ∈ ["category-shop"].
Proof.
  assert (Hnd : NoDup (preset_id <$> collection Sample.fresh))
    by (simpl; apply NoDup_nil_2).
  pose proof (build_keeps_ids Sample.RawPreset Sample.presetPreset
                Sample.RawCategory Sample.presetCategory
                Sample_presetPreset_id Sample_presetCategory_id
                Sample.builtinCategory (VConst true) Sample.fresh Hnd) as H.
  cbv zeta in H. destruct H as (H1 & _ & H3 & _).
  split; [exact H1 | exact H3].
Defined.

Lemma build_lookup_witness :
  exists st',
    build Sample.RawPreset Sample.presetPreset Sample.RawCategory
      Sample.presetCategory Sample.builtinCategory (VConst true) Sample.fresh
    = Some (tt, st')
    /\ item (collection st') "shop"
       = Some (mkPreset "shop" [("shop", "*")] [point] true false false true)
    /\ item (collection st') "category-shop"
       = Some (mkPreset "category-shop" [] [point] true false false true).
Proof.
  assert (Hnd1 : NoDup (cat_presets _ _ Sample.builtinCategory).*1)
    by (simpl; apply NoDup_singleton).
  assert (Hnd2 : NoDup (cat_categories _ _ Sample.builtinCategory).*1)
    by (simpl; apply NoDup_singleton).
  pose proof (build_lookup Sample.RawPreset Sample.presetPreset
                Sample.RawCategory Sample.presetCategory
                Sample_presetPreset_id Sample_presetCategory_id
                Sample.builtinCategory (VConst true) Sample.fresh Hnd1 Hnd2) as H.
  cbv zeta in H. destruct H as (Hcat & Hpre & _ & Hret).
  eexists. split; [|split].
  - apply Hret; [apply Forall_nil_2|]. split.
    + intros id p v Hin. apply list_elem_of_singleton in Hin.
      injection Hin as -> ->. repeat constructor.
    + intros id x Hin. apply list_elem_of_singleton in Hin.
      injection Hin as -> ->. constructor.
  - apply (Hpre "shop" (Sample.mkRaw [("shop", "*")] [point])).
    + apply list_elem_of_singleton. reflexivity.
    + simpl. intros H. apply list_elem_of_singleton in H. discriminate.
  - apply (Hcat "category-shop" [point]).
    apply list_elem_of_singleton. reflexivity.
Defined.

(** The external bakery is visible, the built-in shop hidden. *)
Lemma fromExternal_masks_witness :
  exists st',
    fromExternal Sample.RawPreset Sample.presetPreset Sample.RawCategory
      Sample.presetCategory Sample.builtin
      (Some Sample.externalMore) Sample.fresh = Some (tt, st')
    /\ item (collection st') "shop/bakery"
       = Some (mkPreset "shop/bakery" [("shop", "bakery")] [point]
                 true false false true)
    /\ item (collection st') "shop"
       = Some (mkPreset "shop" [("shop", "*")] [point] true false false false).
Proof.
  destruct (fromExternal_masks Sample.RawPreset Sample.presetPreset
              Sample.RawCategory Sample.presetCategory
              Sample.builtin Sample_presetPreset_id Sample_presetCategory_id
              Sample.externalMore Sample.fresh)
    as (st' & Hrun & Hext & Hbuiltin).
  - simpl. apply NoDup_singleton.
  - simpl. apply NoDup_singleton.
  - split.
    + intros id p v Hin. apply list_elem_of_singleton in Hin.
      injection Hin as -> ->. repeat constructor.
    + intros id x Hin. by apply elem_of_nil in Hin.
  - split.
    + intros id p v Hin. apply list_elem_of_singleton in Hin.
      injection Hin as -> ->. repeat constructor.
    + intros id x Hin. by apply elem_of_nil in Hin.
  - exists st'. split; [exact Hrun|]. split.
    + apply (Hext "shop/bakery" (Sample.mkRaw [("shop", "bakery")] [point])).
      * apply list_elem_of_singleton. reflexivity.
      * simpl. apply not_elem_of_nil.
    + apply (Hbuiltin "shop" (Sample.mkRaw [("shop", "*")] [point])).
      * apply list_elem_of_singleton. reflexivity.
      * simpl. apply not_elem_of_nil.
      * simpl. intros H. apply list_elem_of_singleton in H. discriminate.
      * simpl. apply not_elem_of_nil.
Defined.

(** An external preset for the tag [constructor=*] makes the second
    [build] throw: the catalog ends as [init()] leaves it, with the
    built-in preset alone, visible. *)
Lemma fromExternal_caught_constructor :
  (collection ∘ snd) <$>
    fromExternal Sample.RawPreset Sample.presetPreset Sample.RawCategory
      Sample.presetCategory Sample.builtin
      (Some Sample.externalConstructor) Sample.fresh
  = Some [mkPreset "shop" [("shop", "*")] [point] true false false true].
Proof. vm_compute. reflexivity. Qed.

Lemma init_buckets_in_catalog_order_witness :
  exists st',
    init Sample.RawPreset Sample.presetPreset Sample.RawCategory
      Sample.presetCategory Sample.builtinCategory None Sample.fresh
    = Some (tt, st')
    /\ bucket (_index st') point "shop"
       = filter (fun p => point ∈ geometry p /\ "shop" ∈ (tags p).*1)
                (collection st').
Proof.
  destruct (init_buckets_in_catalog_order Sample.RawPreset Sample.presetPreset
              Sample.RawCategory Sample.presetCategory
              Sample.builtinCategory None Sample.fresh)
    as (st' & Hrun & Hbuckets).
  - split.
    + intros id p v Hin. apply list_elem_of_singleton in Hin.
      injection Hin as -> ->. repeat constructor.
    + intros id x Hin. apply list_elem_of_singleton in Hin.
      injection Hin as -> ->. constructor.
  - split.
    + intros id p v Hin. apply list_elem_of_singleton in Hin.
      injection Hin as -> ->. simpl. split; apply NoDup_singleton.
    + intros id x Hin. apply list_elem_of_singleton in Hin.
      injection Hin as -> ->. simpl. split; [apply NoDup_singleton | apply NoDup_nil_2].
  - exists st'. split; [exact Hrun | apply Hbuckets].
Defined.

Lemma one_item_unique (x : RibbonItem) p g : (copies [x] p g <= 1)%nat.
Proof.
  unfold copies. destruct (decide (matches x p g = true)).
  - rewrite filter_cons_True by done. simpl. lia.
  - rewrite filter_cons_False by done. simpl. lia.
Qed.

(** A second favorite is written to the storage as it is kept in memory. *)
Lemma favorites_written_through_witness :
  exists st' favs',
    toggleFavorite Sample.fallback Sample.matchGeometry Sample.cafe "point"
      Cases.oneFavorite = Some (tt, st')
    /\ _favorites st' = Some favs'
    /\ storage st' !! "preset_favorites" = Some (minified <$> favs').
Proof.
  destruct (favorites_written_through Sample.fallback Sample.matchGeometry
              Sample.cafe "point" Sample.pointPreset Sample.pointPreset
              Cases.oneFavorite [Cases.shopPoint Favorite] Cases.oneFavorite
              eq_refl eq_refl eq_refl)
    as [(st' & favs' & Hrun & Hfavs & Hsto & _) _].
  exists st', favs'. split; [exact Hrun|]. split; [exact Hfavs | exact Hsto].
Defined.

Lemma recents_written_through_witness :
  exists st' items',
    setMostRecent Sample.fallback Sample.matchGeometry Sample.cafe "point"
      Cases.oneRecent = Some (tt, st')
    /\ _recents st' = Some items'
    /\ storage st' !! "preset_recents" = Some (minified <$> items').
Proof.
  destruct (recents_written_through Sample.fallback Sample.matchGeometry
              Sample.cafe "point" Sample.pointPreset Sample.pointPreset
              Cases.oneRecent [Cases.shopPoint Recent] Cases.oneRecent
              eq_refl eq_refl eq_refl eq_refl eq_refl)
    as (st' & items' & Hrun & Hrec & Hsto & _).
  exists st', items'. split; [exact Hrun|]. split; [exact Hrec | exact Hsto].
Defined.

(** The default favorites, stored in minified form, are read back. *)
Lemma favorites_reload_witness :
  getFavorites Sample.matchGeometry Cases.storedDefaults
  = Some (Sample.defaultItems,
          set_favorites (Some Sample.defaultItems) Cases.storedDefaults).
Proof.
  apply (favorites_reload Sample.matchGeometry Sample.defaultItems
           Cases.storedDefaults).
  - reflexivity.
  - vm_compute. reflexivity.
  - repeat constructor; vm_compute; (reflexivity || discriminate).
Defined.

(** The two favorites read from a [point] and a [vertex] entry. *)
Lemma loaded_favorites_storable_witness :
  Forall (fun it => item_geometry it ≠ "vertex")
         [Cases.shopPoint Favorite; Cases.shopPoint Favorite].
Proof.
  pose proof (loaded_favorites_storable Sample.matchGeometry Sample.twiceStored
                [Cases.shopPoint Favorite; Cases.shopPoint Favorite]
                (set_favorites
                   (Some [Cases.shopPoint Favorite; Cases.shopPoint Favorite])
                   Sample.twiceStored)
                eq_refl eq_refl) as Hall.
  eapply Forall_impl; [exact Hall|].
  intros it (_ & _ & _ & Hv & _). exact Hv.
Defined.

(** The first of three items moved to the end, and back. *)
Lemma moveItem_moves_witness :
  exists x items',
    Cases.abc !! Z.to_nat 0 = Some x
    /\ moveItem Cases.abc 0 2 = Some items'
    /\ items' ≡ₚ Cases.abc
    /\ items' !! Z.to_nat 2 = Some x
    /\ delete (Z.to_nat 2) items' = delete (Z.to_nat 0) Cases.abc.
Proof.
  apply (moveItem_moves Cases.abc 0 2); simpl; lia.
Defined.

Lemma moveItem_back_witness :
  moveItem [Cases.bakeryPoint Recent; Cases.cafePoint Recent; Cases.shopPoint Recent]
           2 0
  = Some Cases.abc.
Proof.
  apply (moveItem_back Cases.abc 0 2). vm_compute. reflexivity.
Defined.

Lemma favorites_stay_unique_witness :
  exists st' favs',
    toggleFavorite Sample.fallback Sample.matchGeometry Sample.cafe "point"
      Cases.oneFavorite = Some (tt, st')
    /\ _favorites st' = Some favs'
    /\ forall p g, (copies favs' p g <= 1)%nat.
Proof.
  destruct (favorites_stay_unique Sample.fallback Sample.matchGeometry
              Sample.cafe "point" Sample.pointPreset Sample.pointPreset
              Cases.oneFavorite [Cases.shopPoint Favorite] Cases.oneFavorite
              eq_refl eq_refl eq_refl eq_refl (one_item_unique _))
    as [Htoggle _].
  exact Htoggle.
Defined.

Lemma recents_stay_unique_witness :
  exists st' items',
    setMostRecent Sample.fallback Sample.matchGeometry Sample.cafe "point"
      Cases.oneRecent = Some (tt, st')
    /\ _recents st' = Some items'
    /\ forall p g, (copies items' p g <= 1)%nat.
Proof.
  apply (recents_stay_unique Sample.fallback Sample.matchGeometry
           Sample.cafe "point" Sample.pointPreset Sample.pointPreset
           Cases.oneRecent [Cases.shopPoint Recent] Cases.oneRecent
           eq_refl eq_refl eq_refl eq_refl eq_refl eq_refl (one_item_unique _)).
Defined.

(** The tenth favorite makes room for the cafe. *)
Lemma toggleFavorite_evicts_last_witness :
  exists st',
    toggleFavorite Sample.fallback Sample.matchGeometry Sample.cafe "point"
      Sample.fullState = Some (tt, st')
    /\ _favorites st'
       = Some (take 9 Sample.tenFavorites ++ [Cases.cafePoint Favorite]).
Proof.
  apply (toggleFavorite_evicts_last Sample.fallback Sample.matchGeometry
           Sample.cafe "point" Sample.pointPreset Sample.pointPreset
           Sample.fullState Sample.tenFavorites Sample.fullState
           eq_refl eq_refl eq_refl eq_refl).
  vm_compute. reflexivity.
Defined.

Lemma setMostRecent_evicts_oldest_witness :
  exists st',
    setMostRecent Sample.fallback Sample.matchGeometry Sample.cafe "point"
      Cases.thirtyRecents = Some (tt, st')
    /\ _recents st'
       = Some (Cases.cafePoint Recent :: take 29 (replicate 30 (Cases.shopPoint Recent))).
Proof.
  apply (setMostRecent_evicts_oldest Sample.fallback Sample.matchGeometry
           Sample.cafe "point" Sample.pointPreset Sample.pointPreset
           Cases.thirtyRecents (replicate 30 (Cases.shopPoint Recent))
           Cases.thirtyRecents
           eq_refl eq_refl eq_refl eq_refl eq_refl eq_refl).
  vm_compute. reflexivity.
Defined.

(** In the guided tour, and without any fallback preset. *)
Lemma setMostRecent_inert_witness :
  setMostRecent (fun _ => None) Sample.matchGeometry Sample.cafe "point"
    Cases.touring
  = Some (tt, Cases.touring).
Proof.
  apply (setMostRecent_inert (fun _ => None) Sample.matchGeometry Sample.cafe
           "point" Cases.touring).
  left. reflexivity.
Defined.

Lemma addFavorite_then_removeFavorite_witness :
  exists st' st'',
    addFavorite Sample.fallback Sample.matchGeometry Sample.cafe "point"
      Cases.oneFavorite = Some (tt, st')
    /\ removeFavorite Sample.fallback Sample.matchGeometry Sample.cafe "point" st'
       = Some (tt, st'')
    /\ _favorites st'' = Some [Cases.shopPoint Favorite].
Proof.
  apply (addFavorite_then_removeFavorite Sample.fallback Sample.matchGeometry
           Sample.cafe "point" Sample.pointPreset Sample.pointPreset
           Cases.oneFavorite [Cases.shopPoint Favorite] Cases.oneFavorite
           eq_refl eq_refl eq_refl eq_refl).
  vm_compute. reflexivity.
Defined.

Lemma setMostRecent_then_removeRecent_witness :
  exists st' st'',
    setMostRecent Sample.fallback Sample.matchGeometry Sample.cafe "point"
      Cases.oneRecent = Some (tt, st')
    /\ removeRecent Sample.fallback Sample.matchGeometry Sample.cafe "point" st'
       = Some (tt, st'')
    /\ _recents st'' = Some [Cases.shopPoint Recent].
Proof.
  apply (setMostRecent_then_removeRecent Sample.fallback Sample.matchGeometry
           Sample.cafe "point" Sample.pointPreset Sample.pointPreset
           Cases.oneRecent [Cases.shopPoint Recent] Cases.oneRecent
           eq_refl eq_refl eq_refl eq_refl eq_refl).
  - simpl. lia.
  - vm_compute. reflexivity.
Defined.

(** The cafe, last of three recents, moved to where the shop is. *)
(** Two recents with equal fields and a third one: the second object moved
    before the third. *)
Lemma moveRecent_moves_witness :
  exists st' items',
    moveRecent Sample.matchGeometry (Listed 1) (Listed 2) Cases.twins
    = Some (tt, st')
    /\ _recents st' = Some items'
    /\ storage st' !! "preset_recents" = Some (minified <$> items')
    /\ indexOfRef Cases.aac (Listed 1) = Z.of_nat 1
    /\ indexOfRef Cases.aac (Listed 2) = Z.of_nat 2
    /\ items' ≡ₚ Cases.aac
    /\ items' !! 2%nat = Some (Cases.shopPoint Recent)
    /\ delete 2%nat items' = delete 1%nat Cases.aac.
Proof.
  apply (moveRecent_moves Sample.matchGeometry 1 2 (Cases.shopPoint Recent)
           Cases.twins Cases.aac Cases.twins eq_refl).
  - reflexivity.
  - simpl. lia.
  - lia.
Defined.

Lemma moveRecent_rejected_witness :
  moveRecent Sample.matchGeometry (Listed 2) (Listed 2) Sample.threeRecents
  = Some (tt, Sample.threeRecents).
Proof.
  apply (moveRecent_rejected Sample.matchGeometry (Listed 2) (Listed 2)
           Sample.threeRecents Cases.abc Sample.threeRecents eq_refl).
  right. right. reflexivity.
Defined.

(** The first favorite moved to the third place; a place beyond the list. *)
Lemma moveFavorite_moves_witness :
  (exists st' favs' x,
      moveFavorite Sample.matchGeometry 0 2 Sample.fullState = Some (tt, st')
      /\ _favorites st' = Some favs'
      /\ storage st' !! "preset_favorites" = Some (minified <$> favs')
      /\ favs' ≡ₚ Sample.tenFavorites
      /\ Sample.tenFavorites !! Z.to_nat 0 = Some x
      /\ favs' !! Z.to_nat 2 = Some x)
  /\ moveFavorite Sample.matchGeometry 0 10 Sample.fullState
     = Some (tt, Sample.fullState).
Proof.
  split.
  - apply (moveFavorite_moves Sample.matchGeometry 0 2 Sample.fullState
             Sample.tenFavorites Sample.fullState eq_refl).
    simpl. lia.
  - apply (moveFavorite_moves Sample.matchGeometry 0 10 Sample.fullState
             Sample.tenFavorites Sample.fullState eq_refl).
    simpl. lia.
Defined.
